(** * A shallow embedding of the moderation bot's core

    Six parts of the repository are embedded here, each from its source
    file: the rule-set evaluator ([RuleSet.run]), the configuration
    resolver ([ConfigBuilder.parseToStructured], its four helpers and
    [buildPollingOptions]), the per-subreddit resource cache
    ([SubredditResources], [BotResourcesManager]), the comment action
    ([CommentAction.process]), the pagination of the web interface
    ([paginateRequest]) and the grouping helper ([groupBy]).

    The file has three parts: the definitions, one module per source
    class; the properties, one module per source class again; and
    further properties of the same definitions. *)

From Stdlib Require Import ZArith List String Ascii Bool Lia.
From stdpp Require Import base option list strings gmap.

Import ListNotations.
Local Open Scope string_scope.
Local Open Scope list_scope.

Set Default Proof Using "Type".
Set Warnings "-register-all".

(** A promise either resolves with a value or rejects with what was thrown. *)
Inductive result (E A : Type) : Type :=
| Ok (a : A)
| Err (e : E).
Arguments Ok {E A} a.
Arguments Err {E A} e.

(** The join operand of a rule set or a check (Common/interfaces). *)
Inductive JoinOperands : Type := AND | OR.

#[global] Instance JoinOperands_eq_dec : EqDecision JoinOperands.
Proof. solve_decision. Defined.

(* ================================================================== *)
(** * Part I: the program                                              *)
(* ================================================================== *)

(** ** Rule/RuleSet: [RuleSet.run] *)
Module RuleSet.
Section Run.
Context {Item RuleResult Thrown : Type}.

(** An array slot: [None] is JavaScript's [undefined], which is what the
    destructuring [[passed, [result]]] binds when a rule resolves with an
    empty result array. *)
Definition Slot : Type := option RuleResult.

(** A [Rule] is used by the set through its [run] method only: awaiting
    [r.run(item, combinedResults)] either rejects or resolves with
    [[passed, results]], where [passed] is [true], [false] or [null]. *)
Record Rule : Type := {
  rule_run : Item -> list Slot -> result Thrown (option bool * list Slot)
}.

Record RuleSet : Type := {
  rules : list Rule;
  condition : JoinOperands
}.

(** [const [result] = results]: the first element, [undefined] when the
    array is empty. *)
Definition first_result (out : list Slot) : Slot :=
  match out with
  | [] => None
  | r :: _ => r
  end.

(** The [for (const r of this.rules)] loop with its two local variables
    [results] and [runOne], and the statements after the loop. *)
Fixpoint run_loop (cond : JoinOperands) (item : Item) (existingResults : list Slot)
    (rs : list Rule) (results : list Slot) (runOne : bool)
    : result Thrown (bool * list Slot) :=
  match rs with
  | [] =>
      if negb runOne then Ok (false, results) else Ok (true, results)
  | r :: rest =>
      let combinedResults := existingResults ++ results in
      match rule_run r item combinedResults with
      | Err e => Err e
      | Ok (passed, out) =>
          let results := results ++ [first_result out] in
          match passed with
          | None => run_loop cond item existingResults rest results runOne
          | Some true =>
              match cond with
              | OR => Ok (true, results)
              | AND => run_loop cond item existingResults rest results true
              end
          | Some false =>
              match cond with
              | AND => Ok (false, results)
              | OR => run_loop cond item existingResults rest results true
              end
          end
      end
  end.

Definition run (rs : RuleSet) (item : Item) (existingResults : list Slot)
    : result Thrown (bool * list Slot) :=
  run_loop (condition rs) item existingResults (rules rs) [] false.

(** *** Vocabulary for the properties *)

(** The outcome at which the loop returns early: a failing child under
    AND, a passing child under OR.  It is also the flag returned there. *)
Definition stop_value (cond : JoinOperands) : bool :=
  match cond with
  | AND => false
  | OR => true
  end.

(** [evaluated item existing acc rs outs]: the children [rs], awaited one
    after the other in the order of the list, each seeing [existing]
    followed by what its earlier siblings produced (starting from [acc]),
    resolve with the outcomes [outs]. *)
Inductive evaluated (item : Item) (existing : list Slot)
    : list Slot -> list Rule -> list (option bool * Slot) -> Prop :=
| evaluated_nil acc : evaluated item existing acc [] []
| evaluated_cons acc r rs passed out outs :
    rule_run r item (existing ++ acc) = Ok (passed, out) ->
    evaluated item existing (acc ++ [first_result out]) rs outs ->
    evaluated item existing acc (r :: rs) ((passed, first_result out) :: outs).

(** The outcomes of the applicable children, in order. *)
Definition applicable (outs : list (option bool * Slot)) : list bool :=
  omap fst outs.


End Run.
Arguments Rule : clear implicits.
Arguments RuleSet : clear implicits.

(** A rule that ignores its input and resolves with [passed] and one
    result, its label. *)
Definition constant (passed : option bool) (label : nat) : Rule unit nat unit :=
  {| rule_run := fun _ _ => Ok (passed, [Some label]) |}.

End RuleSet.

(** ** ConfigBuilder: named rules and actions *)
Module ConfigBuilder.

(** *** JavaScript string built-ins *)

Definition lower_ascii (c : ascii) : ascii :=
  let n := nat_of_ascii c in
  if (65 <=? n)%nat && (n <=? 90)%nat then ascii_of_nat (n + 32) else c.

(** The letters [A] to [Z] folded and every other character kept: what
    [toLowerCase] does to a string of ASCII characters. *)
Fixpoint lowerAscii (s : string) : string :=
  match s with
  | EmptyString => EmptyString
  | String c s' => String (lower_ascii c) (lowerAscii s')
  end.

(** A string of ASCII characters only. *)
Fixpoint isAscii (s : string) : bool :=
  match s with
  | EmptyString => true
  | String c s' => (nat_of_ascii c <? 128)%nat && isAscii s'
  end.

(** [String.prototype.toLowerCase], taken as given: it folds every cased
    letter of Unicode, and no table of those is written here.  One fact
    about it is used: on a string of ASCII characters it folds [A] to
    [Z] and keeps everything else. *)
Class Casing : Type := {
  toLowerCase : string -> string;
  toLowerCase_ascii : forall s, isAscii s = true -> toLowerCase s = lowerAscii s
}.

(** White space as [trim] sees it: tab, line feed, vertical tab, form
    feed, carriage return and space. *)
Definition is_white (c : ascii) : bool :=
  let n := nat_of_ascii c in
  ((9 <=? n)%nat && (n <=? 13)%nat) || (n =? 32)%nat.

Fixpoint trimStart (s : string) : string :=
  match s with
  | EmptyString => EmptyString
  | String c s' => if is_white c then trimStart s' else s
  end.

Fixpoint trimEnd (s : string) : string :=
  match s with
  | EmptyString => EmptyString
  | String c s' =>
      match trimEnd s' with
      | EmptyString => if is_white c then EmptyString else String c EmptyString
      | t => String c t
      end
  end.

(** [String.prototype.trim]. *)
Definition trim (s : string) : string := trimEnd (trimStart s).

(** Modelled from the spec: [normalizeName] of [util], which is not among
    the sources; the spec calls a normalized name "trimmed, lower-cased".
    The resolver below takes the normalization as a parameter; this
    instance is the one the spec describes. *)
Definition normalizeNameSpec `{Casing} (name : string) : string :=
  toLowerCase (trim name).

(** *** Errors *)

(** What the resolver throws; every error carries the name it is about. *)
Inductive ConfigError : Type :=
| RuleNameConflict (name : string)
| ActionNameConflict (name : string)
| NoNamedRule (ref : string)
| NoNamedAction (ref : string)
| NameNotAString.

(** The messages of the four [throw new Error] statements.
    [NameNotAString] stands for the [TypeError] of normalizing an
    [undefined] name; [extractNamedRules] never raises it. *)
Definition message (e : ConfigError) : string :=
  match e with
  | RuleNameConflict name =>
      "Rule names must be unique (case-insensitive). Conflicting name: " +:+ name
  | ActionNameConflict name =>
      "Actions names must be unique (case-insensitive). Conflicting name: " +:+ name
  | NoNamedRule r => "No named Rule with the name " +:+ r +:+ " was found"
  | NoNamedAction a => "No named Action with the name " +:+ a +:+ " was found"
  | NameNotAString => "Cannot read properties of undefined"
  end.

(** *** [buildPollingOptions] *)

(** [PollingOptions]: what to poll, and optionally how often and how
    many. *)
Record PollingOptions : Type := {
  pollOn : string;
  interval : option Z;
  limit : option Z
}.

(** [PollingOptionsStrong]: every field is there. *)
Record PollingOptionsStrong : Type := {
  strongPollOn : string;
  strongInterval : Z;
  strongLimit : Z
}.

(** An entry of the [polling] list: a name or an object. *)
Inductive PollingValue : Type :=
| PollName (v : string)
| PollObject (v : PollingOptions).

(** The loop of [buildPollingOptions], pushing one strong option per
    entry. *)
Fixpoint buildPollingOptions (values : list PollingValue) : list PollingOptionsStrong :=
  match values with
  | [] => []
  | PollName v :: rest =>
      {| strongPollOn := v; strongInterval := 10000; strongLimit := 25 |}
      :: buildPollingOptions rest
  | PollObject v :: rest =>
      {| strongPollOn := pollOn v;
         strongInterval := default 20000%Z (interval v);
         strongLimit := default 25%Z (limit v) |}
      :: buildPollingOptions rest
  end.

(** A strong option is a [PollingOptions] object. *)
Definition asPollingValue (o : PollingOptionsStrong) : PollingValue :=
  PollObject {| pollOn := strongPollOn o;
                interval := Some (strongInterval o);
                limit := Some (strongLimit o) |}.

(** What an entry asks to poll. *)
Definition pollOnOf (v : PollingValue) : string :=
  match v with
  | PollName p => p
  | PollObject o => pollOn o
  end.

Section Config.
(** The fields of a rule or action object other than [kind] and [name],
    compared by [deepEqual]; and the fields of a check other than [rules]
    and [actions]. *)
Context {Body CheckRest : Type} `{EqDecision Body}.
(** The case mapping of the platform. *)
Context `{Casing}.

(** [RuleObjectJson] and [ActionObjectJson]: an object with a [kind], an
    optional [name] and further fields. *)
Record ObjectJson : Type := {
  kind : string;
  name : option string;
  body : Body
}.

(** [RuleJson | RuleSetJson]: a reference by name, a rule object, or a
    rule set, which has no [kind] but nested [rules]. *)
Inductive RuleJson : Type :=
| RuleRef (ref : string)
| RuleObj (rule : ObjectJson)
| RuleSetJ (condition : option JoinOperands) (rules : list RuleJson).

(** [ActionJson]: a reference by name or an action object. *)
Inductive ActionJson : Type :=
| ActionRef (ref : string)
| ActionObj (action : ObjectJson).

Record CheckJson : Type := {
  check_rest : CheckRest;
  check_rules : option (list RuleJson);
  check_actions : list ActionJson
}.

Record JSONConfig : Type := {
  checks : option (list CheckJson)
}.

(** *** A JavaScript [Map] with string keys

    Entries are kept in insertion order, which [values()] follows. *)
Definition Registry : Type := list (string * ObjectJson).

Fixpoint map_get (k : string) (m : Registry) : option ObjectJson :=
  match m with
  | [] => None
  | (k', v) :: m' => if decide (k' = k) then Some v else map_get k m'
  end.

Definition map_has (k : string) (m : Registry) : bool :=
  bool_decide (is_Some (map_get k m)).

Fixpoint map_set (k : string) (v : ObjectJson) (m : Registry) : Registry :=
  match m with
  | [] => [(k, v)]
  | (k', v') :: m' => if decide (k' = k) then (k, v) :: m' else (k', v') :: map_set k v m'
  end.

Definition map_values (m : Registry) : list ObjectJson := m.*2.

(** *** Extraction *)

(** [const {name: n, ...rest} = rule]: the object without its name. *)
Definition stripName (o : ObjectJson) : string * Body := (kind o, body o).

(** [deepEqual] of two objects without name. *)
Definition deepEqual (a b : string * Body) : bool := bool_decide (a = b).

(** The body of the loops that register a named object under
    [normalName], shared by rules and actions: an entry already there must
    be deep-equal without its name, or [conflict] is thrown. *)
Definition register (conflict : ConfigError) (normalName : string)
    (o : ObjectJson) (named : Registry) : result ConfigError Registry :=
  if map_has normalName named then
    match map_get normalName named with
    | Some existing =>
        if negb (deepEqual (stripName existing) (stripName o)) then Err conflict
        else Ok named
    | None => Ok named
    end
  else Ok (map_set normalName o named).

(** [for (const rule of rulesToAdd)]: every rule of the list is
    registered under its normalized name. *)
Fixpoint registerAll (normal : string -> string) (conflict : string -> ConfigError)
    (toAdd : list ObjectJson) (named : Registry) : result ConfigError Registry :=
  match toAdd with
  | [] => Ok named
  | o :: rest =>
      match name o with
      | None => Err NameNotAString
      | Some n =>
          match register (conflict n) (normal n) o named with
          | Err e => Err e
          | Ok named' => registerAll normal conflict rest named'
          end
      end
  end.

Variable normalizeName : string -> string.

Definition addRules : list ObjectJson -> Registry -> result ConfigError Registry :=
  registerAll normalizeName RuleNameConflict.

(** [rulesToAdd] for one entry of the list: nothing for a string, the
    rule itself when it has a name, and for a rule set the values of the
    registry extracted from its rules, starting from a new [Map]. *)
Fixpoint rulesToAddOf (r : RuleJson) : result ConfigError (list ObjectJson) :=
  match r with
  | RuleRef _ => Ok []
  | RuleObj rule =>
      match name rule with
      | Some _ => Ok [rule]
      | None => Ok []
      end
  | RuleSetJ _ rules =>
      match
        (fix extractNested (rs : list RuleJson) (namedRules : Registry)
           : result ConfigError Registry :=
           match rs with
           | [] => Ok namedRules
           | r' :: rest =>
               match rulesToAddOf r' with
               | Err e => Err e
               | Ok rulesToAdd =>
                   match addRules rulesToAdd namedRules with
                   | Err e => Err e
                   | Ok namedRules' => extractNested rest namedRules'
                   end
               end
           end) rules []
      with
      | Err e => Err e
      | Ok nestedNamed => Ok (map_values nestedNamed)
      end
  end.

Fixpoint extractNamedRules (rules : list RuleJson) (namedRules : Registry)
    : result ConfigError Registry :=
  match rules with
  | [] => Ok namedRules
  | r :: rest =>
      match rulesToAddOf r with
      | Err e => Err e
      | Ok rulesToAdd =>
          match addRules rulesToAdd namedRules with
          | Err e => Err e
          | Ok namedRules' => extractNamedRules rest namedRules'
          end
      end
  end.

(** The type guard [isActionJson] of [Action], not among the sources. *)
Variable isActionJson : ObjectJson -> bool.

Fixpoint extractNamedActions (actions : list ActionJson) (namedActions : Registry)
    : result ConfigError Registry :=
  match actions with
  | [] => Ok namedActions
  | ActionRef _ :: rest => extractNamedActions rest namedActions
  | ActionObj a :: rest =>
      match name a with
      | Some n =>
          if isActionJson a then
            match register (ActionNameConflict n) (toLowerCase n) a namedActions with
            | Err e => Err e
            | Ok namedActions' => extractNamedActions rest namedActions'
            end
          else extractNamedActions rest namedActions
      | None => extractNamedActions rest namedActions
      end
  end.

(** *** Insertion *)

Fixpoint insertRule (namedRules : Registry) (r : RuleJson) : result ConfigError RuleJson :=
  match r with
  | RuleRef ref =>
      match map_get (toLowerCase ref) namedRules with
      | None => Err (NoNamedRule ref)
      | Some foundRule => Ok (RuleObj foundRule)
      end
  | RuleSetJ cond sr =>
      match
        (fix insertNested (rs : list RuleJson) : result ConfigError (list RuleJson) :=
           match rs with
           | [] => Ok []
           | r' :: rest =>
               match insertRule namedRules r' with
               | Err e => Err e
               | Ok strong =>
                   match insertNested rest with
                   | Err e => Err e
                   | Ok strongRules => Ok (strong :: strongRules)
                   end
               end
           end) sr
      with
      | Err e => Err e
      | Ok setRules => Ok (RuleSetJ cond setRules)
      end
  | RuleObj rule => Ok (RuleObj rule)
  end.

Fixpoint insertNamedRules (rules : list RuleJson) (namedRules : Registry)
    : result ConfigError (list RuleJson) :=
  match rules with
  | [] => Ok []
  | r :: rest =>
      match insertRule namedRules r with
      | Err e => Err e
      | Ok strong =>
          match insertNamedRules rest namedRules with
          | Err e => Err e
          | Ok strongRules => Ok (strong :: strongRules)
          end
      end
  end.

Fixpoint insertNamedActions (actions : list ActionJson) (namedActions : Registry)
    : result ConfigError (list ActionJson) :=
  match actions with
  | [] => Ok []
  | a :: rest =>
      match
        match a with
        | ActionRef ref =>
            match map_get (toLowerCase ref) namedActions with
            | None => Err (NoNamedAction ref)
            | Some foundAction => Ok (ActionObj foundAction)
            end
        | ActionObj _ => Ok a
        end
      with
      | Err e => Err e
      | Ok strong =>
          match insertNamedActions rest namedActions with
          | Err e => Err e
          | Ok strongActions => Ok (strong :: strongActions)
          end
      end
  end.

(** *** [parseToStructured] *)

(** [const {rules = []} = c]. *)
Definition rulesOf (c : CheckJson) : list RuleJson := default [] (check_rules c).

(** The first loop: both registries are carried from check to check. *)
Fixpoint extractChecks (cs : list CheckJson) (namedRules namedActions : Registry)
    : result ConfigError (Registry * Registry) :=
  match cs with
  | [] => Ok (namedRules, namedActions)
  | c :: rest =>
      match extractNamedRules (rulesOf c) namedRules with
      | Err e => Err e
      | Ok namedRules' =>
          match extractNamedActions (check_actions c) namedActions with
          | Err e => Err e
          | Ok namedActions' => extractChecks rest namedRules' namedActions'
          end
      end
  end.

(** The second loop: [{...c, rules: strongRules, actions: strongActions}]. *)
Fixpoint insertChecks (cs : list CheckJson) (namedRules namedActions : Registry)
    : result ConfigError (list CheckJson) :=
  match cs with
  | [] => Ok []
  | c :: rest =>
      match insertNamedRules (rulesOf c) namedRules with
      | Err e => Err e
      | Ok strongRules =>
          match insertNamedActions (check_actions c) namedActions with
          | Err e => Err e
          | Ok strongActions =>
              let strongCheck :=
                {| check_rest := check_rest c;
                   check_rules := Some strongRules;
                   check_actions := strongActions |} in
              match insertChecks rest namedRules namedActions with
              | Err e => Err e
              | Ok structuredChecks => Ok (strongCheck :: structuredChecks)
              end
          end
      end
  end.

Definition parseToStructured (config : JSONConfig) : result ConfigError (list CheckJson) :=
  let cs := default [] (checks config) in
  match extractChecks cs [] [] with
  | Err e => Err e
  | Ok (namedRules, namedActions) => insertChecks cs namedRules namedActions
  end.

(** *** Vocabulary for the properties *)

(** The named rule objects of a list, nested ones included, in document
    order. *)
Fixpoint namedRulesOf (r : RuleJson) : list ObjectJson :=
  match r with
  | RuleRef _ => []
  | RuleObj rule => match name rule with Some _ => [rule] | None => [] end
  | RuleSetJ _ rules => flat_map namedRulesOf rules
  end.

Definition namedRulesIn (rules : list RuleJson) : list ObjectJson :=
  flat_map namedRulesOf rules.

(** The action objects of a list that extraction looks at. *)
Definition namedActionsIn (actions : list ActionJson) : list ObjectJson :=
  flat_map (fun a =>
    match a with
    | ActionObj o =>
        match name o with
        | Some _ => if isActionJson o then [o] else []
        | None => []
        end
    | ActionRef _ => []
    end) actions.

(** The key under which an object is registered, given the normalization
    of names. *)
Definition keyOf (normal : string -> string) (o : ObjectJson) : option string :=
  normal <$> name o.

(** No two objects of the list share a key and differ apart from the
    name. *)
Definition compatible (normal : string -> string) (os : list ObjectJson) : Prop :=
  forall a b k, a ∈ os -> b ∈ os ->
    keyOf normal a = Some k -> keyOf normal b = Some k -> stripName a = stripName b.

(** A registry as extraction builds it: every entry is a named object
    filed under its key, and no key occurs twice. *)
Definition wellKeyed (normal : string -> string) (m : Registry) : Prop :=
  NoDup m.*1 /\ Forall (fun kv => keyOf normal kv.2 = Some kv.1) m.

(** [registryOf normal os m]: [m] files the named objects of [os], one
    entry per key; the entry of a key is one of the objects of [os] and
    equals every object of [os] with that key apart from the name. *)
Definition registryOf (normal : string -> string) (os : list ObjectJson)
    (m : Registry) : Prop :=
  wellKeyed normal m /\
  (forall k o', (k, o') ∈ m -> o' ∈ os) /\
  (forall o k, o ∈ os -> keyOf normal o = Some k ->
     exists o', map_get k m = Some o' /\ stripName o' = stripName o).

(** [represents normal toAdd os]: the objects [toAdd] are named objects
    of [os] and stand for all of them, with the same keys and the same
    fields apart from the name.  This is how the values of a nested
    registry relate to the named rules of the nested set. *)
Definition represents (normal : string -> string) (toAdd os : list ObjectJson) : Prop :=
  Forall (fun o => is_Some (name o)) toAdd /\
  (forall o, o ∈ toAdd -> o ∈ os) /\
  (forall o k, o ∈ os -> keyOf normal o = Some k ->
     exists o', o' ∈ toAdd /\ keyOf normal o' = Some k /\ stripName o' = stripName o).

(** [nameConflict normal conflict e new all]: the error [e] names an
    object of [new] that shares its key with an object of [all] and
    differs from it apart from the name. *)
Definition nameConflict (normal : string -> string) (conflict : string -> ConfigError)
    (e : ConfigError) (new all : list ObjectJson) : Prop :=
  exists o n o2,
    o ∈ new /\ name o = Some n /\ e = conflict n /\
    o2 ∈ all /\ keyOf normal o2 = Some (normal n) /\ stripName o2 <> stripName o.

(** The string references of a list of rules, in document order. *)
Fixpoint ruleRefsOf (r : RuleJson) : list string :=
  match r with
  | RuleRef ref => [ref]
  | RuleObj _ => []
  | RuleSetJ _ rules => flat_map ruleRefsOf rules
  end.

Definition actionRefsOf (a : ActionJson) : list string :=
  match a with
  | ActionRef ref => [ref]
  | ActionObj _ => []
  end.

(** A reference that the registry cannot resolve: no entry under the
    lower-cased name. *)
Definition unresolved (named : Registry) (ref : string) : bool :=
  negb (map_has (toLowerCase ref) named).

(** What insertion makes of an entry. *)
Inductive resolvedRule (namedRules : Registry) : RuleJson -> RuleJson -> Prop :=
| resolved_ref ref found :
    map_get (toLowerCase ref) namedRules = Some found ->
    resolvedRule namedRules (RuleRef ref) (RuleObj found)
| resolved_obj rule :
    resolvedRule namedRules (RuleObj rule) (RuleObj rule)
| resolved_set cond rules strongRules :
    Forall2 (resolvedRule namedRules) rules strongRules ->
    resolvedRule namedRules (RuleSetJ cond rules) (RuleSetJ cond strongRules).

Inductive resolvedAction (namedActions : Registry) : ActionJson -> ActionJson -> Prop :=
| resolved_action_ref ref found :
    map_get (toLowerCase ref) namedActions = Some found ->
    resolvedAction namedActions (ActionRef ref) (ActionObj found)
| resolved_action_obj action :
    resolvedAction namedActions (ActionObj action) (ActionObj action).

(** A fully inlined configuration: every check declares its rules, and no
    rule or action is a string. *)
Definition inlinedCheck (c : CheckJson) : Prop :=
  is_Some (check_rules c) /\
  flat_map ruleRefsOf (rulesOf c) = [] /\
  flat_map actionRefsOf (check_actions c) = [].

(** A check without string references; it may leave [rules] out. *)
Definition referenceFree (c : CheckJson) : Prop :=
  flat_map ruleRefsOf (rulesOf c) = [] /\
  flat_map actionRefsOf (check_actions c) = [].

(** [{...c, rules}] with [const {rules = []} = c]: the check with its
    rules declared, an empty list if it had none. *)
Definition declared (c : CheckJson) : CheckJson :=
  {| check_rest := check_rest c;
     check_rules := Some (rulesOf c);
     check_actions := check_actions c |}.

(** The named rule objects and the named action objects of a list of
    checks, in document order. *)
Definition namedRulesOfChecks (cs : list CheckJson) : list ObjectJson :=
  flat_map (fun c => namedRulesIn (rulesOf c)) cs.

Definition namedActionsOfChecks (cs : list CheckJson) : list ObjectJson :=
  flat_map (fun c => namedActionsIn (check_actions c)) cs.

(** What the second loop of [parseToStructured] makes of a check: the
    other fields are kept, [rules] is declared and holds the resolved
    rules, [actions] holds the resolved actions. *)
Definition resolvedCheck (namedRules namedActions : Registry) (c c' : CheckJson) : Prop :=
  check_rest c' = check_rest c /\
  (exists strongRules,
     check_rules c' = Some strongRules /\
     Forall2 (resolvedRule namedRules) (rulesOf c) strongRules) /\
  Forall2 (resolvedAction namedActions) (check_actions c) (check_actions c').

(** The string references of the rules, and of the actions, of a list of
    checks, in document order. *)
Definition ruleRefsOfChecks (cs : list CheckJson) : list string :=
  flat_map (fun c => flat_map ruleRefsOf (rulesOf c)) cs.

Definition actionRefsOfChecks (cs : list CheckJson) : list string :=
  flat_map (fun c => flat_map actionRefsOf (check_actions c)) cs.

End Config.
Arguments ObjectJson : clear implicits.
Arguments RuleJson : clear implicits.
Arguments ActionJson : clear implicits.
Arguments CheckJson : clear implicits.
Arguments JSONConfig : clear implicits.
Arguments Registry : clear implicits.

(** *** Sample documents

    The remaining fields of an object are a number here, and a check has
    no fields but its rules and actions. *)

Definition anyObject : ObjectJson nat -> bool := fun _ => true.

(** The case mapping on documents written in ASCII, as the samples are:
    other characters are left alone. *)
Definition sampleCasing : Casing :=
  {| toLowerCase := lowerAscii; toLowerCase_ascii := fun _ _ => eq_refl |}.

Definition sampleRule (n : string) (b : nat) : ObjectJson nat :=
  {| kind := "recentActivity"; name := Some n; body := b |}.

Definition sampleAction (n : string) (b : nat) : ObjectJson nat :=
  {| kind := "comment"; name := Some n; body := b |}.

(** One check whose rules and actions are all written in place, with a
    nested set, and with distinct names. *)
Definition inlinedConfig : JSONConfig nat unit :=
  {| checks := Some
       [ {| check_rest := tt;
            check_rules := Some [ RuleObj (sampleRule "Spam" 1);
                                  RuleSetJ (Some OR) [ RuleObj (sampleRule "Flood" 2);
                                                       RuleObj {| kind := "author"; name := None; body := 3 |} ] ];
            check_actions := [ ActionObj (sampleAction "Warn" 4) ] |} ] |}.

(** One check with two inline rules of the same name and different
    fields. *)
Definition conflictingConfig : JSONConfig nat unit :=
  {| checks := Some
       [ {| check_rest := tt;
            check_rules := Some [ RuleObj (sampleRule "a" 1); RuleObj (sampleRule "a" 2) ];
            check_actions := [] |} ] |}.

(** One check written in place that leaves [rules] out. *)
Definition rulelessConfig : JSONConfig nat unit :=
  {| checks := Some
       [ {| check_rest := tt;
            check_rules := None;
            check_actions := [ ActionObj (sampleAction "Warn" 4) ] |} ] |}.

(** Two actions whose names differ by case and a trailing blank, with
    different fields. *)
Definition blankActions : list (ActionJson nat) :=
  [ ActionObj (sampleAction "Foo " 1); ActionObj (sampleAction "foo" 2) ].

(** A rule defined inside a nested set and referred to by name, in
    another case, from a second check. *)
Definition referringConfig : JSONConfig nat unit :=
  {| checks := Some
       [ {| check_rest := tt;
            check_rules := Some [ RuleSetJ None [ RuleObj (sampleRule "Spam" 1) ] ];
            check_actions := [ ActionObj (sampleAction "Warn" 4) ] |};
         {| check_rest := tt;
            check_rules := Some [ RuleRef "SPAM" ];
            check_actions := [ ActionRef "warn" ] |} ] |}.

(** [referringConfig] with its references resolved. *)
Definition referringResult : list (CheckJson nat unit) :=
  [ {| check_rest := tt;
       check_rules := Some [ RuleSetJ None [ RuleObj (sampleRule "Spam" 1) ] ];
       check_actions := [ ActionObj (sampleAction "Warn" 4) ] |};
    {| check_rest := tt;
       check_rules := Some [ RuleObj (sampleRule "Spam" 1) ];
       check_actions := [ ActionObj (sampleAction "Warn" 4) ] |} ].

(** A check that declares no rules and refers to an action nothing
    defines. *)
Definition danglingConfig : JSONConfig nat unit :=
  {| checks := Some
       [ {| check_rest := tt;
            check_rules := None;
            check_actions := [ ActionObj (sampleAction "Warn" 4); ActionRef "Ban" ] |} ] |}.

End ConfigBuilder.

(** ** Subreddit/SubredditResources: the resource cache *)
Module Resources.

(** *** Values *)

Inductive ActivityKind : Type := Submission | Comment.

#[global] Instance ActivityKind_eq_dec : EqDecision ActivityKind.
Proof. solve_decision. Defined.

(** The value of an own property of an activity.  An object is never
    strictly equal to a value read from the configuration. *)
Inductive PropValue : Type :=
| PNull
| PBool (b : bool)
| PNum (n : Z)
| PStr (s : string)
| PObj.

(** An activity as the cache uses it: its class, its fullname, its title
    ([undefined] on a comment), the fullname of the submission a comment
    belongs to, and the properties read by key. *)
Record Activity : Type := {
  kind : ActivityKind;
  name : string;
  title : option string;
  link_id : string;
  props : gmap string PropValue
}.

(** A value of a state object of the configuration.  [CList] is an array
    of state objects, each a list of keys and values in the order of
    [Object.keys]. *)
Inductive CritValue : Type :=
| CUndefined
| CNull
| CBool (b : bool)
| CNum (n : Z)
| CStr (s : string)
| CList (states : list (list (string * CritValue))).

(** [SubmissionState | CommentState] and [TypedActivityStates]. *)
Definition ActivityState : Type := list (string * CritValue).
Definition TypedActivityStates : Type := list ActivityState.

(** [x !== undefined]. *)
Definition defined (v : CritValue) : bool :=
  match v with
  | CUndefined => false
  | _ => true
  end.

(** [found !== crit[k]] for the value of a property and a value of the
    configuration. *)
Definition strictNotEqual (found : PropValue) (v : CritValue) : bool :=
  match found, v with
  | PNull, CNull => false
  | PBool a, CBool b => negb (bool_decide (a = b))
  | PNum a, CNum b => negb (bool_decide (a = b))
  | PStr a, CStr b => negb (bool_decide (a = b))
  | _, _ => true
  end.

(** What is thrown: the rejection of an external call, the value
    [undefined] (which is what [throw err.logged] throws for an error
    without that property), and the [TypeError] of reading a property of
    [undefined] or of using a value of the wrong shape. *)
Inductive Thrown : Type :=
| Rejected (reason : string)
| ThrownUndefined
| TypeError.

(** [err.logged] as [getActivity] rethrows it. *)
Definition loggedOf (err : Thrown) : Thrown := ThrownUndefined.

(** What the cache holds under the keys of this file: activities and the
    results of item checks. *)
Inductive CacheValue : Type :=
| VActivity (a : Activity)
| VBool (b : bool).

Definition truthy (v : CacheValue) : bool :=
  match v with
  | VActivity _ => true
  | VBool b => b
  end.

(** A ttl of the settings: [false], or a number of seconds. *)
Inductive TTL : Type := TTLFalse | TTLSeconds (seconds : Z).

Definition enabled (t : TTL) : bool :=
  match t with
  | TTLFalse => false
  | TTLSeconds _ => true
  end.

Definition seconds (t : TTL) : Z :=
  match t with
  | TTLFalse => 0
  | TTLSeconds n => n
  end.

(** An entry of the backing store: the value and the ttl it was set
    with.  Expiry and eviction are the store's own business between two
    calls and are not part of this model. *)
Record CacheEntry : Type := {
  value : CacheValue;
  ttl : Z
}.

(** *** Statistics *)

Record CategoryStats : Type := {
  requests : nat;
  miss : nat;
  requestTimestamps : list Z;
  identifierRequestCount : gmap string nat
}.

(** [this.stats.cache], with the categories this file counts. *)
Record ResourceStats : Type := {
  author : CategoryStats;
  authorCrit : CategoryStats;
  itemCrit : CategoryStats;
  content : CategoryStats;
  userNotes : CategoryStats;
  submission : CategoryStats;
  comment : CategoryStats;
  commentCheck : CategoryStats
}.

Definition emptyCategory : CategoryStats :=
  {| requests := 0; miss := 0; requestTimestamps := []; identifierRequestCount := ∅ |}.

(** Modelled from the spec: [cacheStats] of [util], which is not among
    the sources; every category starts with no requests, no misses, no
    timestamps and no identifier counts. *)
Definition cacheStats : ResourceStats :=
  {| author := emptyCategory; authorCrit := emptyCategory; itemCrit := emptyCategory;
     content := emptyCategory; userNotes := emptyCategory; submission := emptyCategory;
     comment := emptyCategory; commentCheck := emptyCategory |}.

(** The three statements that open every cached lookup:
    [identifierRequestCount.set(hash, wrap(hash, () => 0) + 1)],
    [requestTimestamps.push(Date.now())] and [requests++]. *)
Definition countRequest (hash : string) (now : Z) (c : CategoryStats) : CategoryStats :=
  {| requests := S (requests c);
     miss := miss c;
     requestTimestamps := requestTimestamps c ++ [now];
     identifierRequestCount :=
       <[hash := S (default 0%nat (identifierRequestCount c !! hash))]>
         (identifierRequestCount c) |}.

(** [miss++]. *)
Definition countMiss (c : CategoryStats) : CategoryStats :=
  {| requests := requests c;
     miss := S (miss c);
     requestTimestamps := requestTimestamps c;
     identifierRequestCount := identifierRequestCount c |}.

Inductive Category : Type := CatSubmission | CatComment | CatItemCrit.

Definition updateCategory (cat : Category) (f : CategoryStats -> CategoryStats)
    (s : ResourceStats) : ResourceStats :=
  {| author := author s; authorCrit := authorCrit s;
     itemCrit := match cat with CatItemCrit => f (itemCrit s) | _ => itemCrit s end;
     content := content s; userNotes := userNotes s;
     submission := match cat with CatSubmission => f (submission s) | _ => submission s end;
     comment := match cat with CatComment => f (comment s) | _ => comment s end;
     commentCheck := commentCheck s |}.

(** *** The object *)

(** The footer of the settings: [false] or a string. *)
Inductive Footer : Type := FooterFalse | FooterText (text : string).

#[global] Instance Footer_eq_dec : EqDecision Footer.
Proof. solve_decision. Defined.

(** The fields of a [SubredditResources] object that the modelled methods
    read or write.  [cache] refers to a backing store; the manager below
    keeps the stores. *)
Record SubredditResources : Type := {
  res_name : string;
  cacheSettingsHash : string;
  cache : nat;
  cacheType : string;
  prefix : option string;
  authorTTL : TTL;
  wikiTTL : TTL;
  submissionTTL : TTL;
  commentTTL : TTL;
  filterCriteriaTTL : TTL;
  footer : Footer;
  stats : ResourceStats
}.

Definition withStats (f : ResourceStats -> ResourceStats) (r : SubredditResources)
    : SubredditResources :=
  {| res_name := res_name r; cacheSettingsHash := cacheSettingsHash r; cache := cache r;
     cacheType := cacheType r; prefix := prefix r; authorTTL := authorTTL r;
     wikiTTL := wikiTTL r; submissionTTL := submissionTTL r; commentTTL := commentTTL r;
     filterCriteriaTTL := filterCriteriaTTL r; footer := footer r;
     stats := f (stats r) |}.

(** *** What is logged *)

Inductive LogEntry : Type :=
| DebugCacheHitSubmission (name : string)
| DebugCacheHitComment (name : string)
| ErrorFetchCachedActivity (err : Thrown)
| DebugCacheHitItemCheck (name hash : string)
| ErrorTestingItemCriteria (err : Thrown)
| WarnSubmissionStateOnSubmission
| WarnTitleOnComment
| DebugFailedExpected (k : string) (expected : CritValue) (found : PropValue)
| DebugFailedTitle (titleReg : CritValue)
| ErrorTitleRegex (titleReg : CritValue)
| WarnPropertyMissing (k : string)
| DebugPassed (crit : ActivityState).

(** *** The world of one [SubredditResources] object *)

Record State : Type := {
  this : SubredditResources;
  store : gmap string CacheEntry;
  log : list LogEntry;
  fetched : list Activity;
  now : Z
}.

(** An asynchronous method: it changes the world and resolves or
    rejects. *)
Definition M (A : Type) : Type := State -> result Thrown A * State.

Definition ret {A} (a : A) : M A := fun s => (Ok a, s).

Definition throw {A} (e : Thrown) : M A := fun s => (Err e, s).

(** [await m] followed by [k]: a rejection of [m] is thrown on. *)
Definition bind {A B} (k : A -> M B) (m : M A) : M B :=
  fun s =>
    match m s with
    | (Ok a, s') => k a s'
    | (Err e, s') => (Err e, s')
    end.

#[global] Instance M_ret : MRet M := @ret.
#[global] Instance M_bind : MBind M := @bind.

(** [try { m } catch (err) { handler }]. *)
Definition tryCatch {A} (m : M A) (handler : Thrown -> M A) : M A :=
  fun s =>
    match m s with
    | (Ok a, s') => (Ok a, s')
    | (Err e, s') => handler e s'
    end.

Definition getThis : M SubredditResources := fun s => (Ok (this s), s).

(** The world after one more line of log. *)
Definition logged (e : LogEntry) (s : State) : State :=
  {| this := this s; store := store s; log := log s ++ [e];
     fetched := fetched s; now := now s |}.

Definition logEntry (e : LogEntry) : M unit := fun s => (Ok tt, logged e s).

Definition updateStats (f : ResourceStats -> ResourceStats) : M unit :=
  fun s => (Ok tt, {| this := withStats f (this s); store := store s; log := log s;
                      fetched := fetched s; now := now s |}).

(** The bookkeeping that opens a cached lookup in category [cat]. *)
Definition recordRequest (cat : Category) (hash : string) : M unit :=
  fun s => updateStats (updateCategory cat (countRequest hash (now s))) s.

Definition recordMiss (cat : Category) : M unit :=
  updateStats (updateCategory cat countMiss).

(** [this.cache.get(hash)], [undefined] and [null] both read as a miss. *)
Definition cacheGet (hash : string) : M (option CacheValue) :=
  fun s => (Ok (value <$> store s !! hash), s).

(** [this.cache.set(hash, v, {ttl})]. *)
Definition cacheSet (hash : string) (v : CacheValue) (t : TTL) : M unit :=
  fun s => (Ok tt, {| this := this s;
                      store := <[hash := {| value := v; ttl := seconds t |}]> (store s);
                      log := log s; fetched := fetched s; now := now s |}).

(** *** The platform *)

(** What the methods call outside this file: the type guard
    [asSubmission] of [util]; [item.fetch()] and [client.getSubmission]
    of the API client; the three flags of [Utils/SnoowrapUtils]; the
    regular-expression engine behind [String.prototype.match], which
    answers [None] for a pattern that does not compile; [ToString] of a
    value that is not a string; and [objectHash.sha1]. *)
Class Platform : Type := {
  asSubmission : Activity -> bool;
  fetch : Activity -> result Thrown Activity;
  getSubmission : string -> Activity;
  activityIsRemoved : Activity -> bool;
  activityIsDeleted : Activity -> bool;
  activityIsFiltered : Activity -> bool;
  regexMatch : string -> string -> option bool;
  jsToString : CritValue -> string;
  objectHash : CritValue -> string
}.

Section Methods.
Context `{Platform}.

(** [await item.fetch()], remembered in [fetched]. *)
Definition fetchItem (item : Activity) : M Activity :=
  fun s =>
    (fetch item, {| this := this s; store := store s; log := log s;
                    fetched := fetched s ++ [item]; now := now s |}).

(** *** [getActivity] *)

Definition getActivity (item : Activity) : M CacheValue :=
  tryCatch
    (self ← getThis;
     if enabled (submissionTTL self) && asSubmission item then
       let hash := "sub-" +:+ name item in
       recordRequest CatSubmission hash;;
       cachedSubmission ← cacheGet hash;
       match cachedSubmission with
       | Some cached =>
           logEntry (DebugCacheHitSubmission (name item));;
           ret cached
       | None =>
           submission ← fetchItem item;
           recordMiss CatSubmission;;
           cacheSet hash (VActivity submission) (submissionTTL self);;
           ret (VActivity submission)
       end
     else if enabled (commentTTL self) then
       let hash := "comm-" +:+ name item in
       recordRequest CatComment hash;;
       cachedComment ← cacheGet hash;
       match cachedComment with
       | Some cached =>
           logEntry (DebugCacheHitComment (name item));;
           ret cached
       | None =>
           comment ← fetchItem item;
           recordMiss CatComment;;
           cacheSet hash (VActivity comment) (commentTTL self);;
           ret (VActivity comment)
       end
     else
       fetchedItem ← fetchItem item;
       ret (VActivity fetchedItem))
    (fun err =>
       logEntry (ErrorFetchCachedActivity err);;
       throw (loggedOf err)).

(** *** [testItemCriteria] and [isItem] *)

(** [item instanceof Comment]. *)
Definition isComment (item : Activity) : bool := bool_decide (kind item = Comment).

(** The pattern [String.prototype.match] compiles from its argument. *)
Definition patternOf (titleReg : CritValue) : string :=
  match titleReg with
  | CStr s => s
  | other => jsToString other
  end.

(** A method that needs an activity and is handed another value. *)
Definition asActivity (v : CacheValue) : M Activity :=
  match v with
  | VActivity a => ret a
  | VBool _ => throw TypeError
  end.

(** The [catch] of [testItemCriteria]: reading [err.logged] of
    [undefined] is itself a [TypeError]; any other error is logged
    (none of them carries [logged === true]) and thrown on. *)
Definition rethrowLogged {A} (err : Thrown) : M A :=
  match err with
  | ThrownUndefined => throw TypeError
  | _ => logEntry (ErrorTestingItemCriteria err);; throw err
  end.

(** The cached part of [testItemCriteria], inside its [try]: [item] and
    [states] are what the check runs on, [check] is [this.isItem(item,
    states, this.logger)]. *)
Definition cachedItemCheck (check : M bool) (item : Activity) (states : CritValue)
    : M CacheValue :=
  self ← getThis;
  tryCatch
    (let hash := "itemCrit-" +:+ name item +:+ "-" +:+ objectHash states in
     recordRequest CatItemCrit hash;;
     cachedItem ← cacheGet hash;
     match cachedItem with
     | Some cached =>
         logEntry (DebugCacheHitItemCheck (name item) hash);;
         ret cached
     | None =>
         itemResult ← check;
         recordMiss CatItemCrit;;
         cacheSet hash (VBool itemResult) (filterCriteriaTTL self);;
         ret (VBool itemResult)
     end)
    rethrowLogged.

(** [testItemCriteria(i, s)], where [check item states] stands for
    [this.isItem(item, states, this.logger)]. *)
Definition testItemCriteriaWith (check : CritValue -> Activity -> M bool)
    (i : Activity) (s : CritValue) : M CacheValue :=
  self ← getThis;
  if enabled (filterCriteriaTTL self) then
    match s with
    | CList [[(k, submissionState)]] =>
        if isComment i && bool_decide (k = "submissionState") && defined submissionState then
          let subProxy := getSubmission (link_id i) in
          fetchedSub ← getActivity subProxy;
          item ← asActivity fetchedSub;
          cachedItemCheck (check submissionState item) item submissionState
        else cachedItemCheck (check s i) i s
    | _ => cachedItemCheck (check s i) i s
    end
  else
    itemResult ← check s i;
    ret (VBool itemResult).

(** What the body of the [switch] does with the loop over the keys. *)
Inductive FieldResult : Type :=
| FieldFailed
| FieldDone.

(** The body of [if (crit[k] !== undefined) { switch (k) {...} }] for
    the key [k] with value [v]: [FieldFailed] is [return false],
    [FieldDone] is [break] or [continue]. *)
Definition switchField (check : CritValue -> Activity -> M bool)
    (item : Activity) (k : string) (v : CritValue) : M FieldResult :=
  if bool_decide (k = "submissionState") then
    if negb (isComment item) then
      logEntry WarnSubmissionStateOnSubmission;;
      ret FieldDone
    else
      let subProxy := getSubmission (link_id item) in
      fetchedSub ← getActivity subProxy;
      sub ← asActivity fetchedSub;
      res ← testItemCriteriaWith check sub v;
      if negb (truthy res) then ret FieldFailed else ret FieldDone
  else if bool_decide (k = "removed") then
    let removed := activityIsRemoved item in
    if strictNotEqual (PBool removed) v then
      logEntry (DebugFailedExpected k v (PBool removed));;
      ret FieldFailed
    else ret FieldDone
  else if bool_decide (k = "deleted") then
    let deleted := activityIsDeleted item in
    if strictNotEqual (PBool deleted) v then
      logEntry (DebugFailedExpected k v (PBool deleted));;
      ret FieldFailed
    else ret FieldDone
  else if bool_decide (k = "filtered") then
    let filtered := activityIsFiltered item in
    if strictNotEqual (PBool filtered) v then
      logEntry (DebugFailedExpected k v (PBool filtered));;
      ret FieldFailed
    else ret FieldDone
  else if bool_decide (k = "title") then
    if isComment item then
      logEntry WarnTitleOnComment;;
      ret FieldDone
    else
      let titleReg := v in
      match title item with
      | None =>
          (* [item.title.match] on [undefined]: caught *)
          logEntry (ErrorTitleRegex titleReg);;
          ret FieldFailed
      | Some t =>
          match regexMatch (patternOf titleReg) t with
          | Some true => ret FieldDone
          | Some false =>
              logEntry (DebugFailedTitle titleReg);;
              ret FieldFailed
          | None =>
              logEntry (ErrorTitleRegex titleReg);;
              ret FieldFailed
          end
      end
  else
    match props item !! k with
    | Some found =>
        if strictNotEqual found v then
          logEntry (DebugFailedExpected k v found);;
          ret FieldFailed
        else ret FieldDone
    | None =>
        logEntry (WarnPropertyMissing k);;
        ret FieldDone
    end.

(** [isItem(item, stateCriteria, logger)], by recursion on the value
    [stateCriteria]: the states of a [submissionState] are part of it.
    A value that is not an array of state objects has no [length] to
    iterate over. *)
Fixpoint isItemValue (stateCriteria : CritValue) (item : Activity) {struct stateCriteria}
    : M bool :=
  match stateCriteria with
  | CList states =>
      match states with
      | [] => ret true
      | _ =>
          (fix eachCrit (crits : list (list (string * CritValue))) : M bool :=
             match crits with
             | [] => ret false
             | crit :: rest =>
                 pass ←
                   (fix eachKey (fields : list (string * CritValue)) : M bool :=
                      match fields with
                      | [] => logEntry (DebugPassed crit);; ret true
                      | (k, v) :: fields' =>
                          if defined v then
                            r ← switchField isItemValue item k v;
                            match r with
                            | FieldFailed => ret false
                            | FieldDone => eachKey fields'
                            end
                          else eachKey fields'
                      end) crit;
                 if pass : bool then ret true else eachCrit rest
             end) states
      end
  | _ => throw TypeError
  end.

Definition isItem (item : Activity) (stateCriteria : TypedActivityStates) : M bool :=
  isItemValue (CList stateCriteria) item.

Definition testItemCriteria (i : Activity) (s : TypedActivityStates) : M CacheValue :=
  testItemCriteriaWith isItemValue i (CList s).

(** The two loops of [isItem] by name. *)

(** The anonymous function: the loop over the keys of one state, then
    the [Passed] line. *)
Fixpoint checkState (item : Activity) (crit : ActivityState)
    (fields : list (string * CritValue)) : M bool :=
  match fields with
  | [] => logEntry (DebugPassed crit);; ret true
  | (k, v) :: fields' =>
      if defined v then
        r ← switchField isItemValue item k v;
        match r with
        | FieldFailed => ret false
        | FieldDone => checkState item crit fields'
        end
      else checkState item crit fields'
  end.

(** [for (const crit of stateCriteria)] and the [return false] after it. *)
Fixpoint anyState (item : Activity) (crits : TypedActivityStates) : M bool :=
  match crits with
  | [] => ret false
  | crit :: rest =>
      pass ← checkState item crit crit;
      if pass : bool then ret true else anyState item rest
  end.

(** *** Vocabulary for the properties *)

(** The world after the bookkeeping that opens a lookup, after a miss was
    counted, after a value was stored and after a fetch. *)
Definition counted (cat : Category) (hash : string) (s : State) : State :=
  {| this := withStats (updateCategory cat (countRequest hash (now s))) (this s);
     store := store s; log := log s; fetched := fetched s; now := now s |}.

Definition missed (cat : Category) (s : State) : State :=
  {| this := withStats (updateCategory cat countMiss) (this s);
     store := store s; log := log s; fetched := fetched s; now := now s |}.

Definition stored (hash : string) (v : CacheValue) (t : TTL) (s : State) : State :=
  {| this := this s;
     store := <[hash := {| value := v; ttl := seconds t |}]> (store s);
     log := log s; fetched := fetched s; now := now s |}.

Definition fetching (item : Activity) (s : State) : State :=
  {| this := this s; store := store s; log := log s;
     fetched := fetched s ++ [item]; now := now s |}.

(** What a call of [getActivity] that goes to the source does: the
    fetched activity, or the rejection logged and [err.logged] thrown. *)
Definition fromSource (item : Activity) (s : State) (k : Activity -> State -> State)
    : result Thrown CacheValue * State :=
  match fetch item with
  | Ok a => (Ok (VActivity a), k a (fetching item s))
  | Err e => (Err (loggedOf e), logged (ErrorFetchCachedActivity e) (fetching item s))
  end.

(** What a call of [getActivity] that goes through the cache does, under
    the key [hash] and in the category [cat]. *)
Definition throughCache (cat : Category) (hash : string) (hit : LogEntry) (t : TTL)
    (item : Activity) (s : State) : result Thrown CacheValue * State :=
  match store s !! hash with
  | Some entry => (Ok (value entry), logged hit (counted cat hash s))
  | None =>
      fromSource item (counted cat hash s)
        (fun a s' => stored hash (VActivity a) t (missed cat s'))
  end.

(** [statesFail item crits s s']: the states [crits], checked one after
    the other from the world [s], all fail and leave the world [s']. *)
Inductive statesFail (item : Activity) : TypedActivityStates -> State -> State -> Prop :=
| statesFail_nil s : statesFail item [] s s
| statesFail_cons crit rest s s1 s2 :
    checkState item crit crit s = (Ok false, s1) ->
    statesFail item rest s1 s2 ->
    statesFail item (crit :: rest) s s2.

(** [fieldsMatch item fields s s']: the declared fields of [fields],
    tested one after the other from the world [s], all match (or are
    skipped with a warning) and leave the world [s']. *)
Inductive fieldsMatch (item : Activity) : list (string * CritValue) -> State -> State -> Prop :=
| fieldsMatch_nil s : fieldsMatch item [] s s
| fieldsMatch_undeclared k v fields s s' :
    defined v = false ->
    fieldsMatch item fields s s' ->
    fieldsMatch item ((k, v) :: fields) s s'
| fieldsMatch_declared k v fields s s1 s2 :
    defined v = true ->
    switchField isItemValue item k v s = (Ok FieldDone, s1) ->
    fieldsMatch item fields s1 s2 ->
    fieldsMatch item ((k, v) :: fields) s s2.

(** *** The criteria as a formula

    Read off the [switch]: what a field asks of an activity when the
    answer does not need the submission of a comment. *)

(** The field [k] with value [v] matches [item], or is skipped. *)
Definition fieldMatches (item : Activity) (k : string) (v : CritValue) : bool :=
  if bool_decide (k = "submissionState") then true
  else if bool_decide (k = "removed") then
    negb (strictNotEqual (PBool (activityIsRemoved item)) v)
  else if bool_decide (k = "deleted") then
    negb (strictNotEqual (PBool (activityIsDeleted item)) v)
  else if bool_decide (k = "filtered") then
    negb (strictNotEqual (PBool (activityIsFiltered item)) v)
  else if bool_decide (k = "title") then
    isComment item ||
    match title item with
    | None => false
    | Some t =>
        match regexMatch (patternOf v) t with
        | Some true => true
        | _ => false
        end
    end
  else
    match props item !! k with
    | Some found => negb (strictNotEqual found v)
    | None => true
    end.

(** Every declared field of the state matches. *)
Definition stateMatches (item : Activity) (crit : ActivityState) : bool :=
  forallb (fun kv => negb (defined kv.2) || fieldMatches item kv.1 kv.2) crit.

(** The state can be checked on [item] alone: [item] is a submission, or
    no [submissionState] is declared. *)
Definition checkedAlone (item : Activity) (crit : ActivityState) : Prop :=
  isComment item = false \/
  Forall (fun kv => kv.1 <> "submissionState" \/ defined kv.2 = false) crit.

(** The world [s'] is [s] with more lines of log. *)
Definition onlyLogged (s s' : State) : Prop :=
  this s' = this s /\ store s' = store s /\ fetched s' = fetched s /\ now s' = now s /\
  exists lines, log s' = log s ++ lines.

(** *** Vocabulary for the further properties *)

(** The category [getActivity] counts an item in, if any: the two tests
    of its [if ... else if]. *)
Definition activityCategory (r : SubredditResources) (item : Activity) : option Category :=
  if enabled (submissionTTL r) && asSubmission item then Some CatSubmission
  else if enabled (commentTTL r) then Some CatComment
  else None.

(** The key, the line of a hit and the ttl of an activity in its
    category. *)
Definition activityKey (cat : Category) (item : Activity) : string :=
  match cat with
  | CatSubmission => "sub-" +:+ name item
  | _ => "comm-" +:+ name item
  end.

Definition activityHit (cat : Category) (item : Activity) : LogEntry :=
  match cat with
  | CatSubmission => DebugCacheHitSubmission (name item)
  | _ => DebugCacheHitComment (name item)
  end.

Definition activityTTL (cat : Category) (r : SubredditResources) : TTL :=
  match cat with
  | CatSubmission => submissionTTL r
  | _ => commentTTL r
  end.

(** The key of an item check. *)
Definition itemCritHash (item : Activity) (states : CritValue) : string :=
  "itemCrit-" +:+ name item +:+ "-" +:+ objectHash states.

(** The test that opens [testItemCriteria]: a comment checked for the
    state of its submission and for nothing else. *)
Definition substituted (i : Activity) (s : TypedActivityStates) : bool :=
  isComment i &&
  match s with
  | [[(k, submissionState)]] => bool_decide (k = "submissionState") && defined submissionState
  | _ => false
  end.

End Methods.

(** The counters of a category. *)
Definition categoryOf (cat : Category) (st : ResourceStats) : CategoryStats :=
  match cat with
  | CatSubmission => submission st
  | CatComment => comment st
  | CatItemCrit => itemCrit st
  end.

(** A category whose counters agree: no more misses than requests, one
    timestamp per request. *)
Definition consistent (c : CategoryStats) : Prop :=
  miss c <= requests c /\ length (requestTimestamps c) = requests c.

(** From [c] to [c'] some requests were counted, each with its timestamp,
    and no more misses than requests. *)
Definition countsMore (c c' : CategoryStats) : Prop :=
  exists dr dm,
    requests c' = requests c + dr /\ miss c' = miss c + dm /\ dm <= dr /\
    length (requestTimestamps c') = length (requestTimestamps c) + dr.

(** A resource apart from the counters of the three categories above. *)
Definition outsideCounters (r : SubredditResources) : SubredditResources :=
  withStats
    (fun st =>
       {| author := author st; authorCrit := authorCrit st; itemCrit := emptyCategory;
          content := content st; userNotes := userNotes st; submission := emptyCategory;
          comment := emptyCategory; commentCheck := commentCheck st |}) r.

(** A key of an item check. *)
Definition itemCritKey (k : string) : Prop := exists rest, k = "itemCrit-" +:+ rest.

(** [extends s s']: from [s] to [s'] the settings of the resource, the
    other categories and the clock are the same; lines were added to the
    log and fetches to the list of fetches; no entry of the store was
    removed, and none was replaced except under the key of an item
    check. *)
Definition extends (s s' : State) : Prop :=
  outsideCounters (this s') = outsideCounters (this s) /\
  now s' = now s /\
  log s `prefix_of` log s' /\
  fetched s `prefix_of` fetched s' /\
  (forall k, is_Some (store s !! k) -> is_Some (store s' !! k)) /\
  (forall k entry, store s !! k = Some entry -> ~ itemCritKey k -> store s' !! k = Some entry).

(** [advances s s']: [s'] extends [s] and counted more in every
    category. *)
Definition advances (s s' : State) : Prop :=
  extends s s' /\
  forall cat, countsMore (categoryOf cat (stats (this s))) (categoryOf cat (stats (this s'))).

(** A method every call of which advances the world. *)
Definition steady {A} (m : M A) : Prop := forall s, advances s (m s).2.

(** The check of a value is steady, and so is the check of the value of
    its only field, if it has that shape. *)
Definition steadyValue `{Platform} (v : CritValue) : Prop :=
  (forall item, steady (isItemValue v item)) /\
  (forall k w item, v = CList [[(k, w)]] -> steady (isItemValue w item)).

(** The world in which [getActivity] goes to the source: after the
    request was counted, if the item has a category. *)
Definition atSource `{Platform} (item : Activity) (s : State) : State :=
  match activityCategory (this s) item with
  | Some cat => counted cat (activityKey cat item) s
  | None => s
  end.

(** *** A sample platform and world *)

(** A platform whose fetch completes the proxy with a title, and whose
    regular expressions are literal strings, except the pattern of one
    opening parenthesis, which does not compile. *)
#[global] Instance samplePlatform : Platform := {|
  asSubmission := fun item => bool_decide (kind item = Submission);
  fetch := fun item =>
    Ok {| kind := kind item; name := name item; title := Some "fetched";
          link_id := link_id item; props := props item |};
  getSubmission := fun id =>
    {| kind := Submission; name := id; title := None; link_id := ""; props := ∅ |};
  activityIsRemoved := fun _ => false;
  activityIsDeleted := fun _ => false;
  activityIsFiltered := fun _ => false;
  regexMatch := fun pattern t =>
    if bool_decide (pattern = "(") then None else Some (bool_decide (pattern = t));
  jsToString := fun _ => "";
  objectHash := fun _ => "h"
|}.

Definition sampleSubmission : Activity :=
  {| kind := Submission; name := "t3_abc"; title := Some "Hello";
     link_id := ""; props := {[ "locked" := PBool false ]} |}.

Definition sampleComment : Activity :=
  {| kind := Comment; name := "t1_xyz"; title := None;
     link_id := "t3_abc"; props := ∅ |}.

(** A resource whose submissions are not to be cached and whose comments
    are, for a minute. *)
Definition submissionsOff : SubredditResources :=
  {| res_name := "sub"; cacheSettingsHash := "default"; cache := 0;
     cacheType := "memory"; prefix := None;
     authorTTL := TTLSeconds 60; wikiTTL := TTLSeconds 300;
     submissionTTL := TTLFalse; commentTTL := TTLSeconds 60;
     filterCriteriaTTL := TTLSeconds 60;
     footer := FooterFalse; stats := cacheStats |}.

Definition emptyWorld (r : SubredditResources) : State :=
  {| this := r; store := ∅; log := []; fetched := []; now := 0 |}.

(** The sample submission as the sample platform fetches it. *)
Definition fetchedSubmission : Activity :=
  {| kind := Submission; name := "t3_abc"; title := Some "fetched";
     link_id := ""; props := {[ "locked" := PBool false ]} |}.

(** A state that asks for [locked] to be [b]. *)
Definition lockedIs (b : bool) : ActivityState := [("locked", CBool b)].

(** The sample comment as the sample platform fetches it. *)
Definition fetchedComment : Activity :=
  {| kind := Comment; name := "t1_xyz"; title := Some "fetched";
     link_id := "t3_abc"; props := ∅ |}.

(** A second comment of the sample submission. *)
Definition otherComment : Activity :=
  {| kind := Comment; name := "t1_uvw"; title := None;
     link_id := "t3_abc"; props := ∅ |}.

(** A state of a comment that asks for its submission not to be
    locked. *)
Definition submissionUnlocked : ActivityState :=
  [("submissionState", CList [lockedIs false])].

(** The sample platform with the API down. *)
Definition downPlatform : Platform := {|
  asSubmission := fun item => bool_decide (kind item = Submission);
  fetch := fun _ => Err (Rejected "503");
  getSubmission := fun id =>
    {| kind := Submission; name := id; title := None; link_id := ""; props := ∅ |};
  activityIsRemoved := fun _ => false;
  activityIsDeleted := fun _ => false;
  activityIsFiltered := fun _ => false;
  regexMatch := fun pattern t => Some (bool_decide (pattern = t));
  jsToString := fun _ => "";
  objectHash := fun _ => "h"
|}.

End Resources.

(** ** Subreddit/SubredditResources: [BotResourcesManager] *)
Module Manager.
Import Resources.

(** [DEFAULT_FOOTER]. *)
Definition DEFAULT_FOOTER : string :=
  "\r\n*****\r\nThis action was performed by [a bot.]({{botLink}}) Mention a moderator or [send a modmail]({{modmailLink}}) if you any ideas, questions, or concerns about this action.".

(** [s.replace(pattern, replacement)] with a string pattern: the first
    occurrence only. *)
Fixpoint replaceFirst (pattern replacement s : string) : string :=
  if String.prefix pattern s then
    replacement +:+ String.substring (String.length pattern)
                      (String.length s - String.length pattern) s
  else
    match s with
    | EmptyString => EmptyString
    | String c s' => String c (replaceFirst pattern replacement s')
    end.

(** A ttl as the configuration writes it: a number or a boolean. *)
Inductive TTLValue : Type := TTLBool (b : bool) | TTLNumber (n : Z).

(** [ttl === true ? 0 : ttl] of the constructor of [SubredditResources]. *)
Definition toTTL (v : TTLValue) : TTL :=
  match v with
  | TTLBool true => TTLSeconds 0
  | TTLBool false => TTLFalse
  | TTLNumber n => TTLSeconds n
  end.

(** [Required<TTLConfig>]. *)
Record TTLConfig : Type := {
  cfg_authorTTL : TTLValue;
  cfg_userNotesTTL : TTLValue;
  cfg_wikiTTL : TTLValue;
  cfg_commentTTL : TTLValue;
  cfg_submissionTTL : TTLValue;
  cfg_filterCriteriaTTL : TTLValue
}.

(** The ttls a subreddit sets itself; [None] is a key that is absent. *)
Record TTLOverrides : Type := {
  own_authorTTL : option TTLValue;
  own_userNotesTTL : option TTLValue;
  own_wikiTTL : option TTLValue;
  own_commentTTL : option TTLValue;
  own_submissionTTL : option TTLValue;
  own_filterCriteriaTTL : option TTLValue
}.

(** [{...this.ttlDefaults, ...rest}]. *)
Definition mergeTTL (defaults : TTLConfig) (rest : TTLOverrides) : TTLConfig :=
  {| cfg_authorTTL := default (cfg_authorTTL defaults) (own_authorTTL rest);
     cfg_userNotesTTL := default (cfg_userNotesTTL defaults) (own_userNotesTTL rest);
     cfg_wikiTTL := default (cfg_wikiTTL defaults) (own_wikiTTL rest);
     cfg_commentTTL := default (cfg_commentTTL defaults) (own_commentTTL rest);
     cfg_submissionTTL := default (cfg_submissionTTL defaults) (own_submissionTTL rest);
     cfg_filterCriteriaTTL :=
       default (cfg_filterCriteriaTTL defaults) (own_filterCriteriaTTL rest) |}.

Section SetResources.
(** The options of a store other than its kind and its prefix. *)
Context {StoreOptions : Type}.

(** [CacheOptions]. *)
Record CacheOptions : Type := {
  opt_store : string;
  opt_prefix : option string;
  opt_rest : StoreOptions
}.

(** A provider as a subreddit may write it: the name of a store, or
    options. *)
Inductive Provider : Type :=
| ProviderName (store : string)
| ProviderOptions (options : CacheOptions).

(** [CacheConfig]: the [caching] section of a subreddit. *)
Record CacheConfig : Type := {
  provider : option Provider;
  own_ttl : TTLOverrides
}.

(** [SubredditResourceConfig], without the subreddit, logger and client
    it carries along. *)
Record SubredditResourceConfig : Type := {
  caching : option CacheConfig;
  init_footer : option Footer
}.

(** [SubredditResourceOptions]: what the constructor is given. *)
Record SubredditResourceOptions : Type := {
  o_ttl : TTLConfig;
  o_cache : nat;
  o_cacheType : string;
  o_cacheSettingsHash : string;
  o_prefix : option string;
  o_footer : option Footer
}.

(** The helpers of [util] that [set] calls and that are not among the
    sources, and [objectHash.sha1] on the settings of a cache.
    [buildCacheOptionsFromProvider] is taken to return a new object. *)
Class Helpers : Type := {
  buildCacheOptionsFromProvider : Provider -> CacheOptions;
  buildCachePrefix : list (option string) -> string;
  hashCacheConfig : CacheOptions -> TTLConfig -> string
}.
Context `{Helpers}.

(** The fields of the manager that [set] reads and writes. *)
Record BotResourcesManager : Type := {
  resources : gmap string SubredditResources;
  defaultCache : nat;
  defaultProvider : CacheOptions;
  mgr_cacheType : string;
  cacheHash : string;
  ttlDefaults : TTLConfig
}.

(** The manager and the backing stores that exist; a [Cache] object is
    a reference into the list, shared by whoever holds it. *)
Record World : Type := {
  manager : BotResourcesManager;
  caches : list (gmap string CacheEntry)
}.

(** Modelled from the spec: [createCacheManager] of [util], which is not
    among the sources; it builds a fresh cache, that is a new backing
    store with no entries. *)
Definition createCacheManager (options : CacheOptions)
    (stores : list (gmap string CacheEntry))
    : nat * list (gmap string CacheEntry) :=
  (length stores, stores ++ [∅]).

(** [cache.reset()]: the store loses its entries. *)
Definition reset (ref : nat) (stores : list (gmap string CacheEntry))
    : list (gmap string CacheEntry) :=
  <[ref := ∅]> stores.

(** [new SubredditResources(subName, opts)].  The constructor does not
    read [footer] from its options; the field keeps its initial value.
    (The user notes and the prune timer it also creates are left out.) *)
Definition newSubredditResources (subName : string) (opts : SubredditResourceOptions)
    : SubredditResources :=
  {| res_name := subName;
     cacheSettingsHash := o_cacheSettingsHash opts;
     cache := o_cache opts;
     cacheType := o_cacheType opts;
     prefix := o_prefix opts;
     authorTTL := toTTL (cfg_authorTTL (o_ttl opts));
     wikiTTL := toTTL (cfg_wikiTTL (o_ttl opts));
     submissionTTL := toTTL (cfg_submissionTTL (o_ttl opts));
     commentTTL := toTTL (cfg_commentTTL (o_ttl opts));
     filterCriteriaTTL := toTTL (cfg_filterCriteriaTTL (o_ttl opts));
     footer := FooterText DEFAULT_FOOTER;
     stats := cacheStats |}.

(** [opts.footer || DEFAULT_FOOTER]. *)
Definition footerOrDefault (f : option Footer) : Footer :=
  match f with
  | Some (FooterText text) =>
      if bool_decide (text = "") then FooterText DEFAULT_FOOTER else FooterText text
  | _ => FooterText DEFAULT_FOOTER
  end.

(** The [else] branch of [set]: the non-cache settings of the resource
    at hand are refreshed and its statistics start again. *)
Definition refresh (opts : SubredditResourceOptions) (res : SubredditResources)
    : SubredditResources :=
  {| res_name := res_name res;
     cacheSettingsHash := cacheSettingsHash res;
     cache := cache res;
     cacheType := cacheType res;
     prefix := prefix res;
     authorTTL := authorTTL res;
     wikiTTL := wikiTTL res;
     submissionTTL := submissionTTL res;
     commentTTL := commentTTL res;
     filterCriteriaTTL := filterCriteriaTTL res;
     footer := if bool_decide (o_footer opts = Some (footer res)) then footer res
               else footerOrDefault (o_footer opts);
     stats := cacheStats |}.

(** The private prefix of a subreddit: derived from the shared prefix and
    the name of the subreddit when the provider has the shared prefix,
    and the provider's own prefix otherwise. *)
Definition subPrefixOf (m : BotResourcesManager) (subName : string)
    (trueProvider : CacheOptions) : option string :=
  let defaultPrefix := opt_prefix trueProvider in
  if bool_decide (defaultPrefix = opt_prefix (defaultProvider m)) then
    Some (buildCachePrefix [replaceFirst "SHARED" "" <$> defaultPrefix; Some subName])
  else opt_prefix trueProvider.

(** The first half of [set]: the local [hash] and [opts], and the stores
    after [createCacheManager] if it was called. *)
Definition prepare (subName : string) (initOptions : SubredditResourceConfig) (w : World)
    : string * SubredditResourceOptions * list (gmap string CacheEntry) :=
  let m := manager w in
  let hash := "default" in
  let opts :=
    {| o_ttl := ttlDefaults m;
       o_cache := defaultCache m;
       o_cacheType := mgr_cacheType m;
       o_cacheSettingsHash := hash;
       o_prefix := opt_prefix (defaultProvider m);
       o_footer := init_footer initOptions |} in
  match caching initOptions with
  | None => (hash, opts, caches w)
  | Some cfg =>
      let provider := default (ProviderOptions (defaultProvider m)) (provider cfg) in
      let cacheProvider := buildCacheOptionsFromProvider provider in
      let cacheTtl := mergeTTL (ttlDefaults m) (own_ttl cfg) in
      let hash := hashCacheConfig cacheProvider cacheTtl in
      if negb (bool_decide (hash = cacheHash m)) then
        let subPrefix := subPrefixOf m subName cacheProvider in
        let trueProvider :=
          {| opt_store := opt_store cacheProvider;
             opt_prefix := subPrefix;
             opt_rest := opt_rest cacheProvider |} in
        let '(ref, stores) := createCacheManager trueProvider (caches w) in
        (hash,
         {| o_ttl := cacheTtl;
            o_cache := ref;
            o_cacheType := opt_store trueProvider;
            o_cacheSettingsHash := hash;
            o_prefix := subPrefix;
            o_footer := init_footer initOptions |},
         stores)
      else (hash, opts, caches w)
  end.

Definition withResource (subName : string) (r : SubredditResources)
    (m : BotResourcesManager) : BotResourcesManager :=
  {| resources := <[subName := r]> (resources m);
     defaultCache := defaultCache m;
     defaultProvider := defaultProvider m;
     mgr_cacheType := mgr_cacheType m;
     cacheHash := cacheHash m;
     ttlDefaults := ttlDefaults m |}.

(** [get(subName)]. *)
Definition get (subName : string) (w : World) : option SubredditResources :=
  resources (manager w) !! subName.

(** [set(subName, initOptions)]. *)
Definition set (subName : string) (initOptions : SubredditResourceConfig) (w : World)
    : SubredditResources * World :=
  let '(hash, opts, stores) := prepare subName initOptions w in
  match get subName w with
  | Some res =>
      if negb (bool_decide (cacheSettingsHash res = hash)) then
        let stores := reset (cache res) stores in
        let resource := newSubredditResources subName opts in
        (resource, {| manager := withResource subName resource (manager w);
                      caches := stores |})
      else
        let resource := refresh opts res in
        (resource, {| manager := withResource subName resource (manager w);
                      caches := stores |})
  | None =>
      let resource := newSubredditResources subName opts in
      (resource, {| manager := withResource subName resource (manager w);
                    caches := stores |})
  end.

(** *** Vocabulary for the properties *)

(** The hash [set] compares with the one of the resource at hand. *)
Definition settingsHash (subName : string) (initOptions : SubredditResourceConfig)
    (w : World) : string :=
  (prepare subName initOptions w).1.1.

(** The cache settings a subreddit asks for, if it has a [caching]
    section: the provider and the ttls that [set] hashes. *)
Definition requested (initOptions : SubredditResourceConfig) (w : World)
    : option (CacheOptions * TTLConfig) :=
  match caching initOptions with
  | None => None
  | Some cfg =>
      Some (buildCacheOptionsFromProvider
              (default (ProviderOptions (defaultProvider (manager w))) (provider cfg)),
            mergeTTL (ttlDefaults (manager w)) (own_ttl cfg))
  end.

(** [set] builds a cache for the subreddit: it asks for the settings
    [(p, t)] and their hash is not the shared one. *)
Definition ownsCache (initOptions : SubredditResourceConfig) (w : World)
    (p : CacheOptions) (t : TTLConfig) : Prop :=
  requested initOptions w = Some (p, t) /\
  hashCacheConfig p t <> cacheHash (manager w).

(** [set] hands the subreddit the shared cache: no [caching] section, or
    one whose hash is the shared one. *)
Definition sharesCache (initOptions : SubredditResourceConfig) (w : World) : Prop :=
  match requested initOptions w with
  | None => True
  | Some (p, t) => hashCacheConfig p t = cacheHash (manager w)
  end.

(** The cache-related settings of two resources agree. *)
Definition sameCacheSettings (r1 r2 : SubredditResources) : Prop :=
  cache r1 = cache r2 /\ cacheSettingsHash r1 = cacheSettingsHash r2 /\
  cacheType r1 = cacheType r2 /\ prefix r1 = prefix r2 /\
  authorTTL r1 = authorTTL r2 /\ wikiTTL r1 = wikiTTL r2 /\
  submissionTTL r1 = submissionTTL r2 /\ commentTTL r1 = commentTTL r2 /\
  filterCriteriaTTL r1 = filterCriteriaTTL r2.

(** [set] calls [createCacheManager]: the subreddit has a [caching]
    section whose hash is not the shared one. *)
Definition createsStore (initOptions : SubredditResourceConfig) (w : World) : bool :=
  match requested initOptions w with
  | None => false
  | Some (p, t) => negb (bool_decide (hashCacheConfig p t = cacheHash (manager w)))
  end.

(** The references of the manager point to stores that exist: the shared
    one and the one of every resource. *)
Definition wellFormed (w : World) : Prop :=
  defaultCache (manager w) < length (caches w) /\
  forall sub res, resources (manager w) !! sub = Some res ->
                  cache res < length (caches w).

(** The store [ref] is held by nobody: it is not the shared one and no
    resource has it. *)
Definition unreferenced (ref : nat) (w : World) : Prop :=
  defaultCache (manager w) <> ref /\
  forall sub res, resources (manager w) !! sub = Some res -> cache res <> ref.

End SetResources.
Arguments CacheOptions : clear implicits.
Arguments Provider : clear implicits.
Arguments CacheConfig : clear implicits.
Arguments SubredditResourceConfig : clear implicits.
Arguments Helpers : clear implicits.
Arguments BotResourcesManager : clear implicits.
Arguments World : clear implicits.

(** *** A sample manager *)

(** Helpers that keep options as they are, join the parts of a prefix,
    and hash the settings to the name of the store and a mark for
    submissions being cached or not. *)
#[global] Instance sampleHelpers : Helpers unit := {|
  buildCacheOptionsFromProvider := fun p =>
    match p with
    | ProviderName store => {| opt_store := store; opt_prefix := None; opt_rest := tt |}
    | ProviderOptions o => o
    end;
  buildCachePrefix := fun parts => String.concat ":" (omap id parts);
  hashCacheConfig := fun o t =>
    opt_store o +:+ (match cfg_submissionTTL t with
                     | TTLBool false => "-nosub"
                     | _ => "-sub"
                     end)
|}.

Definition sampleTTL : TTLConfig :=
  {| cfg_authorTTL := TTLNumber 60; cfg_userNotesTTL := TTLNumber 300;
     cfg_wikiTTL := TTLNumber 300; cfg_commentTTL := TTLNumber 60;
     cfg_submissionTTL := TTLNumber 60; cfg_filterCriteriaTTL := TTLNumber 60 |}.

Definition noOverrides : TTLOverrides :=
  {| own_authorTTL := None; own_userNotesTTL := None; own_wikiTTL := None;
     own_commentTTL := None; own_submissionTTL := None; own_filterCriteriaTTL := None |}.

Definition sampleEntry : CacheEntry :=
  {| value := VBool true; ttl := 60 |}.

(** A manager without resources whose shared store, number 0, holds one
    entry. *)
Definition sampleWorld : World unit :=
  {| manager :=
       {| resources := ∅;
          defaultCache := 0;
          defaultProvider :=
            {| opt_store := "memory"; opt_prefix := Some "bot:SHARED"; opt_rest := tt |};
          mgr_cacheType := "memory";
          cacheHash := "shared";
          ttlDefaults := sampleTTL |};
     caches := [ {[ "itemCrit-t3_abc-h" := sampleEntry ]} ] |}.

(** A subreddit that turns the caching of submissions off, and one
    without a [caching] section. *)
Definition ownSettings : SubredditResourceConfig unit :=
  {| caching := Some {| provider := None;
                        own_ttl := {| own_authorTTL := None; own_userNotesTTL := None;
                                      own_wikiTTL := None; own_commentTTL := None;
                                      own_submissionTTL := Some (TTLBool false);
                                      own_filterCriteriaTTL := None |} |};
     init_footer := None |}.

Definition sharedSettings : SubredditResourceConfig unit :=
  {| caching := None; init_footer := None |}.

(** The sample manager after the subreddit [pics] asked for settings of
    its own. *)
Definition ownWorld : World unit := (set "pics" ownSettings sampleWorld).2.

End Manager.

(** ** Action/CommentAction: [CommentAction.process] *)

Module CommentAction.

Section Process.
(** The results of the rules, which [process] hands to the renderer. *)
Context {RuleResult : Type}.

Abbreviation Activity := Resources.Activity.
Abbreviation Thrown := Resources.Thrown.
Abbreviation Footer := Resources.Footer.

(** What an awaited call settles to. *)
Abbreviation Settled := (result Thrown).

(** The fields of a [CommentAction]; [thisDryRun] is the [dryRun] of the
    [Action] it extends. *)
Record CommentAction : Type := {
  content : string;
  lock : bool;
  sticky : bool;
  distinguish : bool;
  footer : option Footer;
  thisDryRun : bool
}.

(** [ActionProcessResult]. *)
Record ActionProcessResult : Type := {
  dryRun : bool;
  success : bool;
  result : option string
}.

(** What [process] asks Reddit to do. *)
Inductive Call : Type :=
| Reply (item : Activity) (text : string)
| Lock (item : Activity)
| Distinguish (reply : Activity) (sticky : bool).

(** What happens during [process], in order: a line of log or a call. *)
Inductive Event : Type :=
| VerboseContents (text : string)
| WarnArchived
| Called (call : Call).

(** What [process] calls outside this file: [getContent] and
    [generateFooter] of the resources, [renderContent] of
    [Utils/SnoowrapUtils], the flag [archived] of the item, and the three
    calls of the API client. *)
Class Reddit : Type := {
  getContent : string -> Activity -> Settled string;
  renderContent : string -> Activity -> list RuleResult -> Settled string;
  generateFooter : Activity -> option Footer -> Settled string;
  archived : Activity -> bool;
  replyTo : Activity -> string -> Settled Activity;
  lockItem : Activity -> Settled unit;
  distinguishReply : Activity -> bool -> Settled unit
}.
Context `{Reddit}.

(** An asynchronous step: it adds to what happened and resolves or
    rejects. *)
Definition Act (A : Type) : Type := list Event -> Settled A * list Event.

Definition act_ret {A} (a : A) : Act A := fun t => (Ok a, t).

Definition act_bind {A B} (k : A -> Act B) (m : Act A) : Act B :=
  fun t =>
    match m t with
    | (Ok a, t') => k a t'
    | (Err e, t') => (Err e, t')
    end.

#[global] Instance Act_ret : MRet Act := @act_ret.
#[global] Instance Act_bind : MBind Act := @act_bind.

(** [await] of an outside call that leaves no trace here. *)
Definition await {A} (r : Settled A) : Act A := fun t => (r, t).

(** [await] of a call of the API client. *)
Definition call {A} (c : Call) (r : Settled A) : Act A :=
  fun t => (r, t ++ [Called c]).

Definition logLine (e : Event) : Act unit := fun t => (Ok tt, t ++ [e]).

(** [runtimeDryrun || this.dryRun]; the argument may be absent. *)
Definition orDryRun (runtimeDryrun : option bool) (this_dryRun : bool) : bool :=
  match runtimeDryrun with
  | Some true => true
  | _ => this_dryRun
  end.

(** The text of the line [Contents: ...]. *)
Definition contentsLine (renderedContent : string) : string :=
  "Contents:" +:+ String "013" (String "010"
    (if Nat.ltb 100 (String.length renderedContent)
     then String "013" (String "010" renderedContent)
     else renderedContent)).

(** [process(item, ruleResults, runtimeDryrun)].  The variable [reply]
    is assigned only when the reply was made. *)
Definition process (this : CommentAction) (item : Activity) (ruleResults : list RuleResult)
    (runtimeDryrun : option bool) : Act ActionProcessResult :=
  let dryRun := orDryRun runtimeDryrun (thisDryRun this) in
  content ← await (getContent (content this) item);
  body ← await (renderContent content item ruleResults);
  footer ← await (generateFooter item (footer this));
  let renderedContent := body +:+ footer in
  logLine (VerboseContents (contentsLine renderedContent));;
  if archived item then
    logLine WarnArchived;;
    mret {| dryRun := dryRun; success := false;
            result := Some "Cannot comment because Item is archived" |}
  else
    reply ← (if negb dryRun
             then r ← call (Reply item renderedContent) (replyTo item renderedContent);
                  mret (Some r)
             else mret None);
    (if lock this
     then if negb dryRun then call (Lock item) (lockItem item) else mret tt
     else mret tt);;
    (if distinguish this && negb dryRun
     then match reply with
          | Some r => call (Distinguish r (sticky this)) (distinguishReply r (sticky this))
          | None => await (Err Resources.TypeError)
          end
     else mret tt);;
    mret {| dryRun := dryRun; success := true; result := None |}.

(** *** Vocabulary for the properties *)

(** The calls among what happened. *)
Definition callsOf (t : list Event) : list Call :=
  omap (fun e => match e with Called c => Some c | _ => None end) t.

(** The text [process] renders, if rendering succeeds. *)
Definition rendered (this : CommentAction) (item : Activity) (ruleResults : list RuleResult)
    : Settled string :=
  match getContent (content this) item with
  | Err e => Err e
  | Ok content =>
      match renderContent content item ruleResults with
      | Err e => Err e
      | Ok body =>
          match generateFooter item (footer this) with
          | Err e => Err e
          | Ok footer => Ok (body +:+ footer)
          end
      end
  end.

(** The calls of a run that is not dry, on an item that is not archived,
    when none rejects: the reply, the lock of the item if [lock] is set,
    and the distinction of the reply if [distinguish] is set. *)
Definition plannedCalls (this : CommentAction) (item : Activity) (text : string)
    : list Call :=
  Reply item text ::
  (if lock this then [Lock item] else []) ++
  (if distinguish this
   then match replyTo item text with
        | Ok r => [Distinguish r (sticky this)]
        | Err _ => []
        end
   else []).

End Process.
Arguments CommentAction : clear implicits.
Arguments Reddit : clear implicits.

(** *** A sample client *)

(** A client on which everything works, and whose reply to an item is a
    comment named after it. *)
Definition sampleReddit : Reddit unit := {|
  getContent := fun content _ => Ok content;
  renderContent := fun content _ _ => Ok content;
  generateFooter := fun _ _ => Ok "";
  archived := fun item => bool_decide (Resources.name item = "t3_old");
  replyTo := fun item _ =>
    Ok {| Resources.kind := Resources.Comment;
          Resources.name := "t1_reply";
          Resources.title := None;
          Resources.link_id := Resources.name item;
          Resources.props := ∅ |};
  lockItem := fun _ => Ok tt;
  distinguishReply := fun _ _ => Ok tt
|}.

(** An action that comments, locks and distinguishes with a sticky. *)
Definition sampleComment : CommentAction :=
  {| content := "Please read the rules."; lock := true; sticky := true;
     distinguish := true; footer := None; thisDryRun := false |}.

End CommentAction.

(** ** Web/Common/util: [paginateRequest] *)

Module Pagination.
Local Open Scope Z_scope.

(** What [paginateRequest] reads of the request: the two values of the
    query string as [parseInt] reads them, [None] being [NaN]. *)
Record Request : Type := {
  query_per_page : option Z;
  query_page : option Z
}.

(** [parseInt(q) || d]: [NaN] and [0] give the default. *)
Definition orDefault (parsed : option Z) (d : Z) : Z :=
  match parsed with
  | Some n => if n =? 0 then d else n
  | None => d
  end.

Definition getPerPage (req : Request) (defaultPerPage : Z) : Z :=
  orDefault (query_per_page req) defaultPerPage.

Definition getPage (req : Request) (defaultPage : Z) : Z :=
  orDefault (query_page req) defaultPage.

(** [PaginationAwareObject]; [None] is [null], and for [last_page] a
    value that is not a finite number. *)
Record PaginationAwareObject (A : Type) : Type := {
  from : option Z;
  to : Z;
  per_page : Z;
  total : Z;
  current_page : Z;
  prev_page : option Z;
  next_page : option Z;
  last_page : option Z;
  data : list A
}.
Arguments from {A} _.
Arguments to {A} _.
Arguments per_page {A} _.
Arguments total {A} _.
Arguments current_page {A} _.
Arguments prev_page {A} _.
Arguments next_page {A} _.
Arguments last_page {A} _.
Arguments data {A} _.

(** [paginateRequest(builder, req, defaultPerPage, maxPerPage)], where
    [getManyAndCount skip take] is what the builder answers to
    [skip(skip).take(take).getManyAndCount()]: the rows and the count. *)
Definition paginateRequest {A} (getManyAndCount : Z -> Z -> list A * Z) (req : Request)
    (defaultPerPage maxPerPage : Z) : PaginationAwareObject A :=
  let per_page := Z.min (getPerPage req defaultPerPage) maxPerPage in
  let page := getPage req 1 in
  let skip := (page - 1) * per_page in
  let '(res, count) := getManyAndCount skip per_page in
  let last_page :=
    if per_page =? 0 then None
    else
      let calcule_last_page := Z.rem count per_page in
      Some (if calcule_last_page =? 0 then Z.quot count per_page
            else Z.quot count per_page + 1) in
  {| from := if skip <=? count then Some (skip + 1) else None;
     to := if count >? skip + per_page then skip + per_page else count;
     per_page := per_page;
     total := count;
     current_page := page;
     prev_page := if page >? 1 then Some (page - 1) else None;
     next_page := if count >? skip + per_page then Some (page + 1) else None;
     last_page := last_page;
     data := res |}.

(** A table of [n] rows, numbered from 0, as a builder. *)
Definition sampleTable (n : nat) : Z -> Z -> list Z * Z :=
  fun skip take =>
    (List.firstn (Z.to_nat take) (List.skipn (Z.to_nat skip) (Z.of_nat <$> seq 0 n)),
     Z.of_nat n).

End Pagination.

(** ** util: [groupBy] *)

Module Util.

Section GroupBy.
Context {T : Type} `{ConfigBuilder.Casing}.
(** [obj[key]] as [Array.prototype.join] writes it. *)
Variable read : string -> T -> string.
(** The names that every object inherits from [Object.prototype]: under
    such a name a new object already answers with a value, which is
    truthy and is not an array. *)
Variable inherited : string -> bool.

(** What [groupBy] throws: [concat] is not a function. *)
Inductive GroupError : Type := ConcatIsNotAFunction.

(** [keys.map((key) => obj[key]).join('-')], lower-cased if asked. *)
Definition groupValue (keys : list string) (lowercase : bool) (obj : T) : string :=
  let value := String.concat "-" ((fun key => read key obj) <$> keys) in
  if lowercase then ConfigBuilder.toLowerCase value else value.

(** The callback of [reduce]. *)
Definition groupStep (keys : list string) (lowercase : bool)
    (objectsByKeyValue : gmap string (list T)) (obj : T)
    : result GroupError (gmap string (list T)) :=
  let value := groupValue keys lowercase obj in
  match objectsByKeyValue !! value with
  | Some group => Ok (<[value := group ++ [obj]]> objectsByKeyValue)
  | None =>
      if inherited value then Err ConcatIsNotAFunction
      else Ok (<[value := [] ++ [obj]]> objectsByKeyValue)
  end.

(** [array.reduce(callback, initial)]. *)
Fixpoint reduce (keys : list string) (lowercase : bool)
    (objectsByKeyValue : gmap string (list T)) (array : list T)
    : result GroupError (gmap string (list T)) :=
  match array with
  | [] => Ok objectsByKeyValue
  | obj :: rest =>
      match groupStep keys lowercase objectsByKeyValue obj with
      | Ok next => reduce keys lowercase next rest
      | Err e => Err e
      end
  end.

(** [groupBy(keys, opts)(array)]; [lowercase] may be absent. *)
Definition groupBy (keys : list string) (lowercase : option bool) (array : list T)
    : result GroupError (gmap string (list T)) :=
  reduce keys (default false lowercase) ∅ array.

(** A group that was there, with the objects that join it. *)
Definition joined (group : option (list T)) (more : list T) : option (list T) :=
  match group, more with
  | None, [] => None
  | _, _ => Some (default [] group ++ more)
  end.

End GroupBy.

(** Pairs grouped by their first component; no name is inherited but
    [constructor]. *)
Definition firstOf (key : string) (obj : string * nat) : string :=
  if bool_decide (key = "author") then obj.1 else "".

Definition onlyConstructor (value : string) : bool := bool_decide (value = "constructor").

End Util.

(* ================================================================== *)
(** * Part II: the properties                                          *)
(* ================================================================== *)

Module RuleSetSpec.
Import RuleSet.
Section Facts.
Context {Item RuleResult Thrown : Type}.
Abbreviation Rule := (Rule Item RuleResult Thrown).
Abbreviation Slot := (@Slot RuleResult).

Implicit Types (r : Rule) (rs pre post : list Rule) (item : Item)
  (existing results acc : list Slot) (outs : list (option bool * Slot)).

Lemma evaluated_cons_inv item existing acc r rs outs :
  evaluated item existing acc (r :: rs) outs ->
  exists passed out outs',
    outs = (passed, first_result out) :: outs' /\
    rule_run r item (existing ++ acc) = Ok (passed, out) /\
    evaluated item existing (acc ++ [first_result out]) rs outs'.
Proof. inversion 1; subst; eauto 10. Qed.

(** Children that do not stop the loop leave it with a longer trail and,
    if one of them was applicable, with [runOne] set. *)
Lemma run_loop_app cond item existing pre post acc outs runOne :
  evaluated item existing acc pre outs ->
  Forall (fun o => o.1 <> Some (stop_value cond)) outs ->
  run_loop cond item existing (pre ++ post) acc runOne =
  run_loop cond item existing post (acc ++ outs.*2)
    (runOne || bool_decide (applicable outs <> [])).
Proof.
  intros Hev. revert runOne.
  induction Hev as [acc|acc r rs passed out outs Hrun Hev IH]; intros runOne Hns.
  - cbn. by rewrite app_nil_r, orb_false_r.
  - apply Forall_cons in Hns as [Hp Hns]. cbn in Hp |- *.
    rewrite Hrun. rewrite <- app_assoc in IH. cbn in IH.
    destruct passed as [[]|], cond; cbn in Hp; try congruence;
      rewrite IH by done; cbn; f_equal; by rewrite ?orb_true_r.
Qed.


(** ** C1 *)

(** C1. Children are awaited in declared order, each seeing the results of
    its earlier siblings, and the loop returns at the first stopping child:
    when the children [pre] resolve without a stopping outcome (no
    applicable failure under AND, no applicable pass under OR) and the next
    child [r] resolves with the stopping outcome, [run] returns that
    outcome as its flag ([false] under AND, [true] under OR) together with
    exactly the results of [pre] and of [r], whatever follows [r]. *)
Theorem run_short_circuit cond item existing pre r post outs out :
  evaluated item existing [] pre outs ->
  Forall (fun o => o.1 <> Some (stop_value cond)) outs ->
  rule_run r item (existing ++ outs.*2) = Ok (Some (stop_value cond), out) ->
  run {| rules := pre ++ r :: post; condition := cond |} item existing =
  Ok (stop_value cond, outs.*2 ++ [first_result out]).
Proof.
  intros Hev Hns Hr. unfold run. cbn [rules condition].
  rewrite (run_loop_app _ _ _ _ _ _ _ _ Hev Hns). cbn.
  rewrite Hr. by destruct cond.
Qed.

(** ** C2 *)


End Facts.

(** *** Concrete runs *)

(** AND over [true, false, true]: the third child is not run. *)
Lemma run_short_circuit_witness :
  run {| rules := [constant (Some true) 1] ++ constant (Some false) 2 :: [constant (Some true) 3];
         condition := AND |} tt [] =
  Ok (false, [Some 1; Some 2]).
Proof.
  apply (run_short_circuit AND tt [] [constant (Some true) 1] (constant (Some false) 2)
           [constant (Some true) 3] [(Some true, Some 1)] [Some 2]).
  - apply (evaluated_cons tt [] [] (constant (Some true) 1) [] (Some true) [Some 1] []).
    + reflexivity.
    + apply evaluated_nil.
  - repeat constructor. cbn. discriminate.
  - reflexivity.
Defined.

(** OR over [false, true, false]: the third child is not run. *)
Example run_or_false_true_false :
  run {| rules := [constant (Some false) 1; constant (Some true) 2; constant (Some false) 3];
         condition := OR |} tt [] =
  Ok (true, [Some 1; Some 2]).
Proof. reflexivity. Qed.

(** When the loop runs to its end and some child was applicable, the
    statement after it returns [true]; under OR that is the case when
    every applicable child failed. *)
Example run_or_false_false :
  run {| rules := [constant (Some false) 1; constant (Some false) 2]; condition := OR |} tt [] =
  Ok (true, [Some 1; Some 2]).
Proof. reflexivity. Qed.

(** A rule that throws: had the loop gone past the stopping child, the
    run would have rejected. *)
Example run_and_stops_before_throwing_child :
  run {| rules := [constant (Some true) 1; constant (Some false) 2;
                   {| rule_run := fun _ _ => Err tt |}];
         condition := AND |} tt [] =
  Ok (false, [Some 1; Some 2]).
Proof. reflexivity. Qed.


End RuleSetSpec.

Module ConfigBuilderSpec.
Import ConfigBuilder.

(** Membership in [os ++ [o]]: in [os], or [o] itself. *)
Ltac snoc_cases H :=
  apply elem_of_app in H as [H|H];
  [|apply list_elem_of_singleton in H; subst].

Section Facts.
Context {Body CheckRest : Type} `{EqDecision Body} `{Casing}.
Abbreviation ObjectJson := (ObjectJson Body).
Abbreviation RuleJson := (RuleJson Body).
Abbreviation ActionJson := (ActionJson Body).
Abbreviation Registry := (Registry Body).
Abbreviation CheckJson := (CheckJson Body CheckRest).

Implicit Types (o a b : ObjectJson) (m named : Registry) (os toAdd : list ObjectJson)
  (k n : string) (normal : string -> string) (r : RuleJson) (rules : list RuleJson).

(** *** The [Map] *)

Lemma map_get_Some k m o : map_get k m = Some o -> (k, o) ∈ m.
Proof.
  induction m as [|[k' v] m IH]; cbn; [done|].
  case_decide; [intros [= ->]; subst; left | right; auto].
Qed.

Lemma map_get_None k m : map_get k m = None <-> k ∉ m.*1.
Proof.
  induction m as [|[k' v] m IH]; cbn.
  - split; [intros _; apply not_elem_of_nil | done].
  - rewrite not_elem_of_cons. case_decide; subst.
    + split; [done | by intros [? _]].
    + rewrite IH. split; [by split | by intros [_ ?]].
Qed.

Lemma map_get_NoDup k m o : NoDup m.*1 -> (k, o) ∈ m -> map_get k m = Some o.
Proof.
  induction m as [|[k' v] m IH]; cbn; [by intros _ ?%elem_of_nil|].
  intros [Hk Hnd]%NoDup_cons [[= -> ->]|Hin]%elem_of_cons.
  - by rewrite decide_True.
  - rewrite decide_False; [auto|]. intros ->. apply Hk.
    apply list_elem_of_fmap. by exists (k, o).
Qed.

Lemma map_set_absent k o m : map_get k m = None -> map_set k o m = m ++ [(k, o)].
Proof.
  induction m as [|[k' v] m IH]; cbn; [done|].
  case_decide; [done|]. intros ?. by rewrite IH.
Qed.

Lemma map_get_app_l k m m' o : map_get k m = Some o -> map_get k (m ++ m') = Some o.
Proof.
  induction m as [|[k' v] m IH]; cbn; [done|]. by case_decide.
Qed.

Lemma map_get_snoc k m o : map_get k m = None -> map_get k (m ++ [(k, o)]) = Some o.
Proof.
  induction m as [|[k' v] m IH]; cbn; [by rewrite decide_True|]. by case_decide.
Qed.

(** *** One registration *)

Lemma register_Ok conflict k o m m' :
  register conflict k o m = Ok m' ->
  (exists existing, map_get k m = Some existing /\
                    stripName existing = stripName o /\ m' = m) \/
  (map_get k m = None /\ m' = m ++ [(k, o)]).
Proof.
  unfold register, map_has, deepEqual.
  destruct (map_get k m) as [existing|] eqn:Hget.
  - rewrite bool_decide_eq_true_2 by eauto.
    case_bool_decide; cbn; [|done]. intros [= <-]. left. eauto.
  - rewrite bool_decide_eq_false_2 by (by intros [? ?]).
    intros [= <-]. right. by rewrite map_set_absent.
Qed.

Lemma register_Err conflict k o m e :
  register conflict k o m = Err e ->
  e = conflict /\
  exists existing, map_get k m = Some existing /\ stripName existing <> stripName o.
Proof.
  unfold register, map_has, deepEqual.
  destruct (map_get k m) as [existing|] eqn:Hget.
  - rewrite bool_decide_eq_true_2 by eauto.
    case_bool_decide; cbn; [done|]. intros [= <-]. eauto.
  - by rewrite bool_decide_eq_false_2 by (by intros [? ?]).
Qed.

(** *** Compatibility and registries *)

Lemma compatible_subseteq normal os os' :
  (forall o, o ∈ os' -> o ∈ os) -> compatible normal os -> compatible normal os'.
Proof. intros Hsub Hc a b k Ha Hb. apply Hc; auto. Qed.

Lemma registryOf_empty normal : registryOf normal ([] : list ObjectJson) [].
Proof.
  split; [split; constructor|]. split.
  - by intros k o' ?%elem_of_nil.
  - by intros o k ?%elem_of_nil.
Qed.

Lemma registryOf_values normal m : wellKeyed normal m -> registryOf normal (map_values m) m.
Proof.
  intros [Hnd Hk]. split; [done|]. split.
  - intros k o' Hin. apply list_elem_of_fmap. by exists (k, o').
  - intros o k [[k' o'] [-> Hin]]%list_elem_of_fmap Hkey. cbn in *.
    rewrite Forall_forall in Hk. specialize (Hk _ Hin). cbn in Hk.
    assert (k' = k) as -> by congruence.
    exists o'. split; [|done]. by apply map_get_NoDup.
Qed.

Lemma registryOf_key normal os m k o :
  registryOf normal os m -> map_get k m = Some o -> o ∈ os /\ keyOf normal o = Some k.
Proof.
  intros ([_ Hk] & Hfrom & _) Hin%map_get_Some. split; [eauto|].
  rewrite Forall_forall in Hk. apply (Hk _ Hin).
Qed.

Lemma register_step normal conflict os m o n m' :
  registryOf normal os m -> compatible normal os ->
  name o = Some n ->
  register conflict (normal n) o m = Ok m' ->
  registryOf normal (os ++ [o]) m' /\ compatible normal (os ++ [o]).
Proof.
  intros Hreg Hc Hn Hok.
  assert (keyOf normal o = Some (normal n)) as Hkey by (unfold keyOf; by rewrite Hn).
  destruct Hreg as ([Hnd Hk] & Hfrom & Hcov).
  apply register_Ok in Hok as [(ex & Hget & Hstrip & ->)|[Hget ->]].
  - split.
    + split; [done|]. split.
      * intros k o' Hin. apply elem_of_app. left. eauto.
      * intros a k Ha Hka. snoc_cases Ha; [eauto|].
        assert (k = normal n) as -> by congruence. eauto.
    + intros a b k Ha Hb Hka Hkb. snoc_cases Ha; snoc_cases Hb; [by eapply Hc|..|done].
      * assert (k = normal n) as -> by congruence.
        destruct (Hcov _ _ Ha Hka) as (o' & Hget' & <-). congruence.
      * assert (k = normal n) as -> by congruence.
        destruct (Hcov _ _ Hb Hkb) as (o' & Hget' & <-). congruence.
  - split.
    + split; [split|split].
      * rewrite fmap_app. apply NoDup_app. split; [done|]. split; [|apply NoDup_singleton].
        intros k Hin Hk'. apply list_elem_of_singleton in Hk'. subst.
        by apply map_get_None in Hget.
      * apply Forall_app. split; [done|]. by constructor.
      * intros k o' Hin. apply elem_of_app in Hin as [Hin|Heq%list_elem_of_singleton];
          apply elem_of_app.
        -- left. eauto.
        -- injection Heq as -> ->. right. by left.
      * intros a k Ha Hka. snoc_cases Ha.
        -- destruct (Hcov _ _ Ha Hka) as (o' & Hget' & Hs). exists o'.
           split; [by apply map_get_app_l|done].
        -- assert (k = normal n) as -> by congruence.
           eexists. split; [by apply map_get_snoc|done].
    + intros a b k Ha Hb Hka Hkb. snoc_cases Ha; snoc_cases Hb; [by eapply Hc|..|done].
      * assert (k = normal n) as -> by congruence.
        destruct (Hcov _ _ Ha Hka) as (o' & Hget' & _). congruence.
      * assert (k = normal n) as -> by congruence.
        destruct (Hcov _ _ Hb Hkb) as (o' & Hget' & _). congruence.
Qed.

(** *** The registration loop *)

Lemma registerAll_Ok normal conflict os toAdd m m' :
  registryOf normal os m -> compatible normal os ->
  registerAll normal conflict toAdd m = Ok m' ->
  registryOf normal (os ++ toAdd) m' /\ compatible normal (os ++ toAdd).
Proof.
  revert os m. induction toAdd as [|o toAdd IH]; intros os m Hreg Hc; cbn.
  - intros [= <-]. by rewrite app_nil_r.
  - destruct (name o) as [n|] eqn:Hn; [|done].
    destruct (register _ _ _ _) as [m1|e] eqn:Hr; [|done].
    intros Hok. destruct (register_step _ _ _ _ _ _ _ Hreg Hc Hn Hr) as [Hreg1 Hc1].
    specialize (IH _ _ Hreg1 Hc1 Hok). by rewrite <- app_assoc in IH.
Qed.

Lemma registerAll_total normal conflict os toAdd m :
  registryOf normal os m -> compatible normal (os ++ toAdd) ->
  Forall (fun o => is_Some (name o)) toAdd ->
  exists m', registerAll normal conflict toAdd m = Ok m'.
Proof.
  revert os m. induction toAdd as [|o toAdd IH]; intros os m Hreg Hc Hnamed; cbn.
  - eauto.
  - apply Forall_cons in Hnamed as [[n Hn] Hnamed]. rewrite Hn.
    assert (compatible normal (os ++ [o])) as Hc1.
    { eapply compatible_subseteq; [|exact Hc]. intros x. rewrite !elem_of_app.
      intros [?|Hx]; [by left|right]. apply list_elem_of_singleton in Hx. subst. by left. }
    assert (compatible normal os) as Hc0.
    { eapply compatible_subseteq; [|exact Hc1]. intros x ?. apply elem_of_app. by left. }
    destruct (register _ _ _ _) as [m1|e] eqn:Hr.
    + destruct (register_step _ _ _ _ _ _ _ Hreg Hc0 Hn Hr) as [Hreg1 _].
      apply (IH _ _ Hreg1); [|done]. by rewrite <- app_assoc.
    + exfalso. apply register_Err in Hr as (_ & ex & Hget & Hne). apply Hne.
      destruct (registryOf_key _ _ _ _ _ Hreg Hget) as [Hin Hkey].
      apply (Hc1 ex o (normal n)); [apply elem_of_app; by left| |done|].
      * apply elem_of_app. right. by left.
      * unfold keyOf. by rewrite Hn.
Qed.

Lemma registerAll_Err normal conflict os toAdd m e :
  registryOf normal os m -> compatible normal os ->
  Forall (fun o => is_Some (name o)) toAdd ->
  registerAll normal conflict toAdd m = Err e ->
  nameConflict normal conflict e toAdd (os ++ toAdd).
Proof.
  revert os m. induction toAdd as [|o toAdd IH]; intros os m Hreg Hc Hnamed; cbn; [done|].
  apply Forall_cons in Hnamed as [[n Hn] Hnamed]. rewrite Hn.
  destruct (register _ _ _ _) as [m1|e1] eqn:Hr.
  - intros Herr. destruct (register_step _ _ _ _ _ _ _ Hreg Hc Hn Hr) as [Hreg1 Hc1].
    destruct (IH _ _ Hreg1 Hc1 Hnamed Herr) as (o' & n' & o2 & Ho' & Hn' & -> & Ho2 & Hk2 & Hne).
    exists o', n', o2. rewrite <- app_assoc in Ho2. split_and!; [by right|done..].
  - intros [= <-]. apply register_Err in Hr as (-> & ex & Hget & Hne).
    destruct (registryOf_key _ _ _ _ _ Hreg Hget) as [Hin Hkey].
    exists o, n, ex. split_and!; [by left|done|done| |done|done].
    apply elem_of_app. by left.
Qed.

Lemma nameConflict_mono normal conflict e new all new' all' :
  (forall o, o ∈ new -> o ∈ new') -> (forall o, o ∈ all -> o ∈ all') ->
  nameConflict normal conflict e new all -> nameConflict normal conflict e new' all'.
Proof.
  intros Hn Ha (o & n & o2 & ? & ? & ? & ? & ? & ?). exists o, n, o2. split_and!; auto.
Qed.

(** *** Representatives *)

Lemma represents_refl normal os :
  Forall (fun o => is_Some (name o)) os -> represents normal os os.
Proof. intros Hn. split; [done|]. split; [done|]. intros o k ? ?. by exists o. Qed.

Lemma represents_registryOf normal os toAdd new m :
  represents normal toAdd new ->
  registryOf normal (os ++ toAdd) m -> registryOf normal (os ++ new) m.
Proof.
  intros (_ & Hsub & Hrep) (Hwk & Hfrom & Hcov). split; [done|]. split.
  - intros k o' Hin. specialize (Hfrom _ _ Hin).
    apply elem_of_app in Hfrom as [?|?]; apply elem_of_app; auto.
  - intros o k Ho Hk. apply elem_of_app in Ho as [Ho|Ho].
    + apply (Hcov o k); [|done]. apply elem_of_app. by left.
    + destruct (Hrep _ _ Ho Hk) as (o' & Ho' & Hk' & <-).
      apply (Hcov o' k); [|done]. apply elem_of_app. by right.
Qed.

Lemma represents_compatible normal os toAdd new :
  represents normal toAdd new -> compatible normal new ->
  compatible normal (os ++ toAdd) -> compatible normal (os ++ new).
Proof.
  intros (_ & Hsub & Hrep) Hnew Hc a b k Ha Hb Hka Hkb.
  apply elem_of_app in Ha as [Ha|Ha]; apply elem_of_app in Hb as [Hb|Hb].
  - apply (Hc a b k); [apply elem_of_app; by left..|done|done].
  - destruct (Hrep _ _ Hb Hkb) as (b' & Hb' & Hkb' & <-).
    apply (Hc a b' k); [apply elem_of_app; by left|apply elem_of_app; by right|done..].
  - destruct (Hrep _ _ Ha Hka) as (a' & Ha' & Hka' & <-).
    apply (Hc a' b k); [apply elem_of_app; by right|apply elem_of_app; by left|done..].
  - by apply (Hnew a b k).
Qed.

Lemma represents_compatible_rev normal os toAdd new :
  represents normal toAdd new ->
  compatible normal (os ++ new) -> compatible normal (os ++ toAdd).
Proof.
  intros (_ & Hsub & _). apply compatible_subseteq. intros o.
  rewrite !elem_of_app. intros [?|?]; auto.
Qed.

Lemma registry_values_represent normal os m :
  registryOf normal os m -> represents normal (map_values m) os.
Proof.
  intros Hreg. pose proof Hreg as ([Hnd Hk] & Hfrom & Hcov). split; [|split].
  - unfold map_values. apply Forall_fmap. eapply Forall_impl; [exact Hk|].
    intros [k o]. unfold keyOf. cbn. destruct (name o); [eauto|done].
  - intros o [[k o'] [-> Hin]]%list_elem_of_fmap. eauto.
  - intros o k Ho Hkey. destruct (Hcov _ _ Ho Hkey) as (o' & Hget & Hs).
    exists o'. split_and!; [|by eapply registryOf_key|done].
    apply list_elem_of_fmap. exists (k, o'). split; [done|]. by apply map_get_Some.
Qed.

(** *** Extraction of rules *)

Section Rules.
Variable normalizeName : string -> string.

Lemma RuleJson_nested_ind (P : RuleJson -> Prop) :
  (forall ref, P (RuleRef ref)) ->
  (forall rule, P (RuleObj rule)) ->
  (forall cond rules, Forall P rules -> P (RuleSetJ cond rules)) ->
  forall r, P r.
Proof.
  intros Href Hobj Hset. fix IH 1. intros [ref|rule|cond rules]; [done..|].
  apply Hset. induction rules as [|r rules IHrules]; constructor; [apply IH|done].
Qed.

Lemma rulesToAddOf_set cond rules :
  rulesToAddOf normalizeName (RuleSetJ cond rules) =
  match extractNamedRules normalizeName rules [] with
  | Err e => Err e
  | Ok nestedNamed => Ok (map_values nestedNamed)
  end.
Proof. reflexivity. Qed.

Local Abbreviation N := namedRulesIn.
Local Abbreviation compat := (compatible normalizeName).
Local Abbreviation conflictIn := (nameConflict normalizeName RuleNameConflict).

(** What [rulesToAddOf] does for one entry. *)
Local Abbreviation entrySpec r :=
  ((forall toAdd, rulesToAddOf normalizeName r = Ok toAdd ->
      represents normalizeName toAdd (namedRulesOf r) /\ compat (namedRulesOf r)) /\
   (compat (namedRulesOf r) -> exists toAdd, rulesToAddOf normalizeName r = Ok toAdd) /\
   (forall e, rulesToAddOf normalizeName r = Err e ->
      conflictIn e (namedRulesOf r) (namedRulesOf r))).

(** What [extractNamedRules] does for a list, from any registry. *)
Local Abbreviation listSpec rules :=
  (forall os m, registryOf normalizeName os m -> compat os ->
     (forall m', extractNamedRules normalizeName rules m = Ok m' ->
        registryOf normalizeName (os ++ N rules) m' /\ compat (os ++ N rules)) /\
     (compat (os ++ N rules) -> exists m', extractNamedRules normalizeName rules m = Ok m') /\
     (forall e, extractNamedRules normalizeName rules m = Err e ->
        conflictIn e (N rules) (os ++ N rules))).

Lemma extract_from_entries rules :
  Forall (fun r => entrySpec r) rules -> listSpec rules.
Proof.
  induction 1 as [|r rules (Hok & Htot & Herr) _ IH]; intros os m Hreg Hc.
  { cbn. rewrite app_nil_r. split_and!; [by intros m' [= <-]|eauto|done]. }
  unfold N in *. cbn [flat_map extractNamedRules]. split_and!.
  - intros m'. destruct (rulesToAddOf _ r) as [toAdd|e] eqn:Hr; [|done].
    destruct (Hok _ eq_refl) as [Hrep Hcr].
    unfold addRules. destruct (registerAll _ _ toAdd m) as [m1|e] eqn:Ha; [|done].
    intros Hrest. destruct (registerAll_Ok _ _ _ _ _ _ Hreg Hc Ha) as [Hreg1 Hc1].
    apply (represents_registryOf _ _ _ _ _ Hrep) in Hreg1.
    apply (represents_compatible _ _ _ _ Hrep Hcr) in Hc1.
    destruct (IH _ _ Hreg1 Hc1) as (IHok & _ & _).
    rewrite app_assoc. by apply IHok.
  - intros Hall. rewrite app_assoc in Hall.
    assert (compat (os ++ namedRulesOf r)) as Hc1.
    { eapply compatible_subseteq; [|exact Hall]. intros o ?. apply elem_of_app. by left. }
    assert (compat (namedRulesOf r)) as Hcr.
    { eapply compatible_subseteq; [|exact Hc1]. intros o ?. apply elem_of_app. by right. }
    destruct (Htot Hcr) as [toAdd Hr]. rewrite Hr.
    destruct (Hok _ Hr) as [Hrep _].
    pose proof (represents_compatible_rev _ _ _ _ Hrep Hc1) as Hc2.
    destruct Hrep as (Hnamed & ? & ?).
    destruct (registerAll_total _ RuleNameConflict _ _ _ Hreg Hc2 Hnamed) as [m1 Ha].
    unfold addRules. rewrite Ha.
    destruct (registerAll_Ok _ _ _ _ _ _ Hreg Hc Ha) as [Hreg1 _].
    apply (represents_registryOf _ _ _ (namedRulesOf r)) in Hreg1; [|by split_and!].
    destruct (IH _ _ Hreg1 Hc1) as (_ & IHtot & _). by apply IHtot.
  - intros e. destruct (rulesToAddOf _ r) as [toAdd|e1] eqn:Hr.
    + destruct (Hok _ eq_refl) as [Hrep Hcr].
      unfold addRules. destruct (registerAll _ _ toAdd m) as [m1|e2] eqn:Ha.
      * intros Hrest. destruct (registerAll_Ok _ _ _ _ _ _ Hreg Hc Ha) as [Hreg1 Hc1].
        apply (represents_registryOf _ _ _ _ _ Hrep) in Hreg1.
        apply (represents_compatible _ _ _ _ Hrep Hcr) in Hc1.
        destruct (IH _ _ Hreg1 Hc1) as (_ & _ & IHerr).
        eapply nameConflict_mono; [| |by apply IHerr].
        -- intros o ?. apply elem_of_app. by right.
        -- intros o. by rewrite app_assoc.
      * intros [= <-]. destruct Hrep as (Hnamed & Hsub & _).
        eapply nameConflict_mono;
          [| |exact (registerAll_Err _ _ _ _ _ _ Hreg Hc Hnamed Ha)].
        -- intros o ?. apply elem_of_app. left. auto.
        -- intros o. rewrite !elem_of_app. intros [?|?]; auto.
    + intros [= <-]. eapply nameConflict_mono; [| |by apply Herr].
      * intros o ?. apply elem_of_app. by left.
      * intros o ?. rewrite !elem_of_app. auto.
Qed.

Lemma rulesToAddOf_spec r : entrySpec r.
Proof.
  induction r as [ref|rule|cond rules IH] using RuleJson_nested_ind.
  - cbn. split_and!; [|eauto|done]. intros toAdd [= <-].
    split; [by apply represents_refl|]. by intros a b k ?%elem_of_nil.
  - cbn. destruct (name rule) as [n|] eqn:Hn.
    + split_and!; [|eauto|done]. intros toAdd [= <-].
      split; [apply represents_refl; repeat constructor; by rewrite Hn|].
      intros a b k Ha Hb _ _. apply list_elem_of_singleton in Ha, Hb. by subst.
    + split_and!; [|eauto|done]. intros toAdd [= <-].
      split; [by apply represents_refl|]. by intros a b k ?%elem_of_nil.
  - rewrite rulesToAddOf_set. cbn [namedRulesOf].
    destruct (extract_from_entries _ IH [] [] (registryOf_empty _)) as (Hok & Htot & Herr).
    { by intros a b k ?%elem_of_nil. }
    cbn in Hok, Htot, Herr. split_and!.
    + intros toAdd. destruct (extractNamedRules _ rules []) as [nested|e]; [|done].
      intros [= <-]. destruct (Hok _ eq_refl) as [Hreg Hc].
      split; [|done]. by apply registry_values_represent.
    + intros Hc. destruct (Htot Hc) as [nested ->]. eauto.
    + intros e. destruct (extractNamedRules _ rules []) as [nested|e1]; [done|].
      intros [= <-]. by apply Herr.
Qed.

Lemma extractNamedRules_spec rules : listSpec rules.
Proof.
  apply extract_from_entries, Forall_forall. intros r _. apply rulesToAddOf_spec.
Qed.

End Rules.

(** *** Extraction of actions *)

Section Actions.
Variable isActionJson : ObjectJson -> bool.

(** The loop of [extractNamedActions] registers the named action objects
    under their lower-cased names. *)
Lemma extractNamedActions_registerAll (actions : list ActionJson) m :
  extractNamedActions isActionJson actions m =
  registerAll toLowerCase ActionNameConflict (namedActionsIn isActionJson actions) m.
Proof.
  revert m. induction actions as [|[ref|a] actions IH]; intros m; cbn; [done..|].
  destruct (name a) as [n|] eqn:Hn; [|done].
  destruct (isActionJson a); [|done]. cbn. rewrite Hn.
  destruct (register _ _ _ _); [apply IH|done].
Qed.

Lemma namedActionsIn_named (actions : list ActionJson) :
  Forall (fun o => is_Some (name o)) (namedActionsIn isActionJson actions).
Proof.
  induction actions as [|[ref|a] actions IH]; cbn; [constructor|done|].
  destruct (name a) as [n|] eqn:Hn; [|done].
  destruct (isActionJson a); [|done]. constructor; [by rewrite Hn|done].
Qed.

End Actions.

Lemma wellKeyed_compatible normal m : wellKeyed normal m -> compatible normal (map_values m).
Proof.
  intros [Hnd Hk] a b k [[ka a'] [-> Ha]]%list_elem_of_fmap
    [[kb b'] [-> Hb]]%list_elem_of_fmap Hka Hkb. cbn in *.
  rewrite Forall_forall in Hk.
  pose proof (Hk _ Ha) as Ha'. pose proof (Hk _ Hb) as Hb'. cbn in *.
  assert (ka = k) as -> by congruence. assert (kb = k) as -> by congruence.
  apply (map_get_NoDup _ _ _ Hnd) in Ha, Hb. congruence.
Qed.

Lemma extractNamedActions_spec (isActionJson : ObjectJson -> bool)
    (actions : list ActionJson) m :
  wellKeyed toLowerCase m ->
  let all := map_values m ++ namedActionsIn isActionJson actions in
  (forall m', extractNamedActions isActionJson actions m = Ok m' ->
     registryOf toLowerCase all m') /\
  ((exists m', extractNamedActions isActionJson actions m = Ok m') <->
     compatible toLowerCase all) /\
  (forall e, extractNamedActions isActionJson actions m = Err e ->
     nameConflict toLowerCase ActionNameConflict e
       (namedActionsIn isActionJson actions) all).
Proof.
  intros Hwk all.
  pose proof (registryOf_values _ _ Hwk) as Hreg.
  pose proof (wellKeyed_compatible _ _ Hwk) as Hc.
  rewrite extractNamedActions_registerAll. split_and!.
  - intros m' Hm'. by apply (registerAll_Ok _ _ _ _ _ _ Hreg Hc Hm').
  - split.
    + intros [m' Hm']. by apply (registerAll_Ok _ _ _ _ _ _ Hreg Hc Hm').
    + intros Hall. eapply registerAll_total; [done..|]. apply namedActionsIn_named.
  - intros e He. eapply registerAll_Err; [done..| |done]. apply namedActionsIn_named.
Qed.

(** Two objects with one key are compatible exactly when they agree
    apart from the name. *)
Lemma same_key_compatible normal a b k :
  keyOf normal a = Some k -> keyOf normal b = Some k ->
  compatible normal [a; b] <-> stripName a = stripName b.
Proof.
  intros Hka Hkb. split.
  - intros Hc. apply (Hc a b k); [by left|by right; left|done..].
  - intros Hs x y k' Hx Hy _ _.
    apply elem_of_cons in Hx as [->|Hx]; [|apply list_elem_of_singleton in Hx as ->];
      (apply elem_of_cons in Hy as [->|Hy]; [|apply list_elem_of_singleton in Hy as ->]);
      done.
Qed.

(** ** C5 *)

(** C5, as the code has it.  Extraction files every named rule under
    [normalizeName] of its name and every named action under its name
    lower-cased (not trimmed).  Started on a registry [m] with one entry
    per key, it succeeds exactly when no two of the objects at hand (those
    of [m] and the named ones of the list) share a key and differ apart
    from the name; the registry it returns has one entry per key, each
    entry one of those objects and equal, apart from the name, to every
    object with its key.  Otherwise it fails with the conflict error of a
    named object of the list, carrying that object's name as written, and
    some object at hand has the same key and differs from it.  The key of
    an action is blind to case: two actions whose names, written in
    ASCII, differ in the case of letters only are extracted together
    exactly when they agree apart from the name. *)
Theorem named_extraction (normalizeName : string -> string)
    (isActionJson : ObjectJson -> bool) :
  (forall rules m, wellKeyed normalizeName m ->
     let all := map_values m ++ namedRulesIn rules in
     (forall m', extractNamedRules normalizeName rules m = Ok m' ->
        registryOf normalizeName all m') /\
     ((exists m', extractNamedRules normalizeName rules m = Ok m') <->
        compatible normalizeName all) /\
     (forall e, extractNamedRules normalizeName rules m = Err e ->
        nameConflict normalizeName RuleNameConflict e (namedRulesIn rules) all)) /\
  (forall (actions : list ActionJson) m, wellKeyed toLowerCase m ->
     let all := map_values m ++ namedActionsIn isActionJson actions in
     (forall m', extractNamedActions isActionJson actions m = Ok m' ->
        registryOf toLowerCase all m') /\
     ((exists m', extractNamedActions isActionJson actions m = Ok m') <->
        compatible toLowerCase all) /\
     (forall e, extractNamedActions isActionJson actions m = Err e ->
        nameConflict toLowerCase ActionNameConflict e
          (namedActionsIn isActionJson actions) all)) /\
  (forall a b n n',
     name a = Some n -> name b = Some n' ->
     isActionJson a = true -> isActionJson b = true ->
     isAscii n = true -> isAscii n' = true -> lowerAscii n = lowerAscii n' ->
     ((exists m', extractNamedActions isActionJson [ActionObj a; ActionObj b] [] = Ok m') <->
        stripName a = stripName b)).
Proof.
  split_and!.
  - intros rules m Hwk all.
    destruct (extractNamedRules_spec normalizeName rules (map_values m) m)
      as (Hok & Htot & Herr);
      [by apply registryOf_values|by apply wellKeyed_compatible|].
    split_and!; [intros m' Hm'; by apply Hok| |done].
    split; [intros [m' Hm']; by apply (Hok m')|done].
  - intros actions m. apply extractNamedActions_spec.
  - intros a b n n' Hn Hn' Ha Hb Hascii Hascii' Hfold.
    assert (wellKeyed toLowerCase ([] : Registry)) as Hwk by (split; constructor).
    destruct (extractNamedActions_spec isActionJson [ActionObj a; ActionObj b] [] Hwk)
      as (_ & -> & _).
    cbn. rewrite Hn, Hn', Ha, Hb. cbn.
    apply (same_key_compatible _ _ _ (lowerAscii n)); unfold keyOf.
    + rewrite Hn. cbn. by rewrite toLowerCase_ascii.
    + rewrite Hn'. cbn. by rewrite toLowerCase_ascii, Hfold.
Qed.

(** *** Insertion *)

Lemma find_app {A} (p : A -> bool) (l1 l2 : list A) :
  find p (l1 ++ l2) = match find p l1 with Some x => Some x | None => find p l2 end.
Proof. induction l1 as [|x l1 IH]; cbn; [done|]. by destruct (p x). Qed.

Lemma unresolved_false named ref :
  unresolved named ref = false <-> is_Some (map_get (toLowerCase ref) named).
Proof.
  unfold unresolved, map_has. rewrite negb_false_iff. apply bool_decide_eq_true.
Qed.

Lemma unresolved_true named ref :
  unresolved named ref = true <-> map_get (toLowerCase ref) named = None.
Proof.
  unfold unresolved, map_has. rewrite negb_true_iff, bool_decide_eq_false.
  destruct (map_get _ named) as [o|].
  - split; [|done]. intros Hn. destruct Hn. eauto.
  - split; [done|]. by intros _ [? ?].
Qed.

Lemma insertRule_set m cond rules :
  insertRule m (RuleSetJ cond rules) =
  match insertNamedRules rules m with
  | Err e => Err e
  | Ok setRules => Ok (RuleSetJ cond setRules)
  end.
Proof.
  cbn. assert (forall rs,
    (fix insertNested (rs : list RuleJson) : result ConfigError (list RuleJson) :=
       match rs with
       | [] => Ok []
       | r' :: rest =>
           match insertRule m r' with
           | Err e => Err e
           | Ok strong =>
               match insertNested rest with
               | Err e => Err e
               | Ok strongRules => Ok (strong :: strongRules)
               end
           end
       end) rs = insertNamedRules rs m) as ->; [|done].
  induction rs as [|r rs IH]; cbn; [done|]. by rewrite IH.
Qed.

(** The result of inserting into one entry, and into a list: either the
    resolved entries, all references being resolved, or the error of the
    first reference that is not. *)
Local Abbreviation insertSpec refs res resolved mkErr m :=
  (match res with
   | Ok out => resolved out /\ find (unresolved m) refs = None
   | Err e => exists ref, find (unresolved m) refs = Some ref /\ e = mkErr ref
   end).

Lemma insertNamedRules_from_entries m rules :
  Forall (fun r => insertSpec (ruleRefsOf r) (insertRule m r) (resolvedRule m r) NoNamedRule m) rules ->
  insertSpec (flat_map ruleRefsOf rules) (insertNamedRules rules m)
    (Forall2 (resolvedRule m) rules) NoNamedRule m.
Proof.
  induction 1 as [|r rules Hr _ IH]; cbn; [by split|].
  rewrite find_app. destruct (insertRule m r) as [strong|e].
  - destruct Hr as [Hres ->].
    destruct (insertNamedRules rules m) as [strongRules|e]; [|done].
    destruct IH as [IH ->]. split; [by constructor|done].
  - destruct Hr as (ref & -> & ->). eauto.
Qed.

Lemma insertRule_spec m r :
  insertSpec (ruleRefsOf r) (insertRule m r) (resolvedRule m r) NoNamedRule m.
Proof.
  induction r as [ref|rule|cond rules IH] using RuleJson_nested_ind.
  - cbn. destruct (map_get (toLowerCase ref) m) as [found|] eqn:Hget.
    + assert (unresolved m ref = false) as -> by (apply unresolved_false; eauto).
      split; [by constructor|done].
    + assert (unresolved m ref = true) as -> by by apply unresolved_true.
      eauto.
  - cbn. split; [constructor|done].
  - rewrite insertRule_set. cbn [ruleRefsOf].
    pose proof (insertNamedRules_from_entries _ _ IH) as Hl.
    destruct (insertNamedRules rules m) as [setRules|e]; [|done].
    destruct Hl as [Hl ->]. split; [by constructor|done].
Qed.

Lemma insertNamedRules_spec m rules :
  insertSpec (flat_map ruleRefsOf rules) (insertNamedRules rules m)
    (Forall2 (resolvedRule m) rules) NoNamedRule m.
Proof.
  apply insertNamedRules_from_entries, Forall_forall. intros r _. apply insertRule_spec.
Qed.

Lemma insertNamedActions_spec m (actions : list ActionJson) :
  insertSpec (flat_map actionRefsOf actions) (insertNamedActions actions m)
    (Forall2 (resolvedAction m) actions) NoNamedAction m.
Proof.
  induction actions as [|[ref|a] actions IH]; cbn; [by split| |].
  - destruct (map_get (toLowerCase ref) m) as [found|] eqn:Hget.
    + assert (unresolved m ref = false) as -> by (apply unresolved_false; eauto).
      destruct (insertNamedActions actions m) as [strong|e]; [|done].
      destruct IH as [IH ->]. split; [|done]. constructor; [by constructor|done].
    + assert (unresolved m ref = true) as -> by by apply unresolved_true.
      eauto.
  - destruct (insertNamedActions actions m) as [strong|e]; [|done].
    destruct IH as [IH ->]. split; [|done]. constructor; [constructor|done].
Qed.

(** What an entry resolves to is determined. *)
Lemma resolvedRule_fun m r : forall out out',
  resolvedRule m r out -> resolvedRule m r out' -> out = out'.
Proof.
  induction r as [ref|rule|cond rules IH] using RuleJson_nested_ind; intros out out' H1 H2.
  - inversion H1; inversion H2; subst. congruence.
  - inversion H1; inversion H2; by subst.
  - inversion H1 as [| |? ? s1 Hs1]; inversion H2 as [| |? ? s2 Hs2]; subst. f_equal.
    clear H1 H2. revert s1 s2 Hs1 Hs2.
    induction IH as [|r rules Hr _ IHrules]; intros s1 s2 Hs1 Hs2.
    + apply Forall2_nil_inv_l in Hs1, Hs2. by subst.
    + apply Forall2_cons_inv_l in Hs1 as (x1 & t1 & Hx1 & Ht1 & ->).
      apply Forall2_cons_inv_l in Hs2 as (x2 & t2 & Hx2 & Ht2 & ->).
      f_equal; [by apply Hr|by apply IHrules].
Qed.

Lemma resolvedRules_fun m rules out out' :
  Forall2 (resolvedRule m) rules out -> Forall2 (resolvedRule m) rules out' -> out = out'.
Proof.
  revert out out'. induction rules as [|r rules IH]; intros out out' H1 H2.
  - apply Forall2_nil_inv_l in H1, H2. by subst.
  - apply Forall2_cons_inv_l in H1 as (x1 & t1 & Hx1 & Ht1 & ->).
    apply Forall2_cons_inv_l in H2 as (x2 & t2 & Hx2 & Ht2 & ->).
    f_equal; [by eapply resolvedRule_fun|by apply IH].
Qed.

Lemma resolvedActions_fun m (actions : list ActionJson) out out' :
  Forall2 (resolvedAction m) actions out -> Forall2 (resolvedAction m) actions out' ->
  out = out'.
Proof.
  revert out out'. induction actions as [|a actions IH]; intros out out' H1 H2.
  - apply Forall2_nil_inv_l in H1, H2. by subst.
  - apply Forall2_cons_inv_l in H1 as (x1 & t1 & Hx1 & Ht1 & ->).
    apply Forall2_cons_inv_l in H2 as (x2 & t2 & Hx2 & Ht2 & ->).
    f_equal; [|by apply IH].
    inversion Hx1; inversion Hx2; subst; congruence.
Qed.

(** A resolved entry needs every reference of the entry resolved. *)
Lemma resolvedRule_refs m r : forall out,
  resolvedRule m r out -> find (unresolved m) (ruleRefsOf r) = None.
Proof.
  intros out Hres. pose proof (insertRule_spec m r) as Hs.
  destruct (insertRule m r) as [out'|e]; [by destruct Hs|].
  exfalso. destruct Hs as (ref & Hfind & _). revert out Hres ref Hfind. clear e.
  induction r as [ref|rule|cond rules IH] using RuleJson_nested_ind; intros out Hres ref' Hfind.
  - inversion Hres; subst. cbn in Hfind.
    destruct (unresolved m ref) eqn:Hu; [|done].
    apply unresolved_true in Hu. congruence.
  - done.
  - inversion Hres as [| |? ? strong Hstrong]; subst. cbn in Hfind. clear Hres.
    revert strong Hstrong ref' Hfind.
    induction IH as [|r rules Hr _ IHrules]; intros strong Hstrong ref' Hfind; [done|].
    apply Forall2_cons_inv_l in Hstrong as (x & t & Hx & Ht & ->).
    cbn in Hfind. rewrite find_app in Hfind.
    destruct (find (unresolved m) (ruleRefsOf r)) as [ref1|] eqn:Hf1.
    + by eapply Hr.
    + by eapply IHrules.
Qed.

(** ** C6 *)

(** C6. Insertion replaces a string entry by the registry entry found
    under the lower-cased string, resolves the rules of a nested set in
    place, keeping its condition and the order of its members, and passes
    an inline object through unchanged ([resolvedRule], entry by entry in
    the order of the list); it throws exactly when some reference has no
    registry entry, and the error names the first such reference in
    document order.  The same holds for actions, which do not nest.  The
    lookup is blind to the case of the reference: references with the
    same lower-casing resolve to the same result, and a reference
    written in ASCII is looked up with its letters [A] to [Z] folded. *)
Theorem named_insertion :
  (forall ref ref' (m : Registry),
     toLowerCase ref = toLowerCase ref' ->
     (forall out, insertNamedRules [RuleRef ref] m = Ok out <->
                  insertNamedRules [RuleRef ref'] m = Ok out) /\
     (forall out, insertNamedActions [ActionRef ref] m = Ok out <->
                  insertNamedActions [ActionRef ref'] m = Ok out)) /\
  (forall ref (m : Registry),
     isAscii ref = true ->
     insertNamedRules [RuleRef ref] m =
       match map_get (lowerAscii ref) m with
       | Some found => Ok [RuleObj found]
       | None => Err (NoNamedRule ref)
       end /\
     insertNamedActions [ActionRef ref] m =
       match map_get (lowerAscii ref) m with
       | Some found => Ok [ActionObj found]
       | None => Err (NoNamedAction ref)
       end) /\
  (forall (rules : list RuleJson) m,
     (forall out, insertNamedRules rules m = Ok out <-> Forall2 (resolvedRule m) rules out) /\
     (forall e, insertNamedRules rules m = Err e <->
        exists ref, find (unresolved m) (flat_map ruleRefsOf rules) = Some ref /\
                    e = NoNamedRule ref)) /\
  (forall (actions : list ActionJson) m,
     (forall out, insertNamedActions actions m = Ok out <->
        Forall2 (resolvedAction m) actions out) /\
     (forall e, insertNamedActions actions m = Err e <->
        exists ref, find (unresolved m) (flat_map actionRefsOf actions) = Some ref /\
                    e = NoNamedAction ref)).
Proof.
  split_and!.
  - intros ref ref' m Hfold. cbn. rewrite Hfold.
    split; intros out; by destruct (map_get (toLowerCase ref') m).
  - intros ref m Hascii. cbn. rewrite toLowerCase_ascii by done.
    by destruct (map_get (lowerAscii ref) m).
  - intros rules m. pose proof (insertNamedRules_spec m rules) as Hs.
    destruct (insertNamedRules rules m) as [out'|e'].
    + destruct Hs as [Hres Hnone]. split.
      * intros out. split; [by intros [= <-]|]. intros Hout. f_equal.
        by eapply resolvedRules_fun.
      * intros e. split; [done|]. intros (ref & Hfind & _). congruence.
    + destruct Hs as (ref & Hfind & ->). split.
      * intros out. split; [done|]. intros Hout. exfalso.
        assert (find (unresolved m) (flat_map ruleRefsOf rules) = None); [|congruence].
        clear Hfind. induction Hout as [|r o rules out Hr _ IH]; cbn; [done|].
        rewrite find_app. by rewrite (resolvedRule_refs _ _ _ Hr).
      * intros e. split; [intros [= <-]; eauto|]. intros (ref' & Hfind' & ->). congruence.
  - intros actions m. pose proof (insertNamedActions_spec m actions) as Hs.
    destruct (insertNamedActions actions m) as [out'|e'].
    + destruct Hs as [Hres Hnone]. split.
      * intros out. split; [by intros [= <-]|]. intros Hout. f_equal.
        by eapply resolvedActions_fun.
      * intros e. split; [done|]. intros (ref & Hfind & _). congruence.
    + destruct Hs as (ref & Hfind & ->). split.
      * intros out. split; [done|]. intros Hout. exfalso.
        assert (find (unresolved m) (flat_map actionRefsOf actions) = None); [|congruence].
        clear Hfind. induction Hout as [|a o actions out Ha _ IH]; cbn; [done|].
        rewrite find_app. inversion Ha as [ref' found Hget|]; subst; cbn; [|done].
        assert (unresolved m ref' = false) as -> by (apply unresolved_false; eauto).
        done.
      * intros e. split; [intros [= <-]; eauto|]. intros (ref' & Hfind' & ->). congruence.
Qed.

(** *** [parseToStructured] *)

Lemma insertRule_inlined m r : ruleRefsOf r = [] -> insertRule m r = Ok r.
Proof.
  induction r as [ref|rule|cond rules IH] using RuleJson_nested_ind; [done..|].
  rewrite insertRule_set. cbn [ruleRefsOf]. intros Hrefs.
  assert (insertNamedRules rules m = Ok rules) as ->; [|done].
  induction IH as [|r rules Hr _ IHrules]; [done|].
  cbn in Hrefs. apply app_eq_nil in Hrefs as [H1 H2].
  cbn. by rewrite Hr, IHrules.
Qed.

Lemma insertNamedRules_inlined m rules :
  flat_map ruleRefsOf rules = [] -> insertNamedRules rules m = Ok rules.
Proof.
  induction rules as [|r rules IH]; [done|]. cbn.
  intros [H1 H2]%app_eq_nil. by rewrite insertRule_inlined, IH.
Qed.

Lemma insertNamedActions_inlined m (actions : list ActionJson) :
  flat_map actionRefsOf actions = [] -> insertNamedActions actions m = Ok actions.
Proof.
  induction actions as [|[ref|a] actions IH]; [done..|]. cbn.
  intros Hrefs. by rewrite IH.
Qed.

Lemma insertChecks_declared (cs : list CheckJson) mr ma :
  Forall referenceFree cs -> insertChecks cs mr ma = Ok (declared <$> cs).
Proof.
  induction 1 as [|c cs [Hr Ha] _ IH]; [done|]. cbn.
  by rewrite insertNamedRules_inlined, insertNamedActions_inlined, IH.
Qed.

(** The checks come back as they were exactly when each declares its
    rules. *)
Lemma declared_same (cs : list CheckJson) :
  declared <$> cs = cs <-> Forall (fun c => is_Some (check_rules c)) cs.
Proof.
  induction cs as [|[rest [rules|] actions] cs IH]; cbn.
  - split; [constructor|done].
  - rewrite Forall_cons. split.
    + intros [= Hcs]. split; [by eexists|]. by apply IH.
    + intros [_ Hcs]. unfold declared at 1. cbn. f_equal. by apply IH.
  - rewrite Forall_cons. split; [by intros [= ?]|]. by intros [[? [= ]] _].
Qed.

Lemma insertChecks_inlined (cs : list CheckJson) mr ma :
  Forall inlinedCheck cs -> insertChecks cs mr ma = Ok cs.
Proof.
  induction 1 as [|c cs ([rules Hrules] & Hr & Ha) _ IH]; [done|]. cbn.
  rewrite insertNamedRules_inlined, insertNamedActions_inlined, IH by done.
  destruct c as [rest crules cactions]. cbn in *. subst.
  unfold rulesOf. cbn. done.
Qed.

Section Parse.
Variable normalizeName : string -> string.
Variable isActionJson : ObjectJson -> bool.

Local Abbreviation R := (@namedRulesOfChecks Body CheckRest).
Local Abbreviation A := (@namedActionsOfChecks Body CheckRest isActionJson).
Local Abbreviation ruleConflict := (nameConflict normalizeName RuleNameConflict).
Local Abbreviation actionConflict := (nameConflict toLowerCase ActionNameConflict).

Lemma extractChecks_spec (cs : list CheckJson) : forall osr mr osa ma,
  registryOf normalizeName osr mr -> compatible normalizeName osr ->
  registryOf toLowerCase osa ma -> compatible toLowerCase osa ->
  (forall mr' ma', extractChecks normalizeName isActionJson cs mr ma = Ok (mr', ma') ->
     compatible normalizeName (osr ++ R cs) /\ compatible toLowerCase (osa ++ A cs)) /\
  (compatible normalizeName (osr ++ R cs) -> compatible toLowerCase (osa ++ A cs) ->
     exists p, extractChecks normalizeName isActionJson cs mr ma = Ok p) /\
  (forall e, extractChecks normalizeName isActionJson cs mr ma = Err e ->
     ruleConflict e (R cs) (osr ++ R cs) \/ actionConflict e (A cs) (osa ++ A cs)).
Proof.
  induction cs as [|c cs IH]; intros osr mr osa ma Hrr Hcr Hra Hca.
  { cbn. rewrite !app_nil_r. split_and!; [done|eauto|done]. }
  unfold namedRulesOfChecks, namedActionsOfChecks in *.
  cbn [flat_map extractChecks].
  destruct (extractNamedRules_spec normalizeName (rulesOf c) osr mr Hrr Hcr)
    as (Rok & Rtot & Rerr).
  pose proof (namedActionsIn_named isActionJson (check_actions c)) as Hnamed.
  rewrite extractNamedActions_registerAll.
  split_and!.
  - intros mr' ma'.
    destruct (extractNamedRules _ _ mr) as [mr1|e1]; [|done].
    destruct (Rok _ eq_refl) as [Hrr1 Hcr1].
    destruct (registerAll _ _ _ ma) as [ma1|e2] eqn:Hact; [|done].
    destruct (registerAll_Ok _ _ _ _ _ _ Hra Hca Hact) as [Hra1 Hca1].
    intros Hrest. destruct (IH _ _ _ _ Hrr1 Hcr1 Hra1 Hca1) as (IHok & _ & _).
    rewrite !app_assoc. by eapply IHok.
  - intros Hr Ha. rewrite app_assoc in Hr, Ha.
    assert (compatible normalizeName (osr ++ namedRulesIn (rulesOf c))) as Hcr1.
    { eapply compatible_subseteq; [|exact Hr]. intros o ?. apply elem_of_app. by left. }
    assert (compatible toLowerCase (osa ++ namedActionsIn isActionJson (check_actions c)))
      as Hca1.
    { eapply compatible_subseteq; [|exact Ha]. intros o ?. apply elem_of_app. by left. }
    destruct (Rtot Hcr1) as [mr1 Hmr1]. rewrite Hmr1.
    destruct (Rok _ Hmr1) as [Hrr1 _].
    destruct (registerAll_total _ ActionNameConflict _ _ _ Hra Hca1 Hnamed) as [ma1 Hact].
    rewrite Hact.
    destruct (registerAll_Ok _ _ _ _ _ _ Hra Hca Hact) as [Hra1 _].
    destruct (IH _ _ _ _ Hrr1 Hcr1 Hra1 Hca1) as (_ & IHtot & _). by apply IHtot.
  - intros e.
    destruct (extractNamedRules _ _ mr) as [mr1|e1].
    + destruct (Rok _ eq_refl) as [Hrr1 Hcr1].
      destruct (registerAll _ _ _ ma) as [ma1|e2] eqn:Hact.
      * destruct (registerAll_Ok _ _ _ _ _ _ Hra Hca Hact) as [Hra1 Hca1].
        intros Hrest. destruct (IH _ _ _ _ Hrr1 Hcr1 Hra1 Hca1) as (_ & _ & IHerr).
        destruct (IHerr _ Hrest) as [Hc|Hc]; [left|right];
          (eapply nameConflict_mono; [| |exact Hc]);
          first [intros o ?; apply elem_of_app; by right | intros o; by rewrite app_assoc].
      * intros [= <-]. right.
        eapply nameConflict_mono; [| |exact (registerAll_Err _ _ _ _ _ _ Hra Hca Hnamed Hact)].
        -- intros o ?. apply elem_of_app. by left.
        -- intros o. rewrite !elem_of_app. intros [?|?]; auto.
    + intros [= <-]. left. eapply nameConflict_mono; [| |by apply Rerr].
      * intros o ?. apply elem_of_app. by left.
      * intros o. rewrite !elem_of_app. intros [?|?]; auto.
Qed.

(** ** C7 *)

(** C7, as the code has it.  For a configuration whose checks hold no
    string reference, [parseToStructured] returns, whenever it returns,
    the checks it was given, in the same order and with the same rules
    and actions, each with its rules declared: a check that left [rules]
    out comes back with an empty list of rules.  What it returns equals
    what it was given exactly when every check declares its rules.  It
    returns exactly when the named rules of the document are compatible
    and so are its named actions, and otherwise it throws the
    name-conflict error of one of them. *)
Theorem parseToStructured_inlined (config : JSONConfig Body CheckRest) :
  Forall referenceFree (default [] (checks config)) ->
  (forall out, parseToStructured normalizeName isActionJson config = Ok out ->
     out = declared <$> default [] (checks config)) /\
  (declared <$> default [] (checks config) = default [] (checks config) <->
     Forall (fun c => is_Some (check_rules c)) (default [] (checks config))) /\
  (parseToStructured normalizeName isActionJson config =
     Ok (declared <$> default [] (checks config)) <->
     compatible normalizeName (R (default [] (checks config))) /\
     compatible toLowerCase (A (default [] (checks config)))) /\
  (forall e, parseToStructured normalizeName isActionJson config = Err e ->
     ruleConflict e (R (default [] (checks config))) (R (default [] (checks config))) \/
     actionConflict e (A (default [] (checks config))) (A (default [] (checks config)))).
Proof.
  intros Hin. unfold parseToStructured.
  set (cs := default [] (checks config)) in *.
  destruct (extractChecks_spec cs [] [] [] [])
    as (Hok & Htot & Herr);
    [apply registryOf_empty|by intros a b k ?%elem_of_nil
    |apply registryOf_empty|by intros a b k ?%elem_of_nil|].
  cbn [app] in Hok, Htot, Herr.
  destruct (extractChecks _ _ cs [] []) as [[mr ma]|e] eqn:Hex.
  - rewrite insertChecks_declared by done.
    split_and!; [by intros out [= <-]|apply declared_same| |done].
    split; [intros _; by eapply Hok|done].
  - split_and!; [done|apply declared_same| |intros e' [= <-]; by apply Herr].
    split; [done|]. intros [Hr Ha]. destruct (Htot Hr Ha). done.
Qed.

End Parse.

End Facts.

(** *** Sample documents, resolved *)

(** The samples are written in ASCII. *)
#[local] Existing Instance sampleCasing.

(** Compatibility of a list written out: every pair has different keys or
    is the same object. *)
Ltac compatible_by_cases :=
  let a := fresh "a" in let b := fresh "b" in let k := fresh "k" in
  let Ha := fresh "Ha" in let Hb := fresh "Hb" in
  let Hka := fresh "Hka" in let Hkb := fresh "Hkb" in
  intros a b k Ha Hb Hka Hkb;
  repeat (apply elem_of_cons in Ha as [->|Ha]);
  try (by apply elem_of_nil in Ha);
  repeat (apply elem_of_cons in Hb as [->|Hb]);
  try (by apply elem_of_nil in Hb);
  first [reflexivity | vm_compute in Hka, Hkb; congruence].

(** A rule and a nested rule whose names differ by case and blanks and
    whose other fields agree: one entry, the first, under the normalized
    name. *)
Lemma named_extraction_witness :
  wellKeyed normalizeNameSpec ([] : Registry nat) /\
  registryOf normalizeNameSpec
    (map_values [] ++
     namedRulesIn [RuleObj (sampleRule "Spam" 1); RuleSetJ None [RuleObj (sampleRule " spam" 1)]])
    [("spam", sampleRule "Spam" 1)].
Proof.
  assert (wellKeyed normalizeNameSpec ([] : Registry nat)) as Hwk
    by (split; constructor).
  split; [exact Hwk|].
  apply (proj1 (proj1 (named_extraction normalizeNameSpec anyObject) _ [] Hwk)).
  vm_compute. reflexivity.
Defined.

(** The same two names on rules with different fields: the conflict
    error, with the second name as written. *)
Example extract_conflicting_rules :
  extractNamedRules normalizeNameSpec
    [RuleObj (sampleRule "Spam" 1); RuleSetJ None [RuleObj (sampleRule " spam" 2)]] [] =
  Err (RuleNameConflict " spam").
Proof. vm_compute. reflexivity. Qed.

(** Two actions whose trimmed, lower-cased names are equal and whose
    other fields differ are both registered, under different keys. *)
Lemma action_names_not_trimmed :
  normalizeNameSpec "Foo " = normalizeNameSpec "foo" /\
  stripName (sampleAction "Foo " 1) <> stripName (sampleAction "foo" 2) /\
  extractNamedActions anyObject blankActions [] =
  Ok [("foo ", sampleAction "Foo " 1); ("foo", sampleAction "foo" 2)].
Proof. split_and!; [vm_compute; reflexivity|discriminate|vm_compute; reflexivity]. Qed.

(** A reference is looked up lower-cased; the entry found replaces it. *)
Example parse_referring :
  parseToStructured normalizeNameSpec anyObject referringConfig =
  Ok [ {| check_rest := tt;
          check_rules := Some [ RuleSetJ None [ RuleObj (sampleRule "Spam" 1) ] ];
          check_actions := [ ActionObj (sampleAction "Warn" 4) ] |};
       {| check_rest := tt;
          check_rules := Some [ RuleObj (sampleRule "Spam" 1) ];
          check_actions := [ ActionObj (sampleAction "Warn" 4) ] |} ].
Proof. vm_compute. reflexivity. Qed.

(** A reference in capitals finds the entry filed in small letters, and
    so does one written as the name was. *)
Lemma named_insertion_witness :
  insertNamedRules [RuleRef "SPAM"] [("spam", sampleRule "Spam" 1)] =
    Ok [RuleObj (sampleRule "Spam" 1)] /\
  (forall out,
     insertNamedRules [RuleRef "Spam"] [("spam", sampleRule "Spam" 1)] = Ok out <->
     insertNamedRules [RuleRef "SPAM"] [("spam", sampleRule "Spam" 1)] = Ok out) /\
  insertNamedActions [ActionRef "Warn"] [("spam", sampleAction "Spam" 1)] =
    Err (NoNamedAction "Warn").
Proof.
  destruct (named_insertion (H := sampleCasing) (Body := nat)) as (Hsame & Hascii & _).
  split_and!.
  - exact (proj1 (Hascii "SPAM" [("spam", sampleRule "Spam" 1)] eq_refl)).
  - exact (proj1 (Hsame "Spam" "SPAM" [("spam", sampleRule "Spam" 1)] eq_refl)).
  - exact (proj2 (Hascii "Warn" [("spam", sampleAction "Spam" 1)] eq_refl)).
Defined.

(** A reference without an entry: the error carries it as written. *)
Example insert_unresolved :
  insertNamedRules [RuleObj (sampleRule "Spam" 1); RuleSetJ None [RuleRef "Flood"]]
    [("spam", sampleRule "Spam" 1)] =
  Err (NoNamedRule "Flood").
Proof. vm_compute. reflexivity. Qed.

(** A document written in place that declares its rules comes back as
    it was. *)
Lemma parseToStructured_inlined_witness :
  Forall referenceFree (default [] (checks inlinedConfig)) /\
  parseToStructured normalizeNameSpec anyObject inlinedConfig =
  Ok (default [] (checks inlinedConfig)).
Proof.
  assert (Forall referenceFree (default [] (checks inlinedConfig))) as Hin.
  { repeat constructor. }
  split; [exact Hin|].
  apply (proj1 (proj2 (proj2 (parseToStructured_inlined normalizeNameSpec anyObject _ Hin)))).
  split; compatible_by_cases.
Defined.

(** Two documents written in place that do not come back as they were:
    one with two rules of one name and different fields, which is
    rejected, and one whose check leaves [rules] out, which comes back
    with an empty list of rules. *)
Lemma inlined_not_returned :
  (Forall referenceFree (default [] (checks conflictingConfig)) /\
   parseToStructured normalizeNameSpec anyObject conflictingConfig =
   Err (RuleNameConflict "a")) /\
  (Forall referenceFree (default [] (checks rulelessConfig)) /\
   parseToStructured normalizeNameSpec anyObject rulelessConfig =
   Ok [ {| check_rest := tt;
           check_rules := Some [];
           check_actions := [ ActionObj (sampleAction "Warn" 4) ] |} ] /\
   parseToStructured normalizeNameSpec anyObject rulelessConfig <>
   Ok (default [] (checks rulelessConfig))).
Proof.
  split_and!; [repeat constructor|vm_compute; reflexivity|repeat constructor
              |vm_compute; reflexivity|vm_compute; discriminate].
Qed.

End ConfigBuilderSpec.

Module ResourcesSpec.
Import Resources.

(** Unfold the monad of the methods. *)
Ltac run :=
  unfold mbind, M_bind, bind, mret, M_ret, ret, throw, tryCatch, getThis, logEntry,
    recordRequest, recordMiss, updateStats, cacheGet, cacheSet, fetchItem in *;
  cbn [fst snd this store log fetched now] in *.

Section Facts.
Context `{Platform}.

Implicit Types (item a : Activity) (s : State).

(** *** [getActivity] *)

(** [getActivity] has three ways to go. *)

Lemma getActivity_submission item s :
  enabled (submissionTTL (this s)) = true -> asSubmission item = true ->
  getActivity item s =
  throughCache CatSubmission ("sub-" +:+ name item) (DebugCacheHitSubmission (name item))
    (submissionTTL (this s)) item s.
Proof.
  intros Hs Ha. unfold getActivity, throughCache, fromSource. run.
  rewrite Hs, Ha. cbn. destruct (store s !! _) as [entry|]; cbn; [done|].
  by destruct (fetch item).
Qed.

Lemma getActivity_comment item s :
  enabled (submissionTTL (this s)) && asSubmission item = false ->
  enabled (commentTTL (this s)) = true ->
  getActivity item s =
  throughCache CatComment ("comm-" +:+ name item) (DebugCacheHitComment (name item))
    (commentTTL (this s)) item s.
Proof.
  intros Hs Hc. unfold getActivity, throughCache, fromSource. run.
  rewrite Hs, Hc. cbn. destruct (store s !! _) as [entry|]; cbn; [done|].
  by destruct (fetch item).
Qed.

Lemma getActivity_bypass item s :
  enabled (submissionTTL (this s)) && asSubmission item = false ->
  enabled (commentTTL (this s)) = false ->
  getActivity item s = fromSource item s (fun _ s' => s').
Proof.
  intros Hs Hc. unfold getActivity, fromSource. run.
  rewrite Hs, Hc. cbn. by destruct (fetch item).
Qed.

(** A comment whose category is off is fetched on every call, and the
    store and the statistics are left alone. *)
Lemma disabled_comment_bypasses item a s :
  asSubmission item = false -> commentTTL (this s) = TTLFalse ->
  fetch item = Ok a ->
  getActivity item s = (Ok (VActivity a), fetching item s) /\
  getActivity item (fetching item s) = (Ok (VActivity a), fetching item (fetching item s)).
Proof.
  intros Ha Hc Hf. rewrite !getActivity_bypass; cbn; rewrite ?Ha, ?Hc, ?andb_false_r; try done.
  unfold fromSource. by rewrite Hf.
Qed.

(** ** C3 *)

(** C3, where the code departs from it.  A submission whose category is
    off ([submissionTTL] is [false]) is not fetched on every call when
    the comments' category is on: the first call counts a request for
    comments, fetches, counts a miss and stores the submission under the
    comment key with the comments' ttl; the second call finds it there
    and does not fetch. *)
Theorem disabled_submission_is_cached item a (t : Z) s :
  asSubmission item = true ->
  submissionTTL (this s) = TTLFalse ->
  commentTTL (this s) = TTLSeconds t ->
  fetch item = Ok a ->
  store s !! ("comm-" +:+ name item) = None ->
  let hash := "comm-" +:+ name item in
  let s1 := stored hash (VActivity a) (TTLSeconds t)
              (missed CatComment (fetching item (counted CatComment hash s))) in
  let s2 := logged (DebugCacheHitComment (name item)) (counted CatComment hash s1) in
  getActivity item s = (Ok (VActivity a), s1) /\
  store s1 !! hash = Some {| value := VActivity a; ttl := t |} /\
  getActivity item s1 = (Ok (VActivity a), s2) /\
  fetched s2 = fetched s ++ [item].
Proof.
  intros _ Hs Hc Hf Hstore hash s1 s2.
  assert (store s1 !! hash = Some {| value := VActivity a; ttl := t |}) as Hs1.
  { unfold s1, stored. cbn. by rewrite lookup_insert_eq. }
  split_and!; [| done | | done].
  - rewrite getActivity_comment by (by rewrite ?Hs, ?Hc).
    unfold throughCache, fromSource. by rewrite Hstore, Hf, Hc.
  - rewrite getActivity_comment by (cbn; by rewrite ?Hs, ?Hc).
    unfold throughCache. subst hash. by rewrite Hs1.
Qed.

(** *** The loops of [isItem] *)

Lemma bind_run {A B} (m : M A) (k : A -> M B) s :
  (m ≫= k) s =
  match m s with
  | (Ok a, s') => k a s'
  | (Err e, s') => (Err e, s')
  end.
Proof. reflexivity. Qed.

Lemma eachKey_checkState item crit fields s :
  (fix eachKey (fields : list (string * CritValue)) : M bool :=
     match fields with
     | [] => logEntry (DebugPassed crit);; ret true
     | (k, v) :: fields' =>
         if defined v then
           r ← switchField isItemValue item k v;
           match r with
           | FieldFailed => ret false
           | FieldDone => eachKey fields'
           end
         else eachKey fields'
     end) fields s = checkState item crit fields s.
Proof.
  revert s. induction fields as [|[k v] fields IH]; intros s; [done|].
  cbn [checkState]. destruct (defined v); [|apply IH].
  rewrite !bind_run.
  destruct (switchField isItemValue item k v s) as [[[]|e] s1]; [done|apply IH|done].
Qed.

Lemma isItem_nil item s : isItem item [] s = (Ok true, s).
Proof. reflexivity. Qed.

Lemma eachCrit_anyState item crits s :
  (fix eachCrit (crits : list (list (string * CritValue))) : M bool :=
     match crits with
     | [] => ret false
     | crit :: rest =>
         pass ←
           (fix eachKey (fields : list (string * CritValue)) : M bool :=
              match fields with
              | [] => logEntry (DebugPassed crit);; ret true
              | (k, v) :: fields' =>
                  if defined v then
                    r ← switchField isItemValue item k v;
                    match r with
                    | FieldFailed => ret false
                    | FieldDone => eachKey fields'
                    end
                  else eachKey fields'
              end) crit;
         if pass : bool then ret true else eachCrit rest
     end) crits s = anyState item crits s.
Proof.
  revert s. induction crits as [|crit crits IH]; intros s; [done|].
  cbn [anyState]. rewrite !bind_run.
  rewrite eachKey_checkState.
  destruct (checkState item crit crit s) as [[[]|e] s1]; [done|apply IH|done].
Qed.

Lemma isItem_cons item crit rest s :
  isItem item (crit :: rest) s = anyState item (crit :: rest) s.
Proof. exact (eachCrit_anyState item (crit :: rest) s). Qed.

Lemma checkState_app item crit pre rest s s1 :
  fieldsMatch item pre s s1 ->
  checkState item crit (pre ++ rest) s = checkState item crit rest s1.
Proof.
  induction 1 as [s|k v fields s s' Hv _ IH|k v fields s s1 s2 Hv Hk _ IH]; [done|..].
  - cbn. by rewrite Hv.
  - cbn. rewrite Hv. rewrite !bind_run. by rewrite Hk.
Qed.

Lemma anyState_app item pre rest s s1 :
  statesFail item pre s s1 ->
  anyState item (pre ++ rest) s = anyState item rest s1.
Proof.
  induction 1 as [s|crit crits s s1 s2 Hc _ IH]; [done|].
  cbn. rewrite !bind_run. by rewrite Hc.
Qed.

Lemma checkState_true item crit fields s s' :
  checkState item crit fields s = (Ok true, s') <->
  exists s1, fieldsMatch item fields s s1 /\ s' = logged (DebugPassed crit) s1.
Proof.
  split.
  - revert s. induction fields as [|[k v] fields IH]; intros s; cbn.
    + run. intros [= <-]. exists s. split; [constructor|done].
    + destruct (defined v) eqn:Hv.
      * rewrite !bind_run.
        destruct (switchField isItemValue item k v s) as [[[]|e] s1] eqn:Hk; [done| |done].
        intros (s2 & Hm & ->)%IH. exists s2. split; [|done].
        by eapply fieldsMatch_declared.
      * intros (s2 & Hm & ->)%IH. exists s2. split; [|done].
        by eapply fieldsMatch_undeclared.
  - intros (s1 & Hm & ->).
    rewrite <- (app_nil_r fields), (checkState_app _ _ _ _ _ _ Hm). reflexivity.
Qed.

Lemma checkState_false item crit fields s s' :
  checkState item crit fields s = (Ok false, s') <->
  exists pre k v post s1,
    fields = pre ++ (k, v) :: post /\ fieldsMatch item pre s s1 /\
    defined v = true /\ switchField isItemValue item k v s1 = (Ok FieldFailed, s').
Proof.
  split.
  - revert s. induction fields as [|[k v] fields IH]; intros s; cbn; [by run|].
    destruct (defined v) eqn:Hv.
    + rewrite !bind_run.
      destruct (switchField isItemValue item k v s) as [[[]|e] s1] eqn:Hk; [| |done].
      * run. intros [= <-]. exists [], k, v, fields, s. split_and!; [done|constructor|done..].
      * intros (pre & k' & v' & post & s2 & -> & Hm & Hv' & Hk')%IH.
        exists ((k, v) :: pre), k', v', post, s2. split_and!; [done| |done..].
        by eapply fieldsMatch_declared.
    + intros (pre & k' & v' & post & s2 & -> & Hm & Hv' & Hk')%IH.
      exists ((k, v) :: pre), k', v', post, s2. split_and!; [done| |done..].
      by eapply fieldsMatch_undeclared.
  - intros (pre & k & v & post & s1 & -> & Hm & Hv & Hk).
    rewrite (checkState_app _ _ _ _ _ _ Hm). cbn. rewrite Hv.
    rewrite !bind_run. by rewrite Hk.
Qed.

Lemma anyState_true item crits s s' :
  anyState item crits s = (Ok true, s') <->
  exists pre crit post s1,
    crits = pre ++ crit :: post /\ statesFail item pre s s1 /\
    checkState item crit crit s1 = (Ok true, s').
Proof.
  split.
  - revert s. induction crits as [|crit crits IH]; intros s; cbn; [by run|].
    rewrite !bind_run.
    destruct (checkState item crit crit s) as [[[]|e] s1] eqn:Hc; [| |done].
    + run. intros [= <-]. exists [], crit, crits, s. split_and!; [done|constructor|done].
    + intros (pre & crit' & post & s2 & -> & Hf & Hc')%IH.
      exists (crit :: pre), crit', post, s2. split_and!; [done| |done].
      by eapply statesFail_cons.
  - intros (pre & crit & post & s1 & -> & Hf & Hc).
    rewrite (anyState_app _ _ _ _ _ Hf). cbn.
    rewrite !bind_run. by rewrite Hc.
Qed.

Lemma anyState_false item crits s s' :
  anyState item crits s = (Ok false, s') <-> statesFail item crits s s'.
Proof.
  split.
  - revert s. induction crits as [|crit crits IH]; intros s; cbn.
    + run. intros [= <-]. constructor.
    + rewrite !bind_run.
      destruct (checkState item crit crit s) as [[[]|e] s1] eqn:Hc; [by run| |done].
      intros Hrest%IH. by eapply statesFail_cons.
  - intros Hf. rewrite <- (app_nil_r crits), (anyState_app _ _ _ _ _ Hf). reflexivity.
Qed.

(** *** States that are checked on the activity alone *)

Lemma onlyLogged_refl s : onlyLogged s s.
Proof. split_and!; [done..|]. exists []. by rewrite app_nil_r. Qed.

Lemma onlyLogged_trans s1 s2 s3 : onlyLogged s1 s2 -> onlyLogged s2 s3 -> onlyLogged s1 s3.
Proof.
  intros (? & ? & ? & ? & l1 & Hl1) (? & ? & ? & ? & l2 & Hl2).
  split_and!; [congruence..|]. exists (l1 ++ l2). by rewrite Hl2, Hl1, app_assoc.
Qed.

Lemma onlyLogged_logged e s : onlyLogged s (logged e s).
Proof. split_and!; [done..|]. by exists [e]. Qed.

Lemma switchField_alone check item k v s :
  isComment item = false \/ k <> "submissionState" ->
  exists s',
    switchField check item k v s =
      (Ok (if fieldMatches item k v then FieldDone else FieldFailed), s') /\
    onlyLogged s s'.
Proof.
  intros Halone. unfold switchField, fieldMatches.
  case_bool_decide as Hk.
  { destruct Halone as [->|?]; [|done]. cbn. run. eauto using onlyLogged_logged. }
  repeat case_bool_decide.
  - run. destruct (strictNotEqual _ v); cbn;
      eauto using onlyLogged_logged, onlyLogged_refl.
  - run. destruct (strictNotEqual _ v); cbn;
      eauto using onlyLogged_logged, onlyLogged_refl.
  - run. destruct (strictNotEqual _ v); cbn;
      eauto using onlyLogged_logged, onlyLogged_refl.
  - run. destruct (isComment item); cbn; [eauto using onlyLogged_logged|].
    destruct (title item) as [t|]; [|eauto using onlyLogged_logged].
    destruct (regexMatch (patternOf v) t) as [[]|];
      eauto using onlyLogged_logged, onlyLogged_refl.
  - run. destruct (props item !! k) as [found|]; [|eauto using onlyLogged_logged].
    destruct (strictNotEqual found v); cbn;
      eauto using onlyLogged_logged, onlyLogged_refl.
Qed.

Lemma checkState_alone item crit fields s :
  checkedAlone item fields ->
  exists s',
    checkState item crit fields s = (Ok (stateMatches item fields), s') /\
    onlyLogged s s'.
Proof.
  intros Halone. revert s.
  induction fields as [|[k v] fields IH]; intros s.
  { cbn. run. eauto using onlyLogged_logged. }
  assert (checkedAlone item fields) as Hrest.
  { destruct Halone as [?|Hf]; [by left|right]. by apply Forall_cons in Hf as [_ ?]. }
  specialize (IH Hrest). cbn [checkState stateMatches forallb fst snd].
  destruct (defined v) eqn:Hv; cbn [negb orb]; [|apply IH].
  rewrite bind_run.
  destruct (switchField_alone isItemValue item k v s) as (s1 & -> & Hs1).
  { destruct Halone as [?|Hf]; [by left|right].
    apply Forall_cons in Hf as [[?|?] _]; [done|cbn in *; congruence]. }
  destruct (fieldMatches item k v); cbn [andb].
  - destruct (IH s1) as (s2 & -> & Hs2). eauto using onlyLogged_trans.
  - run. eauto.
Qed.

Lemma anyState_alone item crits s :
  Forall (checkedAlone item) crits ->
  exists s',
    anyState item crits s = (Ok (existsb (stateMatches item) crits), s') /\
    onlyLogged s s'.
Proof.
  intros Halone. revert s.
  induction Halone as [|crit crits Hcrit _ IH]; intros s.
  { cbn. run. eauto using onlyLogged_refl. }
  cbn [anyState existsb]. rewrite bind_run.
  destruct (checkState_alone item crit crit s Hcrit) as (s1 & -> & Hs1).
  destruct (stateMatches item crit); cbn [orb].
  - run. eauto.
  - destruct (IH s1) as (s2 & -> & Hs2). eauto using onlyLogged_trans.
Qed.

(** ** C8 *)

(** C8. [isItem] answers [true] for the empty list without touching the
    world.  For a list that is not empty it answers [true] exactly when
    some state passes after the states before it have failed, each
    checked in the world its predecessors left, and the world it leaves
    is the one that state left: the states after it are not looked at.
    It answers [false] exactly when all states fail in turn.  A state
    passes exactly when its declared fields, tested in the order of its
    keys, all match, and fails exactly when a declared field fails after
    the fields before it matched; the world is then the one the failing
    field left: the fields after it are not looked at.  When no state
    needs the submission of a comment, the answer is the disjunction over
    the states of the conjunction over their declared fields
    ([stateMatches]), [true] for the empty list, and only the log
    grows. *)
Theorem isItem_any_of_all item :
  (forall s, isItem item [] s = (Ok true, s)) /\
  (forall crits s s', crits <> [] ->
     (isItem item crits s = (Ok true, s') <->
        exists pre crit post s1,
          crits = pre ++ crit :: post /\ statesFail item pre s s1 /\
          checkState item crit crit s1 = (Ok true, s')) /\
     (isItem item crits s = (Ok false, s') <-> statesFail item crits s s')) /\
  (forall crit s s',
     (checkState item crit crit s = (Ok true, s') <->
        exists s1, fieldsMatch item crit s s1 /\ s' = logged (DebugPassed crit) s1) /\
     (checkState item crit crit s = (Ok false, s') <->
        exists pre k v post s1,
          crit = pre ++ (k, v) :: post /\ fieldsMatch item pre s s1 /\
          defined v = true /\
          switchField isItemValue item k v s1 = (Ok FieldFailed, s'))) /\
  (forall crits s, Forall (checkedAlone item) crits ->
     exists s',
       isItem item crits s =
         (Ok (bool_decide (crits = []) || existsb (stateMatches item) crits), s') /\
       onlyLogged s s').
Proof.
  split_and!.
  - apply isItem_nil.
  - intros [|crit rest] s s' Hne; [done|]. rewrite !isItem_cons.
    split; [apply anyState_true|apply anyState_false].
  - intros crit s s'. split; [apply checkState_true|apply checkState_false].
  - intros [|crit rest] s Halone.
    + exists s. split; [apply isItem_nil|apply onlyLogged_refl].
    + rewrite isItem_cons. rewrite bool_decide_eq_false_2 by done.
      by apply anyState_alone.
Qed.

(** *** The [title] field *)

Lemma switchField_title check item v s :
  switchField check item "title" v s =
  if isComment item then (Ok FieldDone, logged WarnTitleOnComment s)
  else
    match title item with
    | None => (Ok FieldFailed, logged (ErrorTitleRegex v) s)
    | Some t =>
        match regexMatch (patternOf v) t with
        | Some true => (Ok FieldDone, s)
        | Some false => (Ok FieldFailed, logged (DebugFailedTitle v) s)
        | None => (Ok FieldFailed, logged (ErrorTitleRegex v) s)
        end
    end.
Proof.
  unfold switchField. cbn [bool_decide decide_rel].
  rewrite !bool_decide_eq_false_2 by done. rewrite bool_decide_eq_true_2 by done.
  destruct (isComment item); [done|].
  destruct (title item) as [t|]; [|done].
  by destruct (regexMatch (patternOf v) t) as [[]|].
Qed.

(** ** C9 *)

(** C9. On a submission, the value of a [title] field is the pattern its
    title is matched against: the field matches when the engine finds a
    match, fails with a debug line when it finds none, and fails with an
    error line, nothing being thrown, when the pattern does not compile.
    In that last case a state with this field, whose earlier fields
    matched, fails, and [isItem] goes on with the states after it. *)
Theorem title_is_a_pattern item p t :
  isComment item = false ->
  title item = Some t ->
  (forall s,
     switchField isItemValue item "title" (CStr p) s =
     match regexMatch p t with
     | Some true => (Ok FieldDone, s)
     | Some false => (Ok FieldFailed, logged (DebugFailedTitle (CStr p)) s)
     | None => (Ok FieldFailed, logged (ErrorTitleRegex (CStr p)) s)
     end) /\
  (regexMatch p t = None ->
   forall pre post rest s s1,
     fieldsMatch item pre s s1 ->
     isItem item ((pre ++ ("title", CStr p) :: post) :: rest) s =
     anyState item rest (logged (ErrorTitleRegex (CStr p)) s1)).
Proof.
  intros Hc Ht.
  assert (forall s,
     switchField isItemValue item "title" (CStr p) s =
     match regexMatch p t with
     | Some true => (Ok FieldDone, s)
     | Some false => (Ok FieldFailed, logged (DebugFailedTitle (CStr p)) s)
     | None => (Ok FieldFailed, logged (ErrorTitleRegex (CStr p)) s)
     end) as Hfield.
  { intros s. by rewrite switchField_title, Hc, Ht. }
  split; [done|].
  intros Hbad pre post rest s s1 Hpre.
  rewrite isItem_cons. cbn [anyState]. rewrite !bind_run.
  assert (checkState item (pre ++ ("title", CStr p) :: post)
            (pre ++ ("title", CStr p) :: post) s =
          (Ok false, logged (ErrorTitleRegex (CStr p)) s1)) as ->; [|done].
  apply checkState_false. exists pre, "title", (CStr p), post, s1.
  split_and!; [done..|]. by rewrite Hfield, Hbad.
Qed.

(** ** C10 *)

(** C10. On a comment, a declared [title] field is skipped with a
    warning, whatever its value, so a state that declares nothing else
    passes. *)
Theorem title_skipped_on_comment item v :
  isComment item = true ->
  defined v = true ->
  (forall s,
     switchField isItemValue item "title" v s = (Ok FieldDone, logged WarnTitleOnComment s)) /\
  (forall s,
     isItem item [[("title", v)]] s =
     (Ok true, logged (DebugPassed [("title", v)]) (logged WarnTitleOnComment s))).
Proof.
  intros Hc Hv.
  assert (forall s, switchField isItemValue item "title" v s =
                    (Ok FieldDone, logged WarnTitleOnComment s)) as Hfield.
  { intros s. by rewrite switchField_title, Hc. }
  split; [done|]. intros s. rewrite isItem_cons. cbn [anyState].
  rewrite !bind_run.
  assert (checkState item [("title", v)] [("title", v)] s =
          (Ok true, logged (DebugPassed [("title", v)]) (logged WarnTitleOnComment s))) as ->;
    [|done].
  apply checkState_true. eexists. split; [|done].
  eapply fieldsMatch_declared; [done|apply Hfield|constructor].
Qed.

End Facts.

(** *** Sample runs *)

(** Two calls for one submission, its category off: one fetch. *)
Lemma disabled_submission_is_cached_witness :
  exists s1 s2,
    getActivity sampleSubmission (emptyWorld submissionsOff) =
      (Ok (VActivity fetchedSubmission), s1) /\
    getActivity sampleSubmission s1 = (Ok (VActivity fetchedSubmission), s2) /\
    fetched s2 = [sampleSubmission].
Proof.
  destruct (disabled_submission_is_cached (H := samplePlatform)
              sampleSubmission fetchedSubmission 60
              (emptyWorld submissionsOff) eq_refl eq_refl eq_refl eq_refl eq_refl)
    as (H1 & _ & H2 & H3).
  eexists _, _. split_and!; [exact H1|exact H2|exact H3].
Defined.

(** The same resource and a comment, with the comments' category off
    too: every call fetches. *)
Example disabled_comment_fetches_twice :
  let off := {| res_name := "sub"; cacheSettingsHash := "default"; cache := 0;
                cacheType := "memory"; prefix := None;
                authorTTL := TTLSeconds 60; wikiTTL := TTLSeconds 300;
                submissionTTL := TTLFalse; commentTTL := TTLFalse;
                filterCriteriaTTL := TTLSeconds 60;
                footer := FooterFalse; stats := cacheStats |} in
  forall r1 s1 r2 s2,
    getActivity sampleComment (emptyWorld off) = (r1, s1) ->
    getActivity sampleComment s1 = (r2, s2) ->
    fetched s2 = [sampleComment; sampleComment] /\ store s2 = ∅.
Proof.
  intros off r1 s1 r2 s2.
  rewrite getActivity_bypass by done. unfold fromSource. cbn. intros [= <- <-].
  rewrite getActivity_bypass by done. unfold fromSource. cbn. by intros [= <- <-].
Qed.

(** Two states: the first fails on its field, the second passes. *)
Lemma isItem_any_of_all_witness :
  isItem sampleSubmission [lockedIs true; lockedIs false] (emptyWorld submissionsOff) =
  (Ok true,
   logged (DebugPassed (lockedIs false))
     (logged (DebugFailedExpected "locked" (CBool true) (PBool false))
        (emptyWorld submissionsOff))).
Proof.
  apply (proj1 (proj1 (proj2 (isItem_any_of_all (H := samplePlatform) sampleSubmission))
                  [lockedIs true; lockedIs false] _ _ ltac:(discriminate))).
  exists [lockedIs true], (lockedIs false), [],
    (logged (DebugFailedExpected "locked" (CBool true) (PBool false))
       (emptyWorld submissionsOff)).
  split_and!; [reflexivity| |vm_compute; reflexivity].
  eapply statesFail_cons; [vm_compute; reflexivity|constructor].
Defined.

(** A pattern that does not compile fails its state; the next state is
    still checked, and passes. *)
Lemma title_is_a_pattern_witness :
  isItem sampleSubmission [[("title", CStr "(")]; lockedIs false] (emptyWorld submissionsOff) =
  (Ok true,
   logged (DebugPassed (lockedIs false))
     (logged (ErrorTitleRegex (CStr "(")) (emptyWorld submissionsOff))).
Proof.
  refine (eq_trans
    (proj2 (title_is_a_pattern (H := samplePlatform) sampleSubmission "(" "Hello"
              eq_refl eq_refl) eq_refl
       [] [] [lockedIs false] (emptyWorld submissionsOff) (emptyWorld submissionsOff)
       (fieldsMatch_nil _ _)) _).
  vm_compute. reflexivity.
Defined.

(** A title that matches, and one that does not. *)
Example title_patterns :
  isItem sampleSubmission [[("title", CStr "Hello")]] (emptyWorld submissionsOff) =
    (Ok true, logged (DebugPassed [("title", CStr "Hello")]) (emptyWorld submissionsOff)) /\
  isItem sampleSubmission [[("title", CStr "Bye")]] (emptyWorld submissionsOff) =
    (Ok false, logged (DebugFailedTitle (CStr "Bye")) (emptyWorld submissionsOff)).
Proof. split; vm_compute; reflexivity. Qed.

(** A comment checked on the state of its submission alone: the
    submission is fetched through [getActivity], checked in the comment's
    place, and the answer is stored under the submission's name. *)
Example comment_checked_through_submission :
  let states := [[("submissionState", CList [[("title", CStr "fetched")]])]] in
  forall r s',
    testItemCriteria sampleComment states (emptyWorld submissionsOff) = (r, s') ->
    r = Ok (VBool true) /\
    fetched s' = [getSubmission "t3_abc"] /\
    value <$> store s' !! "itemCrit-t3_abc-h" = Some (VBool true).
Proof.
  intros states r s'. vm_compute. intros [= <- <-]. split_and!; reflexivity.
Qed.

(** A state with a title only, on a comment. *)
Lemma title_skipped_on_comment_witness :
  isItem sampleComment [[("title", CStr "(")]] (emptyWorld submissionsOff) =
  (Ok true,
   logged (DebugPassed [("title", CStr "(")])
     (logged WarnTitleOnComment (emptyWorld submissionsOff))).
Proof.
  exact (proj2 (title_skipped_on_comment (H := samplePlatform) sampleComment (CStr "(")
                  eq_refl eq_refl)
           (emptyWorld submissionsOff)).
Defined.

End ResourcesSpec.

Module ManagerSpec.
Import Resources Manager.
Section Facts.
Context {StoreOptions : Type} `{Helpers StoreOptions}.
Abbreviation World := (World StoreOptions).
Abbreviation SubredditResourceConfig := (SubredditResourceConfig StoreOptions).

Implicit Types (w : World) (init : SubredditResourceConfig) (subName : string)
  (res : SubredditResources).

(** *** The first half of [set] *)

Lemma prepare_shared subName init w :
  sharesCache init w ->
  (prepare subName init w).1.2 =
    {| o_ttl := ttlDefaults (manager w);
       o_cache := defaultCache (manager w);
       o_cacheType := mgr_cacheType (manager w);
       o_cacheSettingsHash := "default";
       o_prefix := opt_prefix (defaultProvider (manager w));
       o_footer := init_footer init |} /\
  (prepare subName init w).2 = caches w.
Proof.
  unfold sharesCache, requested, prepare. destruct (caching init) as [cfg|]; [|done].
  intros ->. by rewrite bool_decide_eq_true_2.
Qed.

Lemma prepare_owned subName init w p t :
  ownsCache init w p t ->
  prepare subName init w =
    (hashCacheConfig p t,
     {| o_ttl := t;
        o_cache := length (caches w);
        o_cacheType := opt_store p;
        o_cacheSettingsHash := hashCacheConfig p t;
        o_prefix := subPrefixOf (manager w) subName p;
        o_footer := init_footer init |},
     caches w ++ [∅]).
Proof.
  unfold ownsCache, requested, prepare. destruct (caching init) as [cfg|]; [|by intros [? _]].
  intros [[= <- <-] Hne]. by rewrite bool_decide_eq_false_2.
Qed.

(** [set] asks for a cache of its own or for the shared one. *)
Lemma owns_or_shares init w :
  (exists p t, ownsCache init w p t) \/ sharesCache init w.
Proof.
  unfold ownsCache, sharesCache. destruct (requested init w) as [[p t]|]; [|by right].
  destruct (decide (hashCacheConfig p t = cacheHash (manager w))); [by right|].
  left. by exists p, t.
Qed.

(** The stores that exist when [set] is called are still there after
    its first half, entries included. *)
Lemma prepare_keeps_stores subName init w ref st :
  caches w !! ref = Some st -> (prepare subName init w).2 !! ref = Some st.
Proof.
  intros Hst. destruct (owns_or_shares init w) as [(p & t & Ho)|Hs].
  - rewrite (prepare_owned _ _ _ _ _ Ho). cbn. by apply lookup_app_l_Some.
  - by rewrite (proj2 (prepare_shared subName _ _ Hs)).
Qed.

Lemma prepare_footer subName init w :
  o_footer (prepare subName init w).1.2 = init_footer init.
Proof.
  destruct (owns_or_shares init w) as [(p & t & Ho)|Hs].
  - by rewrite (prepare_owned _ _ _ _ _ Ho).
  - by rewrite (proj1 (prepare_shared subName _ _ Hs)).
Qed.

(** ** C4 *)

(** C4, as the code has it.  When [set] is called for a subreddit that
    has a resource [res], the resource it returns is the one the manager
    then holds, with fresh statistics.  If the hash stored in [res] is the
    hash of the call, the cache settings of [res] are kept, the footer is
    the only other field that may change, and every store that existed,
    the one of [res] among them, keeps its entries.  If the hashes differ,
    the store of [res] loses its entries and a new resource is built:
    with a store created for it, empty, under the prefix [subPrefixOf]
    (derived from the shared prefix and the name of the subreddit when
    the provider has the shared prefix), when the subreddit asks for
    settings whose hash is not the shared one; and on the shared store,
    under the shared prefix and the hash ["default"], when it asks for
    none or for the shared ones. *)
Theorem set_keeps_or_rebuilds subName init w res :
  get subName w = Some res ->
  get subName (set subName init w).2 = Some (set subName init w).1 /\
  stats (set subName init w).1 = cacheStats /\
  (cacheSettingsHash res = settingsHash subName init w ->
     sameCacheSettings (set subName init w).1 res /\
     footer (set subName init w).1 =
       (if bool_decide (init_footer init = Some (footer res)) then footer res
        else footerOrDefault (init_footer init)) /\
     (forall ref st, caches w !! ref = Some st ->
        caches (set subName init w).2 !! ref = Some st)) /\
  (cacheSettingsHash res <> settingsHash subName init w ->
     (is_Some (caches w !! cache res) ->
        caches (set subName init w).2 !! cache res = Some ∅) /\
     (forall p t, ownsCache init w p t ->
        caches w !! cache (set subName init w).1 = None /\
        caches (set subName init w).2 !! cache (set subName init w).1 = Some ∅ /\
        prefix (set subName init w).1 = subPrefixOf (manager w) subName p /\
        cacheSettingsHash (set subName init w).1 = settingsHash subName init w) /\
     (sharesCache init w ->
        cache (set subName init w).1 = defaultCache (manager w) /\
        prefix (set subName init w).1 = opt_prefix (defaultProvider (manager w)) /\
        cacheSettingsHash (set subName init w).1 = "default" /\
        (cache res <> defaultCache (manager w) ->
           caches (set subName init w).2 !! defaultCache (manager w) =
           caches w !! defaultCache (manager w)))).
Proof.
  intros Hres. unfold settingsHash.
  pose proof (prepare_keeps_stores subName init w) as Hkeep.
  pose proof (prepare_owned subName init w) as Howned.
  pose proof (prepare_shared subName init w) as Hshared.
  pose proof (prepare_footer subName init w) as Hfooter.
  unfold set. rewrite Hres.
  destruct (prepare subName init w) as [[hash opts] stores] eqn:Hprep. cbn [fst snd] in *.
  split_and!.
  - case_bool_decide; cbn; unfold get; cbn; apply lookup_insert_eq.
  - by case_bool_decide.
  - intros Heq. rewrite bool_decide_eq_true_2 by done. cbn.
    split_and!; [by repeat split|by rewrite Hfooter|done].
  - intros Hne. rewrite bool_decide_eq_false_2 by done. cbn. split_and!.
    + intros [st Hst]. unfold reset. apply list_lookup_insert_eq.
      apply lookup_lt_Some with st. by apply Hkeep.
    + intros p t Ho. specialize (Howned p t Ho). injection Howned as -> -> ->. cbn.
      split_and!; [|  |done|done].
      * apply lookup_ge_None. lia.
      * unfold reset. destruct (decide (cache res = length (caches w))) as [->|Hc].
        -- apply list_lookup_insert_eq. rewrite length_app. cbn. lia.
        -- rewrite list_lookup_insert_ne by done.
           rewrite lookup_app_r by lia. by rewrite Nat.sub_diag.
    + intros Hs. destruct (Hshared Hs) as [-> ->]. cbn.
      split_and!; [done..|]. intros Hc. unfold reset. by rewrite list_lookup_insert_ne.
Qed.

End Facts.

(** *** Sample calls *)

(** The first call builds store number 1 for the subreddit; a second call
    with the same settings keeps the resource and both stores. *)
Lemma set_keeps_or_rebuilds_witness :
  cache (set "pics" ownSettings ownWorld).1 = 1 /\
  prefix (set "pics" ownSettings ownWorld).1 = Some "bot::pics" /\
  caches (set "pics" ownSettings ownWorld).2 !! 0 =
    Some {[ "itemCrit-t3_abc-h" := sampleEntry ]}.
Proof.
  assert (get "pics" ownWorld = Some (set "pics" ownSettings sampleWorld).1) as Hres
    by (vm_compute; reflexivity).
  assert (cacheSettingsHash (set "pics" ownSettings sampleWorld).1 =
          settingsHash "pics" ownSettings ownWorld) as Hsame
    by (vm_compute; reflexivity).
  destruct (set_keeps_or_rebuilds (H := sampleHelpers) "pics" ownSettings ownWorld
              (set "pics" ownSettings sampleWorld).1 Hres)
    as (_ & _ & Hkeep & _).
  destruct (Hkeep Hsame) as ((Hcache & _ & _ & Hprefix & _) & _ & Hstores).
  split_and!.
  - rewrite Hcache. vm_compute. reflexivity.
  - rewrite Hprefix. vm_compute. reflexivity.
  - apply Hstores. vm_compute. reflexivity.
Defined.

(** The subreddit then drops its [caching] section: the hash changes, and
    the resource built for it is on the shared store, which is not empty,
    under the shared prefix. *)
Lemma changed_hash_shared_store :
  cacheSettingsHash (set "pics" ownSettings sampleWorld).1 <>
    settingsHash "pics" sharedSettings ownWorld /\
  cache (set "pics" sharedSettings ownWorld).1 = defaultCache (manager ownWorld) /\
  caches (set "pics" sharedSettings ownWorld).2 !! cache (set "pics" sharedSettings ownWorld).1 =
    Some {[ "itemCrit-t3_abc-h" := sampleEntry ]} /\
  prefix (set "pics" sharedSettings ownWorld).1 = Some "bot:SHARED".
Proof. split_and!; [vm_compute; discriminate|vm_compute; reflexivity..]. Qed.

End ManagerSpec.

(* ================================================================== *)
(** * Part III: further properties                                     *)
(* ================================================================== *)

Module RuleSetMore.
Import RuleSet.
Section Facts.
Context {Item RuleResult Thrown : Type}.
Abbreviation Rule := (Rule Item RuleResult Thrown).
Abbreviation Slot := (@Slot RuleResult).

Implicit Types (r : Rule) (rs pre post : list Rule) (item : Item)
  (existing results acc : list Slot) (outs : list (option bool * Slot)).

(** X1. When every child resolves and none stops the loop, the run
    returns the result of every child, in order, and its flag says
    whether some child was applicable: the statement after the loop does
    not look at the operand. *)
Theorem run_to_the_end cond item existing rs outs :
  evaluated item existing [] rs outs ->
  Forall (fun o => o.1 <> Some (stop_value cond)) outs ->
  run {| rules := rs; condition := cond |} item existing =
  Ok (bool_decide (applicable outs <> []), outs.*2).
Proof.
  intros Hev Hns. unfold run. cbn [rules condition].
  rewrite <- (app_nil_r rs), (RuleSetSpec.run_loop_app _ _ _ _ _ _ _ _ Hev Hns). cbn.
  by case_bool_decide.
Qed.

(** X2. A child that rejects, after children that resolved without
    stopping the loop, rejects the run with what it threw; the children
    after it are not run and no result is returned. *)
Theorem run_rejects cond item existing pre r post outs e :
  evaluated item existing [] pre outs ->
  Forall (fun o => o.1 <> Some (stop_value cond)) outs ->
  rule_run r item (existing ++ outs.*2) = Err e ->
  run {| rules := pre ++ r :: post; condition := cond |} item existing = Err e.
Proof.
  intros Hev Hns Hr. unfold run. cbn [rules condition].
  rewrite (RuleSetSpec.run_loop_app _ _ _ _ _ _ _ _ Hev Hns). cbn. by rewrite Hr.
Qed.

Lemma run_loop_inv cond item existing rs acc runOne t results :
  run_loop cond item existing rs acc runOne = Ok (t, results) ->
  (exists pre r post outs out,
     rs = pre ++ r :: post /\
     evaluated item existing acc pre outs /\
     Forall (fun o => o.1 <> Some (stop_value cond)) outs /\
     rule_run r item (existing ++ acc ++ outs.*2) = Ok (Some (stop_value cond), out) /\
     t = stop_value cond /\
     results = acc ++ outs.*2 ++ [first_result out]) \/
  (exists outs,
     evaluated item existing acc rs outs /\
     Forall (fun o => o.1 <> Some (stop_value cond)) outs /\
     t = (runOne || bool_decide (applicable outs <> [])) /\
     results = acc ++ outs.*2).
Proof.
  revert acc runOne. induction rs as [|r rs IH]; intros acc runOne; cbn.
  - intros Hrun. right. exists []. split_and!; [constructor|constructor| |].
    + rewrite orb_false_r. by destruct runOne; injection Hrun as <- <-.
    + rewrite app_nil_r. by destruct runOne; injection Hrun as <- <-.
  - destruct (rule_run r item (existing ++ acc)) as [[passed out]|e] eqn:Hr; [|done].
    assert (forall runOne',
      passed <> Some (stop_value cond) ->
      runOne' = (runOne || bool_decide (is_Some passed)) ->
      run_loop cond item existing rs (acc ++ [first_result out]) runOne' = Ok (t, results) ->
      (exists pre r0 post outs out0,
         r :: rs = pre ++ r0 :: post /\
         evaluated item existing acc pre outs /\
         Forall (fun o => o.1 <> Some (stop_value cond)) outs /\
         rule_run r0 item (existing ++ acc ++ outs.*2) = Ok (Some (stop_value cond), out0) /\
         t = stop_value cond /\
         results = acc ++ outs.*2 ++ [first_result out0]) \/
      (exists outs,
         evaluated item existing acc (r :: rs) outs /\
         Forall (fun o => o.1 <> Some (stop_value cond)) outs /\
         t = (runOne || bool_decide (applicable outs <> [])) /\
         results = acc ++ outs.*2)) as Hgo.
    { intros runOne' Hp -> Hrest.
      destruct (IH _ _ Hrest) as
        [(pre & r0 & post & outs & out0 & -> & Hev & Hns & Hr0 & -> & ->)
        |(outs & Hev & Hns & -> & ->)].
      - left. exists (r :: pre), r0, post, ((passed, first_result out) :: outs), out0.
        split_and!; [done|by econstructor|by constructor| |done|].
        + cbn. by rewrite <- app_assoc in Hr0.
        + cbn. by rewrite <- app_assoc.
      - right. exists ((passed, first_result out) :: outs).
        split_and!; [by econstructor|by constructor| |].
        + unfold applicable. cbn. destruct passed as [b|]; cbn.
          * by rewrite !orb_true_r.
          * by rewrite orb_false_r.
        + cbn. by rewrite <- app_assoc. }
    destruct passed as [[]|], cond; cbn.
    + apply Hgo; [done|]. by rewrite bool_decide_eq_true_2, orb_true_r by eauto.
    + intros [= <- <-]. left. exists [], r, rs, [], out.
      split_and!; [done|constructor|constructor| |done|done].
      cbn. by rewrite app_nil_r.
    + intros [= <- <-]. left. exists [], r, rs, [], out.
      split_and!; [done|constructor|constructor| |done|done].
      cbn. by rewrite app_nil_r.
    + apply Hgo; [done|]. by rewrite bool_decide_eq_true_2, orb_true_r by eauto.
    + apply Hgo; [done|].
      by rewrite (bool_decide_eq_false_2 (is_Some None)), orb_false_r by (by intros [? ?]).
    + apply Hgo; [done|].
      by rewrite (bool_decide_eq_false_2 (is_Some None)), orb_false_r by (by intros [? ?]).
Qed.

(** X3. What a returned result tells.  Either the run stopped at a
    child: the children before it resolved without a stopping outcome,
    it resolved with the stopping outcome, the flag is that outcome and
    the results are theirs and its own.  Or every child was run, none
    with a stopping outcome, the results are all of theirs and the flag
    says whether some child was applicable.  In both cases there is one
    result per child that was run, and never more results than rules. *)
Theorem run_result_inv cond item existing rs t results :
  run {| rules := rs; condition := cond |} item existing = Ok (t, results) ->
  length results <= length rs /\
  ((exists pre r post outs out,
      rs = pre ++ r :: post /\
      evaluated item existing [] pre outs /\
      Forall (fun o => o.1 <> Some (stop_value cond)) outs /\
      rule_run r item (existing ++ outs.*2) = Ok (Some (stop_value cond), out) /\
      t = stop_value cond /\
      results = outs.*2 ++ [first_result out]) \/
   (exists outs,
      evaluated item existing [] rs outs /\
      Forall (fun o => o.1 <> Some (stop_value cond)) outs /\
      t = bool_decide (applicable outs <> []) /\
      results = outs.*2)).
Proof.
  unfold run. cbn [rules condition]. intros Hrun.
  assert (forall acc rs' outs, evaluated item existing acc rs' outs ->
            length outs = length rs') as Hlen.
  { intros acc rs' outs Hev. induction Hev; cbn; congruence. }
  destruct (run_loop_inv _ _ _ _ _ _ _ _ Hrun) as
    [(pre & r & post & outs & out & -> & Hev & Hns & Hr & -> & ->)
    |(outs & Hev & Hns & -> & ->)]; cbn in *.
  - split.
    + rewrite !length_app, length_fmap, (Hlen _ _ _ Hev). cbn. lia.
    + left. exists pre, r, post, outs, out. by split_and!.
  - split.
    + rewrite length_fmap, (Hlen _ _ _ Hev). lia.
    + right. exists outs. by split_and!.
Qed.

(** X4. Under AND a run returns [true] only if every child was run, no
    applicable child failed and at least one child was applicable. *)
Theorem and_true_means_all_ran item existing rs results :
  run {| rules := rs; condition := AND |} item existing = Ok (true, results) ->
  exists outs,
    evaluated item existing [] rs outs /\
    results = outs.*2 /\
    length results = length rs /\
    Forall (fun o => o.1 <> Some false) outs /\
    exists o, o ∈ outs /\ o.1 = Some true.
Proof.
  unfold run. cbn [rules condition]. intros Hrun.
  destruct (run_loop_inv _ _ _ _ _ _ _ _ Hrun) as
    [(pre & r & post & outs & out & -> & Hev & Hns & Hr & Ht & ->)
    |(outs & Hev & Hns & Ht & ->)]; cbn in *; [done|].
  exists outs. split_and!; [done|done| |done|].
  - rewrite length_fmap. clear -Hev. induction Hev; cbn; congruence.
  - symmetry in Ht. apply bool_decide_eq_true in Ht.
    clear -Ht Hns. unfold applicable in Ht.
    induction Hns as [|[p x] outs Hp _ IH]; [done|]. cbn in *.
    destruct p as [[]|]; cbn in *.
    + exists (Some true, x). split; [by left|done].
    + done.
    + destruct (IH Ht) as (o & Ho & Hot). exists o. split; [by right|done].
Qed.

End Facts.

(** A rule that throws after a rule that does not stop the loop. *)
Lemma run_rejects_witness :
  run {| rules := [constant (Some true) 1] ++ {| rule_run := fun _ _ => Err tt |} :: [];
         condition := AND |} tt [] = Err tt.
Proof.
  apply (run_rejects AND tt [] [constant (Some true) 1] {| rule_run := fun _ _ => Err tt |}
           [] [(Some true, Some 1)] tt).
  - apply (evaluated_cons tt [] [] (constant (Some true) 1) [] (Some true) [Some 1] []);
      [reflexivity|apply evaluated_nil].
  - repeat constructor. cbn. discriminate.
  - reflexivity.
Defined.

(** OR over children that all fail runs to the end. *)
Lemma run_to_the_end_witness :
  run {| rules := [constant (Some false) 1; constant None 2]; condition := OR |} tt [] =
  Ok (true, [Some 1; Some 2]).
Proof.
  apply (run_to_the_end OR tt [] _ [(Some false, Some 1); (None, Some 2)]).
  - apply (evaluated_cons tt [] [] (constant (Some false) 1) _ (Some false) [Some 1] _);
      [reflexivity|].
    apply (evaluated_cons tt [] [Some 1] (constant None 2) _ None [Some 2] _);
      [reflexivity|apply evaluated_nil].
  - repeat constructor; cbn; discriminate.
Defined.

(** AND over [true, not applicable]: every child was run. *)
Lemma run_result_inv_witness :
  length [Some 1; Some 2] <= length [constant (Some true) 1; constant None 2].
Proof.
  exact (proj1 (run_result_inv AND tt [] [constant (Some true) 1; constant None 2]
                  true [Some 1; Some 2] eq_refl)).
Defined.

Lemma and_true_means_all_ran_witness :
  exists outs,
    evaluated tt [] [] [constant (Some true) 1; constant None 2] outs /\
    [Some 1; Some 2] = outs.*2 /\
    length [Some 1; Some 2] = length [constant (Some true) 1; constant None 2] /\
    Forall (fun o => o.1 <> Some false) outs /\
    exists o, o ∈ outs /\ o.1 = Some true.
Proof.
  exact (and_true_means_all_ran tt [] [constant (Some true) 1; constant None 2]
           [Some 1; Some 2] eq_refl).
Defined.

End RuleSetMore.

Module ConfigBuilderMore.
Import ConfigBuilder ConfigBuilderSpec.

(** X5. [buildPollingOptions] returns one option per entry, in order and
    for the same thing to poll, and building again from what it returned
    changes nothing. *)
Theorem buildPollingOptions_stable (values : list PollingValue) :
  strongPollOn <$> buildPollingOptions values = pollOnOf <$> values /\
  buildPollingOptions (asPollingValue <$> buildPollingOptions values) =
  buildPollingOptions values.
Proof.
  induction values as [|[v|v] values [IH1 IH2]]; [done|..]; cbn; by rewrite IH1, IH2.
Qed.

Section Facts.
Context {Body CheckRest : Type} `{EqDecision Body} `{Casing}.
Abbreviation ObjectJson := (ObjectJson Body).
Abbreviation RuleJson := (RuleJson Body).
Abbreviation ActionJson := (ActionJson Body).
Abbreviation Registry := (Registry Body).
Abbreviation CheckJson := (CheckJson Body CheckRest).

Implicit Types (o a b : ObjectJson) (m named : Registry) (os toAdd : list ObjectJson)
  (k n : string) (normal : string -> string) (r : RuleJson) (rules : list RuleJson).

(** *** What insertion returns *)

Lemma resolvedRule_no_refs m r : forall r', resolvedRule m r r' -> ruleRefsOf r' = [].
Proof.
  induction r as [ref|rule|cond rules IH] using RuleJson_nested_ind; intros r' Hres.
  - by inversion Hres.
  - by inversion Hres.
  - inversion Hres as [| |? ? strong Hstrong]; subst. cbn. clear Hres.
    revert strong Hstrong. induction IH as [|r rules Hr _ IHrules]; intros strong Hstrong.
    + apply Forall2_nil_inv_l in Hstrong. by subst.
    + apply Forall2_cons_inv_l in Hstrong as (x & t & Hx & Ht & ->). cbn.
      by rewrite (Hr _ Hx), (IHrules _ Ht).
Qed.

Lemma resolvedRules_no_refs m rules strong :
  Forall2 (resolvedRule m) rules strong -> flat_map ruleRefsOf strong = [].
Proof.
  induction 1 as [|r r' rules strong Hr _ IH]; [done|]. cbn.
  by rewrite (resolvedRule_no_refs _ _ _ Hr), IH.
Qed.

Lemma resolvedActions_no_refs m (actions strong : list ActionJson) :
  Forall2 (resolvedAction m) actions strong -> flat_map actionRefsOf strong = [].
Proof.
  induction 1 as [|a a' actions strong Ha _ IH]; [done|]. cbn.
  by inversion Ha; subst.
Qed.

(** The named objects of a resolved entry are named objects of the entry
    or entries of the registry. *)
Lemma resolvedRule_named normal os m r :
  registryOf normal os m ->
  forall r' o, resolvedRule m r r' -> o ∈ namedRulesOf r' -> o ∈ namedRulesOf r \/ o ∈ os.
Proof.
  intros Hreg.
  induction r as [ref|rule|cond rules IH] using RuleJson_nested_ind; intros r' o Hres Ho.
  - inversion Hres as [? found Hget| |]; subst. right. cbn in Ho.
    destruct (name found); [|by apply elem_of_nil in Ho].
    apply list_elem_of_singleton in Ho as ->.
    by destruct (registryOf_key _ _ _ _ _ Hreg Hget).
  - inversion Hres; subst. by left.
  - inversion Hres as [| |? ? strong Hstrong]; subst. cbn in Ho |- *. clear Hres.
    revert strong Hstrong Ho. induction IH as [|r rules Hr _ IHrules]; intros strong Hstrong Ho.
    + apply Forall2_nil_inv_l in Hstrong. subst. by apply elem_of_nil in Ho.
    + apply Forall2_cons_inv_l in Hstrong as (x & t & Hx & Ht & ->). cbn in Ho |- *.
      apply elem_of_app in Ho as [Ho|Ho].
      * destruct (Hr _ _ Hx Ho) as [?|?]; [left|by right]. apply elem_of_app. by left.
      * destruct (IHrules _ Ht Ho) as [?|?]; [left|by right]. apply elem_of_app. by right.
Qed.

Lemma resolvedRules_named normal os m rules strong o :
  registryOf normal os m ->
  Forall2 (resolvedRule m) rules strong ->
  o ∈ namedRulesIn strong -> o ∈ namedRulesIn rules \/ o ∈ os.
Proof.
  intros Hreg Hres. unfold namedRulesIn.
  induction Hres as [|r r' rules strong Hr _ IH]; cbn; [by intros ?%elem_of_nil|].
  intros [Ho|Ho]%elem_of_app.
  - destruct (resolvedRule_named _ _ _ _ Hreg _ _ Hr Ho) as [?|?]; [left|by right].
    apply elem_of_app. by left.
  - destruct (IH Ho) as [?|?]; [left|by right]. apply elem_of_app. by right.
Qed.

Section Parse.
Variable normalizeName : string -> string.
Variable isActionJson : ObjectJson -> bool.

Local Abbreviation R := (@namedRulesOfChecks Body CheckRest).
Local Abbreviation A := (@namedActionsOfChecks Body CheckRest isActionJson).
Local Abbreviation ruleConflict := (nameConflict normalizeName RuleNameConflict).
Local Abbreviation actionConflict := (nameConflict toLowerCase ActionNameConflict).
Local Abbreviation parse := (@parseToStructured Body CheckRest _ _ normalizeName isActionJson).

Lemma resolvedActions_named os m (actions strong : list ActionJson) o :
  registryOf toLowerCase os m ->
  (forall x, x ∈ os -> isActionJson x = true) ->
  Forall2 (resolvedAction m) actions strong ->
  o ∈ namedActionsIn isActionJson strong ->
  o ∈ namedActionsIn isActionJson actions \/ o ∈ os.
Proof.
  intros Hreg Hos Hres. unfold namedActionsIn.
  induction Hres as [|a a' actions strong Ha _ IH]; cbn; [by intros ?%elem_of_nil|].
  intros [Ho|Ho]%elem_of_app.
  - inversion Ha as [ref found Hget|action]; subst.
    + right. destruct (registryOf_key _ _ _ _ _ Hreg Hget) as [Hin _].
      destruct (name found); [|by apply elem_of_nil in Ho].
      destruct (isActionJson found); [|by apply elem_of_nil in Ho].
      by apply list_elem_of_singleton in Ho as ->.
    + left. apply elem_of_app. by left.
  - destruct (IH Ho) as [?|?]; [left|by right]. apply elem_of_app. by right.
Qed.

(** The registries after the first loop. *)
Lemma extractChecks_registries (cs : list CheckJson) : forall osr mr osa ma mr' ma',
  registryOf normalizeName osr mr -> compatible normalizeName osr ->
  registryOf toLowerCase osa ma -> compatible toLowerCase osa ->
  extractChecks normalizeName isActionJson cs mr ma = Ok (mr', ma') ->
  registryOf normalizeName (osr ++ R cs) mr' /\ registryOf toLowerCase (osa ++ A cs) ma'.
Proof.
  induction cs as [|c cs IH]; intros osr mr osa ma mr' ma' Hrr Hcr Hra Hca.
  { cbn. rewrite !app_nil_r. by intros [= <- <-]. }
  unfold namedRulesOfChecks, namedActionsOfChecks in *.
  cbn [flat_map extractChecks].
  destruct (extractNamedRules_spec normalizeName (rulesOf c) osr mr Hrr Hcr)
    as (Rok & _ & _).
  rewrite extractNamedActions_registerAll.
  destruct (extractNamedRules _ _ mr) as [mr1|e1]; [|done].
  destruct (Rok _ eq_refl) as [Hrr1 Hcr1].
  destruct (registerAll _ _ _ ma) as [ma1|e2] eqn:Hact; [|done].
  destruct (registerAll_Ok _ _ _ _ _ _ Hra Hca Hact) as [Hra1 Hca1].
  intros Hrest. rewrite !app_assoc. by eapply IH.
Qed.

Lemma namedActions_guarded (cs : list CheckJson) x :
  x ∈ A cs -> isActionJson x = true.
Proof.
  unfold namedActionsOfChecks, namedActionsIn.
  intros (c & _ & Hx)%list_elem_of_In%in_flat_map.
  apply in_flat_map in Hx as ([ref|a] & _ & Hx); [done|]. cbn in Hx.
  destruct (name a); [|done]. destruct (isActionJson a) eqn:Ha; [|done].
  by destruct Hx as [<-|[]].
Qed.

(** The second loop, check by check. *)
Lemma insertChecks_resolved (cs : list CheckJson) mr ma :
  match insertChecks cs mr ma with
  | Ok out => Forall2 (resolvedCheck mr ma) cs out
  | Err e =>
      exists ref,
        (e = NoNamedRule ref /\ ref ∈ ruleRefsOfChecks cs /\
         map_get (toLowerCase ref) mr = None) \/
        (e = NoNamedAction ref /\ ref ∈ actionRefsOfChecks cs /\
         map_get (toLowerCase ref) ma = None)
  end.
Proof.
  unfold ruleRefsOfChecks, actionRefsOfChecks.
  induction cs as [|c cs IH]; cbn; [constructor|].
  pose proof (insertNamedRules_spec mr (rulesOf c)) as Hr.
  destruct (insertNamedRules (rulesOf c) mr) as [strongRules|e].
  - destruct Hr as [Hr _].
    pose proof (insertNamedActions_spec ma (check_actions c)) as Ha.
    destruct (insertNamedActions (check_actions c) ma) as [strongActions|e].
    + destruct Ha as [Ha _].
      destruct (insertChecks cs mr ma) as [out|e].
      * constructor; [|done]. split_and!; [done|by eexists|done].
      * destruct IH as (ref & [(-> & Hin & Hget)|(-> & Hin & Hget)]); exists ref;
          [left|right]; (split_and!; [done| |done]); apply elem_of_app; by right.
    + destruct Ha as (ref & Hfind & ->). exists ref. right.
      apply find_some in Hfind as [Hin Hun]. split_and!; [done| |by apply unresolved_true].
      apply elem_of_app. left. by apply list_elem_of_In.
  - destruct Hr as (ref & Hfind & ->). exists ref. left.
    apply find_some in Hfind as [Hin Hun]. split_and!; [done| |by apply unresolved_true].
    apply elem_of_app. left. by apply list_elem_of_In.
Qed.

Lemma empty_compatible normal : compatible normal ([] : list ObjectJson).
Proof. by intros a b k ?%elem_of_nil. Qed.

(** A successful parse went through both loops: the first built the
    registries of the whole document, the second resolved against
    them. *)
Lemma parse_Ok_loops (config : JSONConfig Body CheckRest) out :
  parse config = Ok out ->
  exists mr ma,
    registryOf normalizeName (R (default [] (checks config))) mr /\
    registryOf toLowerCase (A (default [] (checks config))) ma /\
    compatible normalizeName (R (default [] (checks config))) /\
    compatible toLowerCase (A (default [] (checks config))) /\
    Forall2 (resolvedCheck mr ma) (default [] (checks config)) out.
Proof.
  unfold parseToStructured. set (cs := default [] (checks config)).
  destruct (extractChecks _ _ cs [] []) as [[mr ma]|e] eqn:Hex; [|done].
  intros Hins. exists mr, ma.
  destruct (extractChecks_registries cs [] [] [] [] mr ma) as [Hr Ha];
    [apply registryOf_empty|apply empty_compatible
    |apply registryOf_empty|apply empty_compatible|done|].
  destruct (extractChecks_spec normalizeName isActionJson cs [] [] [] [])
    as (Hok & _ & _);
    [apply registryOf_empty|apply empty_compatible
    |apply registryOf_empty|apply empty_compatible|].
  destruct (Hok _ _ Hex) as [Hcr Hca].
  split_and!; [done..|].
  pose proof (insertChecks_resolved cs mr ma) as Hres. by rewrite Hins in Hres.
Qed.

(** X6. What a successful [parseToStructured] returns: there are two
    registries, filing the named rules and the named actions of the
    whole document, and the checks returned are the checks given, in
    the same order, each with its rules and actions resolved against
    them.  A reference is so resolved by a definition wherever the
    document has it: in an earlier check, a later one, or a nested
    set. *)
Theorem parseToStructured_resolves (config : JSONConfig Body CheckRest) out :
  parse config = Ok out ->
  exists namedRules namedActions,
    registryOf normalizeName (R (default [] (checks config))) namedRules /\
    registryOf toLowerCase (A (default [] (checks config))) namedActions /\
    Forall2 (resolvedCheck namedRules namedActions) (default [] (checks config)) out.
Proof.
  intros (mr & ma & Hr & Ha & _ & _ & Hres)%parse_Ok_loops. by exists mr, ma.
Qed.

Lemma resolvedChecks_inlined mr ma (cs out : list CheckJson) :
  Forall2 (resolvedCheck mr ma) cs out -> Forall inlinedCheck out.
Proof.
  induction 1 as [|c c' cs out (Hrest & (strong & Hrules & Hr) & Ha) _ IH]; constructor; [|done].
  split_and!.
  - by rewrite Hrules.
  - unfold rulesOf. rewrite Hrules. cbn. by eapply resolvedRules_no_refs.
  - by eapply resolvedActions_no_refs.
Qed.

Lemma resolvedChecks_named mr ma osr osa (cs out : list CheckJson) :
  registryOf normalizeName osr mr -> registryOf toLowerCase osa ma ->
  (forall x, x ∈ osa -> isActionJson x = true) ->
  Forall2 (resolvedCheck mr ma) cs out ->
  (forall o, o ∈ R out -> o ∈ R cs \/ o ∈ osr) /\
  (forall o, o ∈ A out -> o ∈ A cs \/ o ∈ osa).
Proof.
  intros Hrr Hra Hguard. unfold namedRulesOfChecks, namedActionsOfChecks.
  induction 1 as [|c c' cs out (Hrest & (strong & Hrules & Hr) & Ha) _ [IHr IHa]]; cbn.
  { split; by intros o ?%elem_of_nil. }
  split; intros o [Ho|Ho]%elem_of_app.
  - unfold rulesOf at 1 in Ho. rewrite Hrules in Ho. cbn in Ho.
    destruct (resolvedRules_named _ _ _ _ _ _ Hrr Hr Ho) as [?|?]; [left|by right].
    apply elem_of_app. by left.
  - destruct (IHr _ Ho) as [?|?]; [left|by right]. apply elem_of_app. by right.
  - destruct (resolvedActions_named _ _ _ _ _ Hra Hguard Ha Ho) as [?|?]; [left|by right].
    apply elem_of_app. by left.
  - destruct (IHa _ Ho) as [?|?]; [left|by right]. apply elem_of_app. by right.
Qed.

(** X7. What [parseToStructured] returns holds no string reference,
    declares the rules of every check and has one check per check given;
    parsing it again returns it unchanged. *)
Theorem parseToStructured_fixed_point (config : JSONConfig Body CheckRest) out :
  parse config = Ok out ->
  length out = length (default [] (checks config)) /\
  Forall inlinedCheck out /\
  parse {| checks := Some out |} = Ok out.
Proof.
  intros (mr & ma & Hr & Ha & Hcr & Hca & Hres)%parse_Ok_loops.
  set (cs := default [] (checks config)) in *.
  pose proof (resolvedChecks_inlined _ _ _ _ Hres) as Hin.
  split_and!; [symmetry; by eapply Forall2_length|done|].
  destruct (resolvedChecks_named _ _ _ _ _ _ Hr Ha (namedActions_guarded cs) Hres)
    as [Hnr Hna].
  assert (compatible normalizeName (R out)) as Hcr2.
  { eapply compatible_subseteq; [|exact Hcr]. intros o Ho. by destruct (Hnr _ Ho). }
  assert (compatible toLowerCase (A out)) as Hca2.
  { eapply compatible_subseteq; [|exact Hca]. intros o Ho. by destruct (Hna _ Ho). }
  destruct (extractChecks_spec normalizeName isActionJson out [] [] [] [])
    as (_ & Htot & _);
    [apply registryOf_empty|apply empty_compatible
    |apply registryOf_empty|apply empty_compatible|].
  destruct (Htot Hcr2 Hca2) as [[mr2 ma2] Hex2].
  unfold parseToStructured. cbn. cbn in Hex2. rewrite Hex2.
  by apply insertChecks_inlined.
Qed.

(** X8. How [parseToStructured] fails.  It throws the conflict error of
    a named rule or action that differs, apart from the name, from
    another one of the document with the same key; or else, the names of
    the whole document being compatible, the error of a string reference
    of the document for which no definition of the document has the key.
    So a name conflict anywhere is reported before any unresolved
    reference, and nothing else is thrown. *)
Theorem parseToStructured_errors (config : JSONConfig Body CheckRest) e :
  parse config = Err e ->
  (ruleConflict e (R (default [] (checks config))) (R (default [] (checks config))) \/
   actionConflict e (A (default [] (checks config))) (A (default [] (checks config)))) \/
  (compatible normalizeName (R (default [] (checks config))) /\
   compatible toLowerCase (A (default [] (checks config))) /\
   exists ref,
     (e = NoNamedRule ref /\ ref ∈ ruleRefsOfChecks (default [] (checks config)) /\
      forall o, o ∈ R (default [] (checks config)) ->
                keyOf normalizeName o <> Some (toLowerCase ref)) \/
     (e = NoNamedAction ref /\ ref ∈ actionRefsOfChecks (default [] (checks config)) /\
      forall o, o ∈ A (default [] (checks config)) ->
                keyOf toLowerCase o <> Some (toLowerCase ref))).
Proof.
  unfold parseToStructured. set (cs := default [] (checks config)).
  destruct (extractChecks_spec normalizeName isActionJson cs [] [] [] [])
    as (Hok & _ & Herr);
    [apply registryOf_empty|apply empty_compatible
    |apply registryOf_empty|apply empty_compatible|].
  cbn [app] in *.
  destruct (extractChecks _ _ cs [] []) as [[mr ma]|e'] eqn:Hex.
  - intros Hins. right. destruct (Hok _ _ eq_refl) as [Hcr Hca].
    destruct (extractChecks_registries cs [] [] [] [] mr ma) as [Hr Ha];
      [apply registryOf_empty|apply empty_compatible
      |apply registryOf_empty|apply empty_compatible|done|].
    cbn [app] in *. split_and!; [done..|].
    pose proof (insertChecks_resolved cs mr ma) as Hres. rewrite Hins in Hres.
    destruct Hres as (ref & [(-> & Hin & Hget)|(-> & Hin & Hget)]); exists ref; [left|right];
      (split_and!; [done..|]); intros o Ho Hkey.
    + destruct Hr as (_ & _ & Hcov). destruct (Hcov _ _ Ho Hkey) as (? & ? & _). congruence.
    + destruct Ha as (_ & _ & Hcov). destruct (Hcov _ _ Ho Hkey) as (? & ? & _). congruence.
  - intros [= <-]. left. by apply Herr.
Qed.

(** X9. A top-level reference to a rule is replaced, in place, by an
    object that is a named rule of the document, is filed under the
    lower-cased reference, and equals, apart from the name, every named
    rule of the document with that key. *)
Theorem rule_reference_resolved (config : JSONConfig Body CheckRest) out i c c' j ref :
  parse config = Ok out ->
  default [] (checks config) !! i = Some c ->
  out !! i = Some c' ->
  rulesOf c !! j = Some (RuleRef ref) ->
  exists found,
    rulesOf c' !! j = Some (RuleObj found) /\
    found ∈ R (default [] (checks config)) /\
    keyOf normalizeName found = Some (toLowerCase ref) /\
    forall o, o ∈ R (default [] (checks config)) ->
      keyOf normalizeName o = Some (toLowerCase ref) -> stripName found = stripName o.
Proof.
  intros (mr & ma & Hr & _ & _ & _ & Hres)%parse_Ok_loops Hc Hc' Hj.
  destruct (Forall2_lookup_l _ _ _ _ _ Hres Hc) as (c2 & Hc2 & Hcheck).
  assert (c2 = c') as -> by congruence.
  destruct Hcheck as (_ & (strong & Hrules & Hstrong) & _).
  destruct (Forall2_lookup_l _ _ _ _ _ Hstrong Hj) as (r' & Hr' & Hrr).
  inversion Hrr as [? found Hget| |]; subst.
  exists found. unfold rulesOf at 1. rewrite Hrules. cbn.
  destruct (registryOf_key _ _ _ _ _ Hr Hget) as [Hin Hkey].
  split_and!; [done..|]. intros o Ho Hko.
  destruct Hr as (_ & _ & Hcov). destruct (Hcov _ _ Ho Hko) as (o' & Hget' & Hs).
  congruence.
Qed.

End Parse.
End Facts.

(** The samples are written in ASCII. *)
#[local] Existing Instance sampleCasing.

Lemma parseToStructured_resolves_witness :
  parseToStructured normalizeNameSpec anyObject referringConfig = Ok referringResult /\
  exists namedRules namedActions,
    registryOf normalizeNameSpec
      (namedRulesOfChecks (default [] (checks referringConfig))) namedRules /\
    registryOf toLowerCase
      (namedActionsOfChecks anyObject (default [] (checks referringConfig))) namedActions /\
    Forall2 (resolvedCheck namedRules namedActions)
      (default [] (checks referringConfig)) referringResult.
Proof.
  split; [vm_compute; reflexivity|].
  apply (parseToStructured_resolves normalizeNameSpec anyObject referringConfig).
  vm_compute; reflexivity.
Defined.

Lemma parseToStructured_fixed_point_witness :
  parseToStructured normalizeNameSpec anyObject referringConfig = Ok referringResult /\
  length referringResult = length (default [] (checks referringConfig)) /\
  Forall inlinedCheck referringResult /\
  parseToStructured normalizeNameSpec anyObject {| checks := Some referringResult |} =
  Ok referringResult.
Proof.
  split; [vm_compute; reflexivity|].
  apply (parseToStructured_fixed_point normalizeNameSpec anyObject referringConfig).
  vm_compute; reflexivity.
Defined.

Lemma parseToStructured_errors_witness :
  parseToStructured normalizeNameSpec anyObject danglingConfig = Err (NoNamedAction "Ban") /\
  ((nameConflict normalizeNameSpec RuleNameConflict (NoNamedAction "Ban")
      (namedRulesOfChecks (default [] (checks danglingConfig)))
      (namedRulesOfChecks (default [] (checks danglingConfig))) \/
    nameConflict toLowerCase ActionNameConflict (NoNamedAction "Ban")
      (namedActionsOfChecks anyObject (default [] (checks danglingConfig)))
      (namedActionsOfChecks anyObject (default [] (checks danglingConfig)))) \/
   (compatible normalizeNameSpec (namedRulesOfChecks (default [] (checks danglingConfig))) /\
    compatible toLowerCase
      (namedActionsOfChecks anyObject (default [] (checks danglingConfig))) /\
    exists ref,
      (NoNamedAction "Ban" = NoNamedRule ref /\
       ref ∈ ruleRefsOfChecks (default [] (checks danglingConfig)) /\
       forall o, o ∈ namedRulesOfChecks (default [] (checks danglingConfig)) ->
                 keyOf normalizeNameSpec o <> Some (toLowerCase ref)) \/
      (NoNamedAction "Ban" = NoNamedAction ref /\
       ref ∈ actionRefsOfChecks (default [] (checks danglingConfig)) /\
       forall o, o ∈ namedActionsOfChecks anyObject (default [] (checks danglingConfig)) ->
                 keyOf toLowerCase o <> Some (toLowerCase ref)))).
Proof.
  split; [vm_compute; reflexivity|].
  apply (parseToStructured_errors normalizeNameSpec anyObject danglingConfig).
  vm_compute; reflexivity.
Defined.

Lemma rule_reference_resolved_witness :
  exists found,
    rulesOf {| check_rest := tt;
               check_rules := Some [ RuleObj (sampleRule "Spam" 1) ];
               check_actions := [ ActionObj (sampleAction "Warn" 4) ] |} !! 0 =
      Some (RuleObj found) /\
    found ∈ namedRulesOfChecks (default [] (checks referringConfig)) /\
    keyOf normalizeNameSpec found = Some (toLowerCase "SPAM") /\
    forall o, o ∈ namedRulesOfChecks (default [] (checks referringConfig)) ->
      keyOf normalizeNameSpec o = Some (toLowerCase "SPAM") ->
      stripName found = stripName o.
Proof.
  apply (rule_reference_resolved normalizeNameSpec anyObject referringConfig
           referringResult 1
           {| check_rest := tt;
              check_rules := Some [ RuleRef "SPAM" ];
              check_actions := [ ActionRef "warn" ] |}
           _ 0 "SPAM"); vm_compute; reflexivity.
Defined.

End ConfigBuilderMore.

Module ResourcesMore.
Import Resources ResourcesSpec.

Section Facts.
Context `{Platform}.

Implicit Types (item a : Activity) (s : State) (cat : Category).

(** *** The ways of [getActivity] *)

Lemma getActivity_cases item s :
  getActivity item s =
  match activityCategory (this s) item with
  | Some cat =>
      throughCache cat (activityKey cat item) (activityHit cat item)
        (activityTTL cat (this s)) item s
  | None => fromSource item s (fun _ s' => s')
  end.
Proof.
  unfold activityCategory.
  destruct (enabled (submissionTTL (this s)) && asSubmission item) eqn:Hs.
  - apply andb_true_iff in Hs as [Hs Ha]. by apply getActivity_submission.
  - destruct (enabled (commentTTL (this s))) eqn:Hc.
    + by apply getActivity_comment.
    + by apply getActivity_bypass.
Qed.

Lemma activityKey_not_itemCrit cat item : ~ itemCritKey (activityKey cat item).
Proof. intros [rest E]. by destruct cat. Qed.

(** *** The world advances *)

Lemma countsMore_refl c : countsMore c c.
Proof. exists 0, 0. lia. Qed.

Lemma countsMore_trans c1 c2 c3 : countsMore c1 c2 -> countsMore c2 c3 -> countsMore c1 c3.
Proof.
  intros (dr & dm & ? & ? & ? & ?) (dr' & dm' & ? & ? & ? & ?).
  exists (dr + dr'), (dm + dm'). lia.
Qed.

Lemma countsMore_consistent c c' : countsMore c c' -> consistent c -> consistent c'.
Proof. intros (dr & dm & ? & ? & ? & ?) [? ?]. unfold consistent. lia. Qed.

Lemma extends_refl s : extends s s.
Proof. by split_and!. Qed.

Lemma extends_trans s1 s2 s3 : extends s1 s2 -> extends s2 s3 -> extends s1 s3.
Proof.
  intros (Ha & Hb & Hc & Hd & He & Hf) (Ha' & Hb' & Hc' & Hd' & He' & Hf').
  split_and!; [congruence|congruence|by etrans|by etrans|auto|auto].
Qed.

Lemma advances_refl s : advances s s.
Proof. split; [apply extends_refl|]. intros cat. apply countsMore_refl. Qed.

Lemma advances_trans s1 s2 s3 : advances s1 s2 -> advances s2 s3 -> advances s1 s3.
Proof.
  intros [He Hc] [He' Hc']. split; [by eapply extends_trans|].
  intros cat. by eapply countsMore_trans.
Qed.

Lemma advances_logged e s : advances s (logged e s).
Proof.
  split; [|intros cat; apply countsMore_refl].
  split_and!; [done|done|by apply prefix_app_r|done|done|done].
Qed.

Lemma advances_fetching item s : advances s (fetching item s).
Proof.
  split; [|intros cat; apply countsMore_refl].
  split_and!; [done|done|done|by apply prefix_app_r|done|done].
Qed.

Lemma countRequest_counts hash t c : countsMore c (countRequest hash t c).
Proof. exists 1, 0. cbn. rewrite length_app. cbn. lia. Qed.

Lemma advances_counted cat hash s : advances s (counted cat hash s).
Proof.
  split.
  - split_and!; [by destruct cat|done..].
  - intros cat'. destruct cat, cat'; cbn;
      first [apply countRequest_counts|apply countsMore_refl].
Qed.

(** A miss: the request was counted, the value was looked for, and the
    result is stored, under a key that was free or under the key of an
    item check. *)
Lemma advances_miss cat hash v t s s' :
  advances (counted cat hash s) s' ->
  store s' !! hash = None \/ itemCritKey hash ->
  advances s (stored hash v t (missed cat s')).
Proof.
  intros [(Ha & Hb & Hc & Hd & He & Hf) Hcount] Hfree. split.
  - split_and!.
    + transitivity (outsideCounters (this s')); [by destruct cat|].
      rewrite Ha. by destruct cat.
    + done.
    + done.
    + done.
    + intros k Hk. cbn. apply lookup_insert_is_Some.
      destruct (decide (hash = k)); [by left|right]. split; [done|]. by apply He.
    + intros k entry Hk Hnot. cbn.
      destruct (decide (hash = k)) as [->|Hne].
      * destruct Hfree as [Hnone|Hcrit]; [|done].
        specialize (Hf _ _ Hk Hnot). congruence.
      * rewrite lookup_insert_ne by done. by apply Hf.
  - intros cat'. specialize (Hcount cat').
    destruct Hcount as (dr & dm & Hr & Hm & Hle & Hts).
    destruct cat, cat'; cbn in *; rewrite ?length_app in Hts; cbn in Hts;
      first [exists dr, dm; cbn; lia | exists (S dr), (S dm); cbn; lia].
Qed.

Lemma advances_settings s s' :
  advances s s' ->
  filterCriteriaTTL (this s') = filterCriteriaTTL (this s) /\
  submissionTTL (this s') = submissionTTL (this s) /\
  commentTTL (this s') = commentTTL (this s).
Proof.
  intros [(Ha & _) _].
  split_and!;
    [apply (f_equal filterCriteriaTTL) in Ha
    |apply (f_equal submissionTTL) in Ha
    |apply (f_equal commentTTL) in Ha]; exact Ha.
Qed.

Lemma advances_category s s' item :
  advances s s' -> activityCategory (this s') item = activityCategory (this s) item.
Proof.
  intros (_ & Hs & Hc)%advances_settings. unfold activityCategory. by rewrite Hs, Hc.
Qed.

(** *** Steady methods *)

Lemma steady_ret {A} (x : A) : steady (mret x : M A).
Proof. intros s. apply advances_refl. Qed.

Lemma steady_throw {A} e : steady (throw e : M A).
Proof. intros s. apply advances_refl. Qed.

Lemma steady_getThis : steady getThis.
Proof. intros s. apply advances_refl. Qed.

Lemma steady_logEntry e : steady (logEntry e).
Proof. intros s. apply advances_logged. Qed.

Lemma steady_bind {A B} (m : M A) (k : A -> M B) :
  steady m -> (forall x, steady (k x)) -> steady (m ≫= k).
Proof.
  intros Hm Hk s. rewrite bind_run. specialize (Hm s).
  destruct (m s) as [[x|e] s1]; [|done].
  eapply advances_trans; [exact Hm|apply Hk].
Qed.

Lemma steady_asActivity v : steady (asActivity v).
Proof. destruct v; [apply steady_ret|apply steady_throw]. Qed.

Lemma steady_rethrowLogged {A} e : steady (rethrowLogged e : M A).
Proof.
  destruct e; cbn; try apply steady_throw;
    (apply steady_bind; [apply steady_logEntry|intros _; apply steady_throw]).
Qed.

Lemma getActivity_steady item : steady (getActivity item).
Proof.
  intros s. rewrite getActivity_cases.
  destruct (activityCategory (this s) item) as [cat|]; unfold throughCache, fromSource.
  - destruct (store s !! activityKey cat item) as [entry|] eqn:Hlook; cbn.
    + eapply advances_trans; [apply advances_counted|apply advances_logged].
    + destruct (fetch item) as [a|e]; cbn.
      * apply advances_miss; [apply advances_fetching|by left].
      * eapply advances_trans; [apply advances_counted|].
        eapply advances_trans; [apply advances_fetching|apply advances_logged].
  - destruct (fetch item) as [a|e]; cbn; [apply advances_fetching|].
    eapply advances_trans; [apply advances_fetching|apply advances_logged].
Qed.

(** *** The cached part of [testItemCriteria] *)

Lemma cachedItemCheck_run (check : M bool) item states s :
  cachedItemCheck check item states s =
  match store s !! itemCritHash item states with
  | Some entry =>
      (Ok (value entry),
       logged (DebugCacheHitItemCheck (name item) (itemCritHash item states))
         (counted CatItemCrit (itemCritHash item states) s))
  | None =>
      match check (counted CatItemCrit (itemCritHash item states) s) with
      | (Ok r, s1) =>
          (Ok (VBool r),
           stored (itemCritHash item states) (VBool r) (filterCriteriaTTL (this s))
             (missed CatItemCrit s1))
      | (Err e, s1) => rethrowLogged e s1
      end
  end.
Proof.
  unfold cachedItemCheck, itemCritHash. run.
  destruct (store s !! _) as [entry|]; cbn; [done|].
  by destruct (check _) as [[r|e] s1].
Qed.

Lemma rethrowLogged_Err {A} e s : exists e' s', (rethrowLogged e : M A) s = (Err e', s').
Proof. destruct e; cbn; eauto. Qed.

Lemma cachedItemCheck_steady (check : M bool) item states :
  steady check -> steady (cachedItemCheck check item states).
Proof.
  intros Hcheck s. rewrite cachedItemCheck_run.
  destruct (store s !! _) as [entry|]; cbn.
  { eapply advances_trans; [apply advances_counted|apply advances_logged]. }
  specialize (Hcheck (counted CatItemCrit (itemCritHash item states) s)).
  destruct (check _) as [[r|e] s1]; cbn in *.
  - apply advances_miss; [done|right; by eexists].
  - eapply advances_trans; [apply advances_counted|].
    eapply advances_trans; [exact Hcheck|apply steady_rethrowLogged].
Qed.

Lemma cachedItemCheck_Ok (check : M bool) item states v s s1 :
  cachedItemCheck check item states s = (Ok v, s1) ->
  value <$> store s1 !! itemCritHash item states = Some v.
Proof.
  rewrite cachedItemCheck_run.
  destruct (store s !! _) as [entry|] eqn:Hlook.
  - intros [= <- <-]. cbn. by rewrite Hlook.
  - destruct (check _) as [[r|e] s'].
    + intros [= <- <-]. cbn. by rewrite lookup_insert_eq.
    + destruct (rethrowLogged_Err (A := CacheValue) e s') as (e' & s2 & ->). done.
Qed.

Lemma cachedItemCheck_hit (check : M bool) item states v s :
  value <$> store s !! itemCritHash item states = Some v ->
  cachedItemCheck check item states s =
  (Ok v, logged (DebugCacheHitItemCheck (name item) (itemCritHash item states))
           (counted CatItemCrit (itemCritHash item states) s)).
Proof.
  intros Hv. rewrite cachedItemCheck_run.
  destruct (store s !! _) as [entry|]; [|done]. by injection Hv as ->.
Qed.

(** *** The two shapes of [testItemCriteria] *)

Lemma testItemCriteriaWith_plain check i states s :
  enabled (filterCriteriaTTL (this s)) = true ->
  substituted i states = false ->
  testItemCriteriaWith check i (CList states) s =
  cachedItemCheck (check (CList states) i) i (CList states) s.
Proof.
  intros Hon Hshape. unfold testItemCriteriaWith, substituted in *.
  rewrite bind_run. cbn. rewrite Hon.
  destruct states as [|[|[k w] [|]] [|]]; try done.
  rewrite <- andb_assoc. by rewrite Hshape.
Qed.

Lemma testItemCriteriaWith_substituted check i w s :
  enabled (filterCriteriaTTL (this s)) = true ->
  isComment i = true -> defined w = true ->
  testItemCriteriaWith check i (CList [[("submissionState", w)]]) s =
  (fetchedSub ← getActivity (getSubmission (link_id i));
   item ← asActivity fetchedSub;
   cachedItemCheck (check w item) item w) s.
Proof.
  intros Hon Hc Hw. unfold testItemCriteriaWith at 1.
  rewrite bind_run. cbn. by rewrite Hon, Hc, Hw.
Qed.

Lemma testItemCriteriaWith_steady check i v :
  (forall item, steady (check v item)) ->
  (forall k w item, v = CList [[(k, w)]] -> steady (check w item)) ->
  steady (testItemCriteriaWith check i v).
Proof.
  intros Hv Hw. unfold testItemCriteriaWith.
  apply steady_bind; [apply steady_getThis|]. intros self.
  destruct (enabled (filterCriteriaTTL self)).
  2:{ apply steady_bind; [apply Hv|]. intros r. apply steady_ret. }
  destruct v as [| | | | |[|[|[k w] [|]] [|]]];
    try (apply cachedItemCheck_steady; apply Hv).
  destruct (isComment i && bool_decide (k = "submissionState") && defined w);
    [|apply cachedItemCheck_steady; apply Hv].
  apply steady_bind; [apply getActivity_steady|]. intros fetchedSub.
  apply steady_bind; [apply steady_asActivity|]. intros item.
  apply cachedItemCheck_steady. by eapply Hw.
Qed.

Lemma switchField_steady check item k v :
  (forall item, steady (check v item)) ->
  (forall k w item, v = CList [[(k, w)]] -> steady (check w item)) ->
  steady (switchField check item k v).
Proof.
  intros Hv Hw. unfold switchField.
  repeat first
    [ apply steady_ret
    | apply steady_logEntry
    | apply getActivity_steady
    | apply steady_asActivity
    | by apply testItemCriteriaWith_steady
    | apply steady_bind; [|intros ?]
    | match goal with
      | |- steady (if ?b then _ else _) => destruct b
      | |- steady (match ?x with _ => _ end) => destruct x
      end ].
Qed.

(** *** [isItem] *)

Lemma CritValue_nested_ind (P : CritValue -> Prop) :
  P CUndefined -> P CNull -> (forall b, P (CBool b)) -> (forall n, P (CNum n)) ->
  (forall t, P (CStr t)) ->
  (forall states, Forall (Forall (fun kv => P kv.2)) states -> P (CList states)) ->
  forall v, P v.
Proof.
  intros Hu Hn Hb Hz Hs Hl. fix IH 1. intros [| |b|n|t|states]; [done..|].
  apply Hl. induction states as [|st states IHstates]; constructor; [|done].
  induction st as [|[k v] st IHst]; constructor; [apply IH|done].
Qed.

Lemma checkState_steady item crit fields :
  Forall (fun kv => steadyValue kv.2) fields -> steady (checkState item crit fields).
Proof.
  induction 1 as [|[k v] fields [Hv Hw] _ IH]; cbn [checkState].
  { apply steady_bind; [apply steady_logEntry|]. intros _. apply steady_ret. }
  destruct (defined v); [|done].
  apply steady_bind; [by apply switchField_steady|].
  intros [|]; [apply steady_ret|done].
Qed.

Lemma anyState_steady item crits :
  Forall (Forall (fun kv => steadyValue kv.2)) crits -> steady (anyState item crits).
Proof.
  induction 1 as [|crit crits Hcrit _ IH]; cbn [anyState]; [apply steady_ret|].
  apply steady_bind; [by apply checkState_steady|].
  intros [|]; [apply steady_ret|done].
Qed.

Lemma isItemValue_steadyValue v : steadyValue v.
Proof.
  induction v as [| |b|n|t|states IH] using CritValue_nested_ind;
    try (split; [intros item; apply steady_throw|done]).
  split.
  - intros item s. destruct states as [|crit rest]; [apply advances_refl|].
    change (isItemValue (CList (crit :: rest)) item s) with (isItem item (crit :: rest) s).
    rewrite isItem_cons. by apply anyState_steady.
  - intros k w item [= ->].
    apply Forall_cons in IH as [Hst _]. apply Forall_cons in Hst as [[Hw _] _].
    apply Hw.
Qed.

Lemma isItem_steady item states : steady (isItem item states).
Proof. apply isItemValue_steadyValue. Qed.

Lemma testItemCriteria_steady i states : steady (testItemCriteria i states).
Proof.
  apply testItemCriteriaWith_steady.
  - intros item. apply isItemValue_steadyValue.
  - intros k w item _. apply isItemValue_steadyValue.
Qed.

(** *** Hits, misses and failures of [getActivity] *)

Lemma getActivity_Ok_stored item cat v s s1 :
  activityCategory (this s) item = Some cat ->
  getActivity item s = (Ok v, s1) ->
  value <$> store s1 !! activityKey cat item = Some v.
Proof.
  intros Hcat. rewrite getActivity_cases, Hcat. unfold throughCache, fromSource.
  destruct (store s !! _) as [entry|] eqn:Hlook.
  - intros [= <- <-]. cbn. by rewrite Hlook.
  - destruct (fetch item) as [a|e]; [|done].
    intros [= <- <-]. cbn. by rewrite lookup_insert_eq.
Qed.

Lemma getActivity_hit item cat v s :
  activityCategory (this s) item = Some cat ->
  value <$> store s !! activityKey cat item = Some v ->
  getActivity item s =
  (Ok v, logged (activityHit cat item) (counted cat (activityKey cat item) s)).
Proof.
  intros Hcat Hv. rewrite getActivity_cases, Hcat. unfold throughCache.
  destruct (store s !! _) as [entry|]; [|done]. by injection Hv as ->.
Qed.

Lemma getActivity_Err item e s s' :
  getActivity item s = (Err e, s') ->
  exists err,
    fetch item = Err err /\ e = loggedOf err /\
    s' = logged (ErrorFetchCachedActivity err) (fetching item (atSource item s)) /\
    forall cat, activityCategory (this s) item = Some cat ->
                store s !! activityKey cat item = None.
Proof.
  rewrite getActivity_cases. unfold atSource, throughCache, fromSource.
  destruct (activityCategory (this s) item) as [cat|].
  - destruct (store s !! _) as [entry|] eqn:Hlook; [done|].
    destruct (fetch item) as [a|err]; [done|].
    intros [= <- <-]. exists err. split_and!; [done..|]. by intros ? [= <-].
  - destruct (fetch item) as [a|err]; [done|].
    intros [= <- <-]. exists err. by split_and!.
Qed.

Lemma getActivity_fails item err s :
  fetch item = Err err ->
  (forall cat, activityCategory (this s) item = Some cat ->
               store s !! activityKey cat item = None) ->
  getActivity item s =
  (Err (loggedOf err),
   logged (ErrorFetchCachedActivity err) (fetching item (atSource item s))).
Proof.
  intros Hf Hfree. rewrite getActivity_cases. unfold atSource, throughCache, fromSource.
  destruct (activityCategory (this s) item) as [cat|]; [|by rewrite Hf].
  by rewrite (Hfree cat eq_refl), Hf.
Qed.

(** X10. [getActivity] memoizes: when an item has a category and a call
    resolved, its value is in the store under the item's key, and the
    next call resolves to the same value as a hit: it counts a request,
    logs the hit, and neither fetches nor writes to the store. *)
Theorem getActivity_memoizes item cat v s s1 :
  activityCategory (this s) item = Some cat ->
  getActivity item s = (Ok v, s1) ->
  value <$> store s1 !! activityKey cat item = Some v /\
  exists s2,
    getActivity item s1 = (Ok v, s2) /\
    s2 = logged (activityHit cat item) (counted cat (activityKey cat item) s1) /\
    fetched s2 = fetched s1 /\ store s2 = store s1.
Proof.
  intros Hcat Hget.
  pose proof (getActivity_Ok_stored _ _ _ _ _ Hcat Hget) as Hv.
  split; [done|]. eexists. split_and!; [|done..].
  apply getActivity_hit; [|done].
  pose proof (getActivity_steady item s) as Hadv. rewrite Hget in Hadv.
  by rewrite (advances_category _ _ _ Hadv).
Qed.

(** X11. When [getActivity] rejects, the fetch of the item rejected and
    the item was not in the store; what is thrown is [err.logged], not
    the error of the fetch, which is logged; the request, if the item
    has a category, was counted, but no miss; and the store is as it
    was. *)
Theorem getActivity_rejection item e s s' :
  getActivity item s = (Err e, s') ->
  exists err,
    fetch item = Err err /\ e = loggedOf err /\
    log s' = log s ++ [ErrorFetchCachedActivity err] /\
    fetched s' = fetched s ++ [item] /\
    store s' = store s /\
    (forall cat, miss (categoryOf cat (stats (this s'))) =
                 miss (categoryOf cat (stats (this s)))) /\
    (forall cat, activityCategory (this s) item = Some cat ->
       store s !! activityKey cat item = None /\
       requests (categoryOf cat (stats (this s'))) =
       S (requests (categoryOf cat (stats (this s))))).
Proof.
  intros (err & Hf & -> & -> & Hfree)%getActivity_Err. exists err.
  unfold atSource.
  destruct (activityCategory (this s) item) as [cat|]; cbn.
  - split_and!; [done..| |].
    + intros cat'. by destruct cat, cat'.
    + intros ? [= <-]. split; [by apply Hfree|]. by destruct cat.
  - by split_and!.
Qed.

(** X12. [getActivity] only adds to the store: every entry stays as it
    was, and an entry that is new is the fetched item, under the item's
    key in its category and with the ttl of that category. *)
Theorem getActivity_store_grows item r s s' :
  getActivity item s = (r, s') ->
  (forall k entry, store s !! k = Some entry -> store s' !! k = Some entry) /\
  (forall k, store s !! k = None -> is_Some (store s' !! k) ->
     exists cat a,
       activityCategory (this s) item = Some cat /\ k = activityKey cat item /\
       fetch item = Ok a /\ r = Ok (VActivity a) /\
       store s' !! k =
       Some {| value := VActivity a; ttl := seconds (activityTTL cat (this s)) |}).
Proof.
  rewrite getActivity_cases. unfold throughCache, fromSource.
  destruct (activityCategory (this s) item) as [cat|].
  - destruct (store s !! activityKey cat item) as [entry|] eqn:Hlook.
    { intros [= <- <-]. cbn. split; [done|]. intros k -> [? ?]. done. }
    destruct (fetch item) as [a|err]; intros [= <- <-]; cbn.
    + split.
      * intros k entry Hk. rewrite lookup_insert_ne; [done|]. intros <-. congruence.
      * intros k Hk [entry Hnew]. destruct (decide (activityKey cat item = k)) as [<-|Hne].
        -- exists cat, a. split_and!; [done..|]. by rewrite lookup_insert_eq.
        -- rewrite lookup_insert_ne in Hnew by done. congruence.
    + split; [done|]. intros k -> [? ?]. done.
  - destruct (fetch item) as [a|err]; intros [= <- <-]; cbn;
      (split; [done|]; intros k -> [? ?]; done).
Qed.

(** X13. Every call of [getActivity], [isItem] and [testItemCriteria]
    advances the world: the settings of the resource, the other
    categories and the clock are untouched; the log and the list of
    fetches are only added to; no entry of the store is removed, and
    none is replaced except under the key of an item check; and every
    category counted some requests, a timestamp for each, and no more
    misses than requests. *)
Theorem lookups_advance s :
  (forall item, advances s (getActivity item s).2) /\
  (forall item states, advances s (isItem item states s).2) /\
  (forall i states, advances s (testItemCriteria i states s).2).
Proof.
  split_and!; intros.
  - apply getActivity_steady.
  - apply isItem_steady.
  - apply testItemCriteria_steady.
Qed.

(** X14. The counters stay consistent: in a category with no more
    misses than requests and one timestamp per request, this is still
    so after any call of [getActivity], [isItem] or
    [testItemCriteria], whether it resolved or rejected. *)
Theorem counters_stay_consistent cat s :
  consistent (categoryOf cat (stats (this s))) ->
  (forall item, consistent (categoryOf cat (stats (this (getActivity item s).2)))) /\
  (forall item states, consistent (categoryOf cat (stats (this (isItem item states s).2)))) /\
  (forall i states,
     consistent (categoryOf cat (stats (this (testItemCriteria i states s).2)))).
Proof.
  intros Hc. split_and!; intros; (eapply countsMore_consistent; [|exact Hc]).
  - apply getActivity_steady.
  - apply isItem_steady.
  - apply testItemCriteria_steady.
Qed.

(** X15. [testItemCriteria] memoizes: with the results of filters
    cached and an item checked as it is, when a call resolved, the next
    call with the same item and states resolves to the same value as a
    hit: it counts a request, logs the hit, and does not run [isItem],
    fetch or write to the store. *)
Theorem testItemCriteria_memoizes i states v s s1 :
  enabled (filterCriteriaTTL (this s)) = true ->
  substituted i states = false ->
  testItemCriteria i states s = (Ok v, s1) ->
  testItemCriteria i states s1 =
  (Ok v, logged (DebugCacheHitItemCheck (name i) (itemCritHash i (CList states)))
           (counted CatItemCrit (itemCritHash i (CList states)) s1)).
Proof.
  intros Hon Hshape Hfirst.
  pose proof (testItemCriteria_steady i states s) as Hadv. rewrite Hfirst in Hadv.
  destruct (advances_settings _ _ Hadv) as (Hon1 & _ & _). cbn in Hon1.
  unfold testItemCriteria in *.
  rewrite testItemCriteriaWith_plain in Hfirst by done.
  rewrite testItemCriteriaWith_plain by (by rewrite ?Hon1).
  apply cachedItemCheck_hit. by eapply cachedItemCheck_Ok.
Qed.

(** X16. Comments of one submission share the check of its state.  With
    the results of filters cached and the submission in a category,
    when a comment was checked for the state of its submission alone
    and the call resolved, the same check on any comment of the same
    submission resolves to the same value from the store: the
    submission is a hit, the check is a hit under the key of the
    submission, and nothing is fetched, checked or written. *)
Theorem comments_share_submission_check c1 c2 w cat v s s1 :
  isComment c1 = true -> isComment c2 = true ->
  link_id c2 = link_id c1 ->
  defined w = true ->
  enabled (filterCriteriaTTL (this s)) = true ->
  activityCategory (this s) (getSubmission (link_id c1)) = Some cat ->
  testItemCriteria c1 [[("submissionState", w)]] s = (Ok v, s1) ->
  exists sub s2,
    value <$> store s1 !! activityKey cat (getSubmission (link_id c1)) =
      Some (VActivity sub) /\
    testItemCriteria c2 [[("submissionState", w)]] s1 = (Ok v, s2) /\
    log s2 = log s1 ++ [activityHit cat (getSubmission (link_id c1));
                        DebugCacheHitItemCheck (name sub) (itemCritHash sub w)] /\
    fetched s2 = fetched s1 /\ store s2 = store s1.
Proof.
  intros Hc1 Hc2 Hlink Hw Hon Hcat Hfirst.
  pose proof (testItemCriteria_steady c1 [[("submissionState", w)]] s) as Hadv.
  rewrite Hfirst in Hadv. cbn in Hadv.
  destruct (advances_settings _ _ Hadv) as (Hon1 & _ & _).
  unfold testItemCriteria in *.
  rewrite testItemCriteriaWith_substituted in Hfirst by done.
  rewrite testItemCriteriaWith_substituted by (by rewrite ?Hon1).
  rewrite Hlink. set (proxy := getSubmission (link_id c1)) in *.
  rewrite bind_run in Hfirst.
  destruct (getActivity proxy s) as [[va|e] sa] eqn:Hproxy; [|done].
  pose proof (getActivity_Ok_stored _ _ _ _ _ Hcat Hproxy) as Hva.
  rewrite bind_run in Hfirst. destruct va as [sub|b]; [|done]. cbn in Hfirst.
  pose proof (cachedItemCheck_steady (isItemValue w sub) sub w
                (proj1 (isItemValue_steadyValue w) sub) sa) as Hcheck.
  rewrite Hfirst in Hcheck. cbn in Hcheck.
  assert (value <$> store s1 !! activityKey cat proxy = Some (VActivity sub)) as Hkept.
  { destruct (store sa !! activityKey cat proxy) as [entry|] eqn:Hentry; [|done].
    destruct Hcheck as [(_ & _ & _ & _ & _ & Hkeep) _].
    rewrite (Hkeep _ _ Hentry (activityKey_not_itemCrit _ _)). exact Hva. }
  exists sub. eexists. split; [exact Hkept|].
  rewrite bind_run.
  rewrite (getActivity_hit proxy cat (VActivity sub));
    [|by rewrite (advances_category _ _ _ Hadv)|done].
  rewrite bind_run. cbn [asActivity]. unfold ret at 1.
  rewrite (cachedItemCheck_hit _ sub w v); [|cbn; by eapply cachedItemCheck_Ok].
  split_and!; [done|cbn; by rewrite <- app_assoc|done|done].
Qed.

(** X17. A failed fetch of the submission of a comment surfaces in two
    ways.  Let the fetch of the submission reject while the submission
    is not in the store.  Checked for the state of its submission alone,
    the comment's [testItemCriteria] rejects with what [getActivity]
    threw, [err.logged].  Checked for more than that, with the results
    of filters cached and no result in the store, it rejects with a
    [TypeError]: the [catch] of [testItemCriteria] reads [logged] of
    the value thrown, which is [undefined].  In both cases only the
    line of [getActivity] is logged and nothing is written to the
    store. *)
Theorem failed_fetch_in_item_check c w fields rest err s :
  isComment c = true -> defined w = true ->
  enabled (filterCriteriaTTL (this s)) = true ->
  fetch (getSubmission (link_id c)) = Err err ->
  (forall cat, activityCategory (this s) (getSubmission (link_id c)) = Some cat ->
               store s !! activityKey cat (getSubmission (link_id c)) = None) ->
  substituted c ((("submissionState", w) :: fields) :: rest) = false ->
  store s !! itemCritHash c (CList ((("submissionState", w) :: fields) :: rest)) = None ->
  (exists s',
     testItemCriteria c [[("submissionState", w)]] s = (Err (loggedOf err), s') /\
     log s' = log s ++ [ErrorFetchCachedActivity err] /\ store s' = store s) /\
  (exists s',
     testItemCriteria c ((("submissionState", w) :: fields) :: rest) s =
       (Err TypeError, s') /\
     log s' = log s ++ [ErrorFetchCachedActivity err] /\ store s' = store s).
Proof.
  intros Hc Hw Hon Hf Hfree Hshape Hnone.
  set (proxy := getSubmission (link_id c)) in *. split.
  - eexists. unfold testItemCriteria.
    rewrite testItemCriteriaWith_substituted by done. fold proxy.
    rewrite bind_run, (getActivity_fails proxy err s) by done.
    split; [done|]. unfold atSource.
    by destruct (activityCategory (this s) proxy).
  - eexists. unfold testItemCriteria.
    rewrite testItemCriteriaWith_plain by done.
    rewrite cachedItemCheck_run, Hnone.
    match goal with |- context [isItemValue _ c ?x] => set (s0 := x) end.
    change (isItemValue (CList ?st) c s0) with (isItem c st s0).
    rewrite isItem_cons. cbn [anyState checkState].
    rewrite Hw, !bind_run. unfold switchField.
    rewrite bool_decide_eq_true_2 by done. rewrite Hc. cbn [negb].
    rewrite bind_run. fold proxy.
    rewrite (getActivity_fails proxy err s0) by done.
    split; [done|]. unfold atSource.
    by destruct (activityCategory _ proxy).
Qed.

End Facts.

(** A comment, fetched and then found. *)
Lemma getActivity_memoizes_witness :
  exists s1 s2,
    getActivity sampleComment (emptyWorld submissionsOff) =
      (Ok (VActivity fetchedComment), s1) /\
    getActivity sampleComment s1 = (Ok (VActivity fetchedComment), s2) /\
    fetched s2 = fetched s1 /\ store s2 = store s1.
Proof.
  assert (getActivity sampleComment (emptyWorld submissionsOff) =
          (Ok (VActivity fetchedComment),
           (getActivity sampleComment (emptyWorld submissionsOff)).2)) as Hfirst
    by (vm_compute; reflexivity).
  destruct (getActivity_memoizes (H := samplePlatform) sampleComment CatComment _
              (emptyWorld submissionsOff) _ eq_refl Hfirst) as (_ & s2 & Hsecond & _ & Hf & Hs).
  eexists _, s2. split_and!; [exact Hfirst|exact Hsecond|exact Hf|exact Hs].
Defined.

(** A comment while the API is down. *)
Lemma getActivity_rejection_witness :
  exists s' err,
    getActivity (H := downPlatform) sampleComment (emptyWorld submissionsOff) =
      (Err (loggedOf err), s') /\
    log s' = [ErrorFetchCachedActivity err] /\ store s' = ∅.
Proof.
  assert (getActivity (H := downPlatform) sampleComment (emptyWorld submissionsOff) =
          (Err ThrownUndefined,
           (getActivity (H := downPlatform) sampleComment
              (emptyWorld submissionsOff)).2)) as Hrej
    by (vm_compute; reflexivity).
  destruct (getActivity_rejection (H := downPlatform) _ _ (emptyWorld submissionsOff) _ Hrej)
    as (err & _ & He & Hlog & _ & Hstore & _).
  eexists _, err. split_and!; [exact Hrej|exact Hlog|exact Hstore].
Defined.

Lemma getActivity_store_grows_witness :
  let s := emptyWorld submissionsOff in
  let r := (getActivity sampleComment s).1 in
  let s' := (getActivity sampleComment s).2 in
  (forall k entry, store s !! k = Some entry -> store s' !! k = Some entry) /\
  (forall k, store s !! k = None -> is_Some (store s' !! k) ->
     exists cat a,
       activityCategory (this s) sampleComment = Some cat /\
       k = activityKey cat sampleComment /\
       fetch sampleComment = Ok a /\ r = Ok (VActivity a) /\
       store s' !! k =
       Some {| value := VActivity a; ttl := seconds (activityTTL cat (this s)) |}).
Proof.
  intros s r s'.
  apply (getActivity_store_grows (H := samplePlatform) sampleComment r s s').
  vm_compute; reflexivity.
Defined.

(** A new resource, after the check of a comment through its
    submission. *)
Lemma counters_stay_consistent_witness :
  consistent
    (comment (stats (this (testItemCriteria sampleComment [submissionUnlocked]
                             (emptyWorld submissionsOff)).2))).
Proof.
  apply (proj2 (proj2 (counters_stay_consistent (H := samplePlatform) CatComment
                         (emptyWorld submissionsOff) ltac:(split; cbn; lia)))).
Defined.

(** A submission checked twice. *)
Lemma testItemCriteria_memoizes_witness :
  exists s1,
    testItemCriteria sampleSubmission [lockedIs false] (emptyWorld submissionsOff) =
      (Ok (VBool true), s1) /\
    testItemCriteria sampleSubmission [lockedIs false] s1 =
      (Ok (VBool true),
       logged (DebugCacheHitItemCheck "t3_abc" "itemCrit-t3_abc-h")
         (counted CatItemCrit "itemCrit-t3_abc-h" s1)).
Proof.
  assert (testItemCriteria sampleSubmission [lockedIs false] (emptyWorld submissionsOff) =
          (Ok (VBool true),
           (testItemCriteria sampleSubmission [lockedIs false]
              (emptyWorld submissionsOff)).2)) as Hfirst
    by (vm_compute; reflexivity).
  eexists. split; [exact Hfirst|].
  exact (testItemCriteria_memoizes (H := samplePlatform) sampleSubmission [lockedIs false]
           _ (emptyWorld submissionsOff) _ eq_refl eq_refl Hfirst).
Defined.

(** Two comments of the sample submission. *)
Lemma comments_share_submission_check_witness :
  exists s1 s2,
    testItemCriteria sampleComment [submissionUnlocked] (emptyWorld submissionsOff) =
      (Ok (VBool true), s1) /\
    testItemCriteria otherComment [submissionUnlocked] s1 = (Ok (VBool true), s2) /\
    fetched s2 = fetched s1 /\ store s2 = store s1.
Proof.
  assert (testItemCriteria sampleComment [submissionUnlocked] (emptyWorld submissionsOff) =
          (Ok (VBool true),
           (testItemCriteria sampleComment [submissionUnlocked]
              (emptyWorld submissionsOff)).2)) as Hfirst
    by (vm_compute; reflexivity).
  destruct (comments_share_submission_check (H := samplePlatform)
              sampleComment otherComment (CList [lockedIs false]) CatComment _
              (emptyWorld submissionsOff) _
              eq_refl eq_refl eq_refl eq_refl eq_refl eq_refl Hfirst)
    as (sub & s2 & _ & Hsecond & _ & Hf & Hs).
  eexists _, s2. split_and!; [exact Hfirst|exact Hsecond|exact Hf|exact Hs].
Defined.

(** The sample comment while the API is down, checked for the state of
    its submission alone and with a second state. *)
Lemma failed_fetch_in_item_check_witness :
  (exists s',
     testItemCriteria (H := downPlatform) sampleComment [submissionUnlocked]
       (emptyWorld submissionsOff) = (Err ThrownUndefined, s') /\
     log s' = [ErrorFetchCachedActivity (Rejected "503")] /\ store s' = ∅) /\
  (exists s',
     testItemCriteria (H := downPlatform) sampleComment [submissionUnlocked; lockedIs false]
       (emptyWorld submissionsOff) = (Err TypeError, s') /\
     log s' = [ErrorFetchCachedActivity (Rejected "503")] /\ store s' = ∅).
Proof.
  apply (failed_fetch_in_item_check (H := downPlatform) sampleComment
           (CList [lockedIs false]) [] [lockedIs false] (Rejected "503")
           (emptyWorld submissionsOff) eq_refl eq_refl eq_refl eq_refl).
  - intros cat _. vm_compute. reflexivity.
  - reflexivity.
  - vm_compute. reflexivity.
Defined.

End ResourcesMore.

Module ManagerMore.
Import Resources Manager ManagerSpec.

Section Facts.
Context {StoreOptions : Type} `{Helpers StoreOptions}.
Abbreviation World := (World StoreOptions).
Abbreviation SubredditResourceConfig := (SubredditResourceConfig StoreOptions).

Implicit Types (w : World) (init : SubredditResourceConfig) (subName other : string)
  (res : SubredditResources).

(** [set] in one piece: the resource and the world it returns. *)
Lemma set_unfold subName init w :
  set subName init w =
  let hash := settingsHash subName init w in
  let opts := (prepare subName init w).1.2 in
  let stores := (prepare subName init w).2 in
  let resource :=
    match get subName w with
    | Some res =>
        if bool_decide (cacheSettingsHash res = hash) then refresh opts res
        else newSubredditResources subName opts
    | None => newSubredditResources subName opts
    end in
  (resource,
   {| manager := withResource subName resource (manager w);
      caches :=
        match get subName w with
        | Some res =>
            if bool_decide (cacheSettingsHash res = hash) then stores
            else reset (cache res) stores
        | None => stores
        end |}).
Proof.
  unfold set, settingsHash. destruct (prepare subName init w) as [[hash opts] stores].
  cbn. destruct (get subName w) as [res|]; [|done]. by case_bool_decide.
Qed.

Lemma set_manager subName init w :
  manager (set subName init w).2 =
  withResource subName (set subName init w).1 (manager w).
Proof. by rewrite set_unfold. Qed.

Lemma set_get subName init w :
  get subName (set subName init w).2 = Some (set subName init w).1.
Proof. unfold get. rewrite set_manager. cbn. apply lookup_insert_eq. Qed.

Lemma set_get_other subName other init w :
  other <> subName -> get other (set subName init w).2 = get other w.
Proof. intros Hne. unfold get. rewrite set_manager. cbn. by apply lookup_insert_ne. Qed.

(** The hash of a call depends on the settings of the manager only. *)
Lemma settingsHash_manager subName init w w' :
  defaultProvider (manager w') = defaultProvider (manager w) ->
  ttlDefaults (manager w') = ttlDefaults (manager w) ->
  cacheHash (manager w') = cacheHash (manager w) ->
  settingsHash subName init w' = settingsHash subName init w.
Proof.
  intros Hp Ht Hh. unfold settingsHash, prepare.
  destruct (caching init) as [cfg|]; [|done]. rewrite Hp, Ht, Hh.
  by case_bool_decide.
Qed.

Lemma settingsHash_set subName init init' w :
  settingsHash subName init (set subName init' w).2 = settingsHash subName init w.
Proof. apply settingsHash_manager; by rewrite set_manager. Qed.

Lemma owns_settingsHash subName init w p t :
  ownsCache init w p t -> settingsHash subName init w = hashCacheConfig p t.
Proof. intros Ho. unfold settingsHash. by rewrite (prepare_owned _ _ _ _ _ Ho). Qed.

Lemma createsStore_owns init w :
  createsStore init w = true <-> exists p t, ownsCache init w p t.
Proof.
  unfold createsStore, ownsCache. destruct (requested init w) as [[p t]|].
  - rewrite negb_true_iff, bool_decide_eq_false. split.
    + intros Hne. by exists p, t.
    + by intros (p' & t' & [= <- <-] & Hne).
  - split; [done|]. by intros (p & t & ? & _).
Qed.

Lemma createsStore_shares init w : createsStore init w = false <-> sharesCache init w.
Proof.
  unfold createsStore, sharesCache. destruct (requested init w) as [[p t]|]; [|done].
  by rewrite negb_false_iff, bool_decide_eq_true.
Qed.

Lemma prepare_stores subName init w :
  (prepare subName init w).2 =
  caches w ++ (if createsStore init w then [∅] else []).
Proof.
  destruct (createsStore init w) eqn:Hc.
  - apply createsStore_owns in Hc as (p & t & Ho).
    by rewrite (prepare_owned _ _ _ _ _ Ho).
  - apply createsStore_shares in Hc.
    rewrite (proj2 (prepare_shared subName _ _ Hc)). by rewrite app_nil_r.
Qed.

Lemma prepare_cache subName init w :
  o_cache (prepare subName init w).1.2 =
  if createsStore init w then length (caches w) else defaultCache (manager w).
Proof.
  destruct (createsStore init w) eqn:Hc.
  - apply createsStore_owns in Hc as (p & t & Ho).
    by rewrite (prepare_owned _ _ _ _ _ Ho).
  - apply createsStore_shares in Hc.
    by rewrite (proj1 (prepare_shared subName _ _ Hc)).
Qed.

(** The hash the options carry is the hash of the call, except for a
    [caching] section with the shared hash: the options then say
    ["default"]. *)
Lemma prepare_hash subName init w :
  o_cacheSettingsHash (prepare subName init w).1.2 =
  if createsStore init w then settingsHash subName init w else "default".
Proof.
  destruct (createsStore init w) eqn:Hc.
  - apply createsStore_owns in Hc as (p & t & Ho). unfold settingsHash.
    by rewrite (prepare_owned _ _ _ _ _ Ho).
  - apply createsStore_shares in Hc.
    by rewrite (proj1 (prepare_shared subName _ _ Hc)).
Qed.

(** X18. [set] files the resource it returns under the name of the
    subreddit and leaves the rest of the manager alone: the resources of
    the other subreddits, the shared cache and its provider, the kind of
    cache, the shared hash and the default ttls. *)
Theorem set_frame subName init w :
  get subName (set subName init w).2 = Some (set subName init w).1 /\
  (forall other, other <> subName -> get other (set subName init w).2 = get other w) /\
  defaultCache (manager (set subName init w).2) = defaultCache (manager w) /\
  defaultProvider (manager (set subName init w).2) = defaultProvider (manager w) /\
  mgr_cacheType (manager (set subName init w).2) = mgr_cacheType (manager w) /\
  cacheHash (manager (set subName init w).2) = cacheHash (manager w) /\
  ttlDefaults (manager (set subName init w).2) = ttlDefaults (manager w).
Proof.
  split_and!; [apply set_get|intros; by apply set_get_other|by rewrite set_manager..].
Qed.

Lemma set_caches subName init w :
  caches (set subName init w).2 =
  match get subName w with
  | Some res =>
      if bool_decide (cacheSettingsHash res = settingsHash subName init w)
      then caches w ++ (if createsStore init w then [∅] else [])
      else reset (cache res) (caches w ++ (if createsStore init w then [∅] else []))
  | None => caches w ++ (if createsStore init w then [∅] else [])
  end.
Proof. rewrite set_unfold. cbn. by rewrite prepare_stores. Qed.

Lemma set_length subName init w :
  length (caches (set subName init w).2) =
  length (caches w) + (if createsStore init w then 1 else 0).
Proof.
  rewrite set_caches.
  assert (length (caches w ++ (if createsStore init w then [∅] else [])) =
          length (caches w) + (if createsStore init w then 1 else 0)) as Hlen.
  { rewrite length_app. by destruct (createsStore init w). }
  destruct (get subName w) as [res|]; [|done].
  case_bool_decide; [done|]. unfold reset. by rewrite length_insert.
Qed.

Lemma set_new_store subName init w :
  createsStore init w = true ->
  caches (set subName init w).2 !! length (caches w) = Some ∅.
Proof.
  intros Hc. rewrite set_caches, Hc.
  assert ((caches w ++ [∅]) !! length (caches w) = Some (∅ : gmap string CacheEntry))
    as Hnew.
  { rewrite lookup_app_r by lia. by rewrite Nat.sub_diag. }
  destruct (get subName w) as [res|]; [|done].
  case_bool_decide; [done|]. unfold reset.
  destruct (decide (cache res = length (caches w))) as [->|Hne].
  - apply list_lookup_insert_eq. rewrite length_app. cbn. lia.
  - by rewrite list_lookup_insert_ne.
Qed.

Lemma set_old_store subName init w ref st :
  caches w !! ref = Some st ->
  caches (set subName init w).2 !! ref = Some st \/
  caches (set subName init w).2 !! ref = Some ∅ /\
  exists res, get subName w = Some res /\ ref = cache res /\
              cacheSettingsHash res <> settingsHash subName init w.
Proof.
  intros Hst. rewrite set_caches.
  assert ((caches w ++ (if createsStore init w then [∅] else [])) !! ref = Some st)
    as Hold by (by apply lookup_app_l_Some).
  destruct (get subName w) as [res|]; [|by left].
  case_bool_decide as Hhash; [by left|]. unfold reset.
  destruct (decide (cache res = ref)) as [<-|Hne].
  - right. split; [|by exists res]. apply list_lookup_insert_eq.
    by apply lookup_lt_Some with st.
  - left. by rewrite list_lookup_insert_ne.
Qed.

(** X19. What [set] does to the stores.  It removes none.  It creates
    one, empty, exactly when the subreddit asks for settings whose hash
    is not the shared one, whether the resource at hand is then
    replaced or kept.  And a store that existed keeps its entries,
    unless it is the store of the resource at hand and the hash of that
    resource is not the hash of the call: then it is emptied, for
    whoever holds it. *)
Theorem set_stores subName init w :
  length (caches (set subName init w).2) =
    length (caches w) + (if createsStore init w then 1 else 0) /\
  (createsStore init w = true ->
     caches (set subName init w).2 !! length (caches w) = Some ∅) /\
  (forall ref st, caches w !! ref = Some st ->
     caches (set subName init w).2 !! ref = Some st \/
     caches (set subName init w).2 !! ref = Some ∅ /\
     exists res, get subName w = Some res /\ ref = cache res /\
                 cacheSettingsHash res <> settingsHash subName init w).
Proof.
  split_and!; [apply set_length|apply set_new_store|apply set_old_store].
Qed.

(** X20. The references stay good, and a kept resource leaves a store
    behind.  If the shared cache and the caches of the resources are
    stores that exist, this is so after [set].  And when [set] keeps the
    resource at hand for a subreddit with settings of its own, the
    store it created for the call is held by nobody. *)
Theorem set_wellFormed subName init w :
  wellFormed w ->
  wellFormed (set subName init w).2 /\
  forall res,
    get subName w = Some res ->
    cacheSettingsHash res = settingsHash subName init w ->
    createsStore init w = true ->
    caches (set subName init w).2 !! length (caches w) = Some ∅ /\
    unreferenced (length (caches w)) (set subName init w).2.
Proof.
  intros [Hshared Hres].
  assert (length (caches w) <= length (caches (set subName init w).2)) as Hlen.
  { rewrite set_length. lia. }
  assert (get subName w = None \/
          (exists res, get subName w = Some res /\
                       cacheSettingsHash res <> settingsHash subName init w) ->
          cache (set subName init w).1 < length (caches (set subName init w).2)) as Hbuilt.
  { intros Hcase. rewrite set_length.
    assert ((set subName init w).1 =
            newSubredditResources subName (prepare subName init w).1.2) as ->.
    { rewrite set_unfold. cbn. destruct Hcase as [->|(res & -> & Hne)]; [done|].
      by rewrite bool_decide_eq_false_2. }
    cbn. rewrite prepare_cache. destruct (createsStore init w); lia. }
  split.
  - split; [rewrite set_manager; cbn; lia|].
    intros sub res. rewrite set_manager. cbn.
    destruct (decide (sub = subName)) as [->|Hne].
    + rewrite lookup_insert_eq. intros [= <-].
      destruct (get subName w) as [res|] eqn:Hget; [|by apply Hbuilt; left].
      destruct (decide (cacheSettingsHash res = settingsHash subName init w)) as [Heq|Hne].
      * rewrite set_unfold. cbn. rewrite Hget, bool_decide_eq_true_2 by done. cbn.
        specialize (Hres _ _ Hget). rewrite set_unfold in Hlen. cbn in Hlen.
        rewrite Hget, bool_decide_eq_true_2 in Hlen by done. lia.
      * apply Hbuilt. right. by exists res.
    + rewrite lookup_insert_ne by done. intros Hsub. specialize (Hres _ _ Hsub). lia.
  - intros res Hget Heq Hc. split; [by apply set_new_store|].
    split; [rewrite set_manager; cbn; lia|].
    intros sub res'. rewrite set_manager. cbn.
    destruct (decide (sub = subName)) as [->|Hne].
    + rewrite lookup_insert_eq. intros [= <-].
      rewrite set_unfold. cbn. rewrite Hget, bool_decide_eq_true_2 by done. cbn.
      specialize (Hres _ _ Hget). lia.
    + rewrite lookup_insert_ne by done. intros Hsub. specialize (Hres _ _ Hsub). lia.
Qed.

(** X21. A second call keeps what the first built.  For a subreddit
    without a [caching] section, or with settings whose hash is not the
    shared one, a call of [set] after a call with the same options finds
    the hash it looks for, keeps the cache settings of the resource,
    and leaves every store with its entries. *)
Theorem set_again_keeps subName init w :
  caching init = None \/ createsStore init w = true ->
  cacheSettingsHash (set subName init w).1 =
    settingsHash subName init (set subName init w).2 /\
  sameCacheSettings (set subName init (set subName init w).2).1 (set subName init w).1 /\
  forall ref st,
    caches (set subName init w).2 !! ref = Some st ->
    caches (set subName init (set subName init w).2).2 !! ref = Some st.
Proof.
  intros Hcase.
  assert (o_cacheSettingsHash (prepare subName init w).1.2 =
          settingsHash subName init w) as Hopts.
  { rewrite prepare_hash. destruct Hcase as [Hnone| ->]; [|done].
    unfold createsStore, requested, settingsHash, prepare. by rewrite Hnone. }
  assert (cacheSettingsHash (set subName init w).1 =
          settingsHash subName init (set subName init w).2) as Hhash.
  { rewrite settingsHash_set. rewrite set_unfold. cbn.
    destruct (get subName w) as [res|]; [|done].
    by case_bool_decide. }
  split; [done|].
  set (w1 := (set subName init w).2) in *. set (r1 := (set subName init w).1) in *.
  assert (get subName w1 = Some r1) as Hget by apply set_get.
  split.
  - rewrite set_unfold. cbn. rewrite Hget, bool_decide_eq_true_2 by done.
    by repeat split.
  - intros ref st Hst. rewrite set_caches, Hget, bool_decide_eq_true_2 by done.
    by apply lookup_app_l_Some.
Qed.

End Facts.

(** *** Sample calls *)

Lemma set_frame_witness :
  get "pics" (set "pics" ownSettings sampleWorld).2 =
    Some (set "pics" ownSettings sampleWorld).1 /\
  get "aww" (set "pics" ownSettings sampleWorld).2 = get "aww" sampleWorld.
Proof.
  destruct (set_frame (H := sampleHelpers) "pics" ownSettings sampleWorld)
    as (Hown & Hother & _).
  split; [exact Hown|]. apply Hother. discriminate.
Defined.

(** The store created for [pics] is number 1, and the shared store
    keeps its entry. *)
Lemma set_stores_witness :
  caches (set "pics" ownSettings sampleWorld).2 !! 1 = Some ∅ /\
  length (caches (set "pics" ownSettings sampleWorld).2) = 2.
Proof.
  destruct (set_stores (H := sampleHelpers) "pics" ownSettings sampleWorld)
    as (Hlen & Hnew & _).
  split; [apply Hnew; reflexivity|exact Hlen].
Defined.

(** A second call for [pics] with the same settings of its own: store
    number 2 is created and held by nobody. *)
Lemma set_wellFormed_witness :
  wellFormed ownWorld /\
  caches (set "pics" ownSettings ownWorld).2 !! 2 = Some ∅ /\
  unreferenced 2 (set "pics" ownSettings ownWorld).2.
Proof.
  assert (wellFormed sampleWorld) as Hwf.
  { split; [cbn; lia|]. intros sub res Hres. cbn in Hres.
    rewrite lookup_empty in Hres. discriminate. }
  destruct (set_wellFormed (H := sampleHelpers) "pics" ownSettings sampleWorld Hwf)
    as [Hwf1 _].
  destruct (set_wellFormed (H := sampleHelpers) "pics" ownSettings ownWorld Hwf1)
    as [_ Hleak].
  split; [exact Hwf1|].
  apply (Hleak (set "pics" ownSettings sampleWorld).1); vm_compute; reflexivity.
Defined.

Lemma set_again_keeps_witness :
  cacheSettingsHash (set "pics" sharedSettings sampleWorld).1 =
    settingsHash "pics" sharedSettings (set "pics" sharedSettings sampleWorld).2 /\
  sameCacheSettings
    (set "pics" sharedSettings (set "pics" sharedSettings sampleWorld).2).1
    (set "pics" sharedSettings sampleWorld).1 /\
  forall ref st,
    caches (set "pics" sharedSettings sampleWorld).2 !! ref = Some st ->
    caches (set "pics" sharedSettings (set "pics" sharedSettings sampleWorld).2).2 !! ref =
      Some st.
Proof.
  apply (set_again_keeps (H := sampleHelpers) "pics" sharedSettings sampleWorld).
  left. reflexivity.
Defined.

End ManagerMore.

Module CommentActionMore.
Import CommentAction.

(** Run [process] by cases of what it reads and of what its calls
    settle to. *)
Ltac process_cases :=
  unfold process, rendered, plannedCalls, callsOf, orDryRun,
    mbind, Act_bind, act_bind, mret, Act_ret, act_ret, await, call, logLine in *;
  cbn in *;
  repeat (match goal with
          | |- context [match ?x with _ => _ end] =>
              lazymatch x with
              | context [match _ with _ => _ end] => fail
              | _ => destruct x eqn:?
              end
          | H : context [match ?x with _ => _ end] |- _ =>
              lazymatch x with
              | context [match _ with _ => _ end] => fail
              | _ => destruct x eqn:?
              end
          end; cbn in *).

Ltac contradictory :=
  repeat match goal with
         | H : negb _ = true |- _ => apply negb_true_iff in H
         | H : negb _ = false |- _ => apply negb_false_iff in H
         | H : _ && _ = true |- _ => apply andb_true_iff in H as [? ?]
         end;
  congruence.

(** Two readings of what one call settled to agree. *)
Ltac same_calls :=
  simplify_eq;
  repeat match goal with
         | H1 : ?x = _, H2 : ?x = _ |- _ => rewrite H1 in H2
         end;
  simplify_eq.

Section Facts.
Context {RuleResult : Type} `{Reddit RuleResult}.

Implicit Types (this : CommentAction) (item : Resources.Activity)
  (ruleResults : list RuleResult) (runtimeDryrun : option bool).

(** X23. A dry run writes nothing, and neither does a run on an
    archived item or one whose text cannot be rendered: [process] then
    makes no call, whatever [lock] and [distinguish] say.  With the text
    rendered, an archived item is reported as a failure with its
    message, and a dry run on an item that is not archived as a
    success. *)
Theorem process_calls_nothing this item ruleResults runtimeDryrun :
  orDryRun runtimeDryrun (thisDryRun this) = true \/
  archived item = true \/
  (exists e, rendered this item ruleResults = Err e) ->
  callsOf (process this item ruleResults runtimeDryrun []).2 = [] /\
  (forall text,
     rendered this item ruleResults = Ok text ->
     (process this item ruleResults runtimeDryrun []).1 =
     Ok (if archived item
         then {| dryRun := orDryRun runtimeDryrun (thisDryRun this); success := false;
                 result := Some "Cannot comment because Item is archived" |}
         else {| dryRun := true; success := true; result := None |})).
Proof.
  intros Hcase. split.
  - destruct Hcase as [Hdry|[Harch|[e He]]]; process_cases; first [done|contradictory].
  - intros text Htext.
    destruct Hcase as [Hdry|[Harch|[e He]]]; process_cases; first [done|contradictory].
Qed.

(** X24. What a run that is not dry asks of Reddit.  On an item that is
    not archived, with the text rendered, the calls [process] makes are
    the first of the planned ones, in order: the reply with the text,
    then the lock of the item (not of the reply) if [lock] is set, then
    the distinction of the reply, sticky as [sticky] says, if
    [distinguish] is set; [sticky] alone asks nothing.  If [process]
    resolves, all of them were made and it reports a success; if the
    three calls resolve, [process] resolves. *)
Theorem process_calls_planned this item ruleResults runtimeDryrun text :
  orDryRun runtimeDryrun (thisDryRun this) = false ->
  archived item = false ->
  rendered this item ruleResults = Ok text ->
  callsOf (process this item ruleResults runtimeDryrun []).2
    `prefix_of` plannedCalls this item text /\
  (forall res,
     (process this item ruleResults runtimeDryrun []).1 = Ok res ->
     res = {| dryRun := false; success := true; result := None |} /\
     callsOf (process this item ruleResults runtimeDryrun []).2 =
       plannedCalls this item text) /\
  (forall reply,
     replyTo item text = Ok reply ->
     lockItem item = Ok tt ->
     distinguishReply reply (sticky this) = Ok tt ->
     (process this item ruleResults runtimeDryrun []).1 =
       Ok {| dryRun := false; success := true; result := None |}).
Proof.
  intros Hdry Harch Htext. split_and!.
  - process_cases; try contradictory; same_calls;
      first [done | repeat apply prefix_cons; by apply prefix_nil].
  - intros res. process_cases; intros; try contradictory; same_calls; by rewrite ?Hdry.
  - intros reply Hreply Hlock Hdist.
    process_cases; try contradictory; same_calls; by rewrite ?Hdry.
Qed.

End Facts.

(** A dry run of the sample action. *)
Lemma process_calls_nothing_witness :
  callsOf (process (H := sampleReddit) sampleComment Resources.sampleSubmission []
             (Some true) []).2 = [] /\
  (process (H := sampleReddit) sampleComment Resources.sampleSubmission []
     (Some true) []).1 =
  Ok {| dryRun := true; success := true; result := None |}.
Proof.
  destruct (process_calls_nothing (H := sampleReddit) sampleComment
              Resources.sampleSubmission [] (Some true) (or_introl eq_refl))
    as [Hcalls Hres].
  split; [exact Hcalls|]. exact (Hres _ eq_refl).
Defined.

(** The sample action for real: three calls. *)
Lemma process_calls_planned_witness :
  exists reply,
    callsOf (process (H := sampleReddit) sampleComment Resources.sampleSubmission []
               None []).2 =
    [Reply Resources.sampleSubmission "Please read the rules.";
     Lock Resources.sampleSubmission;
     Distinguish reply true].
Proof.
  destruct (process_calls_planned (H := sampleReddit) sampleComment
              Resources.sampleSubmission [] None "Please read the rules."
              eq_refl eq_refl eq_refl) as (_ & Hres & _).
  eexists. exact (proj2 (Hres _ eq_refl)).
Defined.

End CommentActionMore.

Module PaginationMore.
Import Pagination.
Local Open Scope Z_scope.

Lemma orDefault_positive parsed d :
  0 < d -> (forall n, parsed = Some n -> 0 <= n) -> 0 < orDefault parsed d.
Proof.
  intros Hd Hn. unfold orDefault. destruct parsed as [n|]; [|done].
  specialize (Hn n eq_refl). destruct (Z.eqb_spec n 0); lia.
Qed.

(** X25. The page [paginateRequest] describes.  For a request whose
    numbers, where given, are not negative, positive defaults and a
    count that is not negative: the page size is positive and at most
    the maximum, the page is at least 1, and [last_page] is the least
    number of pages that hold [total] rows; there is a next page
    exactly when the page is before the last; and on a page up to the
    last, [from] and [to] delimit the rows of the page, at least one and
    at most a page of them, all that remain if fewer. *)
Theorem pagination_consistent {A} (getManyAndCount : Z -> Z -> list A * Z) req
    defaultPerPage maxPerPage :
  0 < defaultPerPage -> 0 < maxPerPage ->
  (forall n, query_per_page req = Some n -> 0 <= n) ->
  (forall n, query_page req = Some n -> 0 <= n) ->
  (forall skip take, 0 <= (getManyAndCount skip take).2) ->
  let page := paginateRequest getManyAndCount req defaultPerPage maxPerPage in
  0 < per_page page <= maxPerPage /\
  1 <= current_page page /\
  (exists last,
     last_page page = Some last /\
     (last - 1) * per_page page < total page <= last * per_page page /\
     (next_page page = Some (current_page page + 1) <-> current_page page < last) /\
     (next_page page = None <-> last <= current_page page) /\
     (current_page page <= last ->
        exists first,
          from page = Some first /\
          first = (current_page page - 1) * per_page page + 1 /\
          first <= to page <= total page /\
          to page - first + 1 = Z.min (per_page page) (total page - first + 1))).
Proof.
  intros Hd Hm Hpp Hp Hcount page. subst page. unfold paginateRequest.
  pose proof (orDefault_positive _ _ Hd Hpp) as Hper.
  pose proof (orDefault_positive (query_page req) 1 ltac:(lia) Hp) as Hpage.
  fold (getPerPage req defaultPerPage) in Hper. fold (getPage req 1) in Hpage.
  set (pp := Z.min (getPerPage req defaultPerPage) maxPerPage).
  set (p := getPage req 1) in *.
  assert (0 < pp <= maxPerPage) as Hppos by (unfold pp; lia).
  specialize (Hcount ((p - 1) * pp) pp).
  destruct (getManyAndCount ((p - 1) * pp) pp) as [res count]. cbn in *.
  split; [done|]. split; [lia|].
  destruct (Z.eqb_spec pp 0) as [|_]; [lia|].
  rewrite Z.rem_mod_nonneg, Z.quot_div_nonneg by lia.
  pose proof (Z.div_mod count pp ltac:(lia)) as Hdiv.
  pose proof (Z.mod_pos_bound count pp ltac:(lia)) as Hmod.
  set (q := count / pp) in *. set (r := count mod pp) in *.
  exists (if r =? 0 then q else q + 1).
  assert ((if r =? 0 then q else q + 1) * pp - pp < count <=
          (if r =? 0 then q else q + 1) * pp) as Hlast.
  { destruct (Z.eqb_spec r 0); nia. }
  set (last := if r =? 0 then q else q + 1) in *. clearbody last.
  split; [done|]. split; [nia|].
  destruct (Z.gtb_spec count ((p - 1) * pp + pp)) as [Hgt|Hle].
  - split_and!.
    + split; [intros _; nia|done].
    + split; [done|intros ?; nia].
    + intros Hp_last. destruct (Z.leb_spec ((p - 1) * pp) count); [|lia].
      eexists. split_and!; [done|done|lia|lia|lia].
  - split_and!.
    + split; [done|intros ?; nia].
    + split; [intros _; nia|done].
    + intros Hp_last. assert ((p - 1) * pp < count) by nia.
      destruct (Z.leb_spec ((p - 1) * pp) count); [|lia].
      eexists. split_and!; [done|done|lia|lia|lia].
Qed.

(** The second page of a table of 45 rows, 20 a page. *)
Lemma pagination_consistent_witness :
  let page :=
    paginateRequest (sampleTable 45)
      {| query_per_page := Some 20; query_page := Some 2 |} 15 100 in
  last_page page = Some 3 /\ from page = Some 21 /\ to page = 40 /\
  next_page page = Some 3 /\
  exists last,
    last_page page = Some last /\
    (last - 1) * per_page page < total page <= last * per_page page.
Proof.
  intros page. split_and!; [reflexivity..|].
  destruct (pagination_consistent (sampleTable 45)
              {| query_per_page := Some 20; query_page := Some 2 |} 15 100
              ltac:(lia) ltac:(lia))
    as (_ & _ & last & Hlast & Hbounds & _).
  - intros n [= <-]. lia.
  - intros n [= <-]. lia.
  - intros skip take. cbn. lia.
  - exists last. split; [exact Hlast|exact Hbounds].
Defined.

End PaginationMore.

Module UtilMore.
Import Util.

Section Facts.
Context {T : Type} `{ConfigBuilder.Casing}.
Context (read : string -> T -> string) (inherited : string -> bool).
Variables (keys : list string) (lowercase : bool).

Local Abbreviation value := (groupValue read keys lowercase).

Lemma reduce_groups (array : list T) : forall acc,
  Forall (fun obj => inherited (value obj) = false) array ->
  exists groups,
    reduce read inherited keys lowercase acc array = Ok groups /\
    forall k, groups !! k = joined (acc !! k) (filter (fun obj => value obj = k) array).
Proof.
  induction array as [|obj rest IH]; intros acc Hown.
  { exists acc. split; [done|]. intros k. rewrite filter_nil. unfold joined.
    destruct (acc !! k); cbn; by rewrite ?app_nil_r. }
  apply Forall_cons in Hown as [Hobj Hrest]. cbn [reduce].
  assert (groupStep read inherited keys lowercase acc obj =
          Ok (<[value obj := default [] (acc !! value obj) ++ [obj]]> acc)) as ->.
  { unfold groupStep. destruct (acc !! value obj); [done|]. by rewrite Hobj. }
  destruct (IH (<[value obj := default [] (acc !! value obj) ++ [obj]]> acc) Hrest)
    as (groups & -> & Hgroups).
  exists groups. split; [done|].
  intros k. rewrite Hgroups. destruct (decide (value obj = k)) as [<-|Hne].
  - rewrite lookup_insert_eq, filter_cons_True by done. unfold joined. cbn.
    rewrite <- app_assoc. cbn.
    by destruct (acc !! value obj), (filter _ rest).
  - by rewrite lookup_insert_ne, filter_cons_False.
Qed.

Lemma reduce_throws (array : list T) : forall acc,
  Exists (fun obj => inherited (value obj) = true /\ acc !! value obj = None) array ->
  (forall k, is_Some (acc !! k) -> inherited k = false) ->
  reduce read inherited keys lowercase acc array = Err ConcatIsNotAFunction.
Proof.
  induction array as [|obj rest IH]; intros acc Hex Hacc; [by apply Exists_nil in Hex|].
  cbn [reduce]. unfold groupStep. fold value.
  destruct (acc !! value obj) as [group|] eqn:Hlook.
  - apply Exists_cons in Hex as [[_ Hnone]|Hex]; [congruence|].
    apply IH.
    + eapply Exists_impl; [exact Hex|]. intros o [Hi Hnone]. split; [done|].
      rewrite lookup_insert_ne; [done|]. intros Heq. rewrite <- Heq in Hi.
      rewrite (Hacc (value obj)) in Hi; [done|by eexists].
    + intros k [g Hk]. destruct (decide (value obj = k)) as [<-|Hne].
      * apply Hacc. by eexists.
      * rewrite lookup_insert_ne in Hk by done. apply Hacc. by eexists.
  - destruct (inherited (value obj)) eqn:Hi; [done|].
    apply Exists_cons in Hex as [[Hi' _]|Hex]; [congruence|].
    apply IH.
    + eapply Exists_impl; [exact Hex|]. intros o [Ho Hnone]. split; [done|].
      rewrite lookup_insert_ne; [done|]. congruence.
    + intros k [g Hk]. destruct (decide (value obj = k)) as [<-|Hne]; [done|].
      rewrite lookup_insert_ne in Hk by done. apply Hacc. by eexists.
Qed.

End Facts.

(** X26. What [groupBy] returns.  If no object of the array has for
    value a name that objects inherit, [groupBy] returns the groups: under
    each value, the objects of the array with that value, in the order of
    the array, and nothing under a value that no object has.  If some
    object has such a name for value, [groupBy] throws: what it finds
    under that name is not an array. *)
Theorem groupBy_groups {T : Type} `{ConfigBuilder.Casing} (read : string -> T -> string)
    (inherited : string -> bool) keys lowercase (array : list T) :
  (Forall (fun obj => inherited (groupValue read keys (default false lowercase) obj) = false)
     array ->
   exists groups,
     groupBy read inherited keys lowercase array = Ok groups /\
     forall k,
       groups !! k =
       match filter (fun obj => groupValue read keys (default false lowercase) obj = k)
               array with
       | [] => None
       | group => Some group
       end) /\
  (Exists (fun obj => inherited (groupValue read keys (default false lowercase) obj) = true)
     array ->
   groupBy read inherited keys lowercase array = Err ConcatIsNotAFunction).
Proof.
  split.
  - intros Hown. destruct (reduce_groups read inherited keys _ array ∅ Hown)
      as (groups & Hgroups & Hk).
    exists groups. split; [done|]. intros k. rewrite Hk, lookup_empty. unfold joined.
    by destruct (filter _ array).
  - intros Hex. apply reduce_throws.
    + eapply Exists_impl; [exact Hex|]. intros obj Hobj. by rewrite lookup_empty.
    + intros k [g Hk]. by rewrite lookup_empty in Hk.
Qed.

#[local] Existing Instance ConfigBuilder.sampleCasing.

(** Three pairs in two groups. *)
Lemma groupBy_groups_witness :
  exists groups,
    groupBy firstOf onlyConstructor ["author"] (Some true)
      [("Ann", 1); ("bob", 2); ("ann", 3)] = Ok groups /\
    groups !! "ann" = Some [("Ann", 1); ("ann", 3)] /\
    groups !! "bob" = Some [("bob", 2)] /\
    groups !! "Ann" = None.
Proof.
  destruct (proj1 (groupBy_groups firstOf onlyConstructor ["author"] (Some true)
                     [("Ann", 1); ("bob", 2); ("ann", 3)]))
    as (groups & Hgroups & Hk).
  { repeat constructor. }
  exists groups. split; [exact Hgroups|].
  split_and!; rewrite Hk; vm_compute; reflexivity.
Defined.

End UtilMore.
